(** * Waterlogging Route Checker: a shallow embedding of [src/App.jsx]

    The development follows the source function by function:
    [geocode], [getRoute], [sampleLineString], [checkWaterAroundPoint],
    [fetchPrecipitationLastHours], [riskLevel] and [handleCheckRoute].

    Modelling conventions.
    - A JavaScript number is a finite IEEE 754 double, represented by its
      exact value in [Q].  Comparisons, [Math.max] and [toFixed] are exact
      on such values; [+] is not, and rounds the exact sum to the nearest
      double, ties to even ([Number_add]).  NaN, the infinities (a sum
      beyond the largest double) and the sign of zero are outside the
      model.
    - An [async] function is a computation over an environment (the four
      HTTP services and the Leaflet bundle) and a world (the React state
      of the component, its refs, and the chronological trace of every
      state update and every network exchange).  A computation either
      completes normally or throws; [await] of a rejected promise throws.
    - A provider always answers (by a response or by a rejection): a call
      that never settles, for which the source has no timeout, is not
      represented.
    - The handler runs to completion between two of its [await]s.  Of the
      other code of the component, the callback of the route effect shares
      state with it (the array of sample markers); it is queued once the
      handler has stored a route and runs at one of the handler's later
      [await]s, or after the run, as the scheduler decides. *)

From Stdlib Require Import QArith Qround Qabs ZArith String Ascii List Lia
  Bool DecimalString PeanoNat Lqa.
Import ListNotations.

Local Open Scope string_scope.
Local Open Scope Q_scope.

(** ** Numbers *)

(** [x > y] on JavaScript numbers. *)
Definition Qgtb (x y : Q) : bool := negb (Qle_bool x y).

(** [Math.max(a, b)]. *)
Definition Math_max (a b : Q) : Q := if Qle_bool a b then b else a.

(** The integer nearest to [x], the even one when [x] lies halfway between
    two integers. *)
Definition round_half_even (x : Q) : Z :=
  let f := Qfloor x in
  match Qcompare (x - inject_Z f) (1 # 2) with
  | Lt => f
  | Gt => (f + 1)%Z
  | Eq => if Z.even f then f else (f + 1)%Z
  end.

(** Doubles are counted in units of [2^-1074], the smallest positive one:
    a double is [m * 2^k] such units with [m < 2^53].  For a magnitude of
    [ax] units, [2^(ulp_exponent ax)] is the gap between the doubles
    around it: 53 significant bits, and never less than one unit. *)
Definition ulp_exponent (ax : Q) : Z := Z.max (Z.log2 (Qfloor ax) - 52) 0.

(** The magnitude [ax], rounded to a multiple of that gap. *)
Definition round_scaled (ax : Q) : Z :=
  let u := (2 ^ ulp_exponent ax)%Z in
  (round_half_even (ax / inject_Z u) * u)%Z.

(** IEEE 754 [roundTiesToEven] to binary64: the double nearest to [x].
    The exponent is not bounded above (no overflow to an infinity). *)
Definition double_round (x : Q) : Q :=
  let d := Qred (inject_Z (round_scaled (Qabs x * inject_Z (2 ^ 1074)))
                 / inject_Z (2 ^ 1074)) in
  if Qgtb 0 x then - d else d.

(** [a + b] on numbers (ECMAScript, Number::add). *)
Definition Number_add (a b : Q) : Q := double_round (a + b).

(** The number a decimal numeral denotes, in the source text and in a JSON
    body alike: the double nearest to it. *)
Definition Number_of (numeral : Q) : Q := double_round numeral.

(** The values a double can take: a significand of at most 53 bits, in
    units of [2^-1074] (with the exponent unbounded above, as in
    [double_round]). *)
Definition is_double (d : Q) : Prop :=
  exists m k : Z,
    (0 <= m < 2 ^ 53)%Z /\ (0 <= k)%Z /\
    Qabs d * inject_Z (2 ^ 1074) == inject_Z (m * 2 ^ k).

(** Decimal numeral of a non-negative integer. *)
Definition decimal (n : Z) : string :=
  NilZero.string_of_uint (N.to_uint (Z.to_N n)).

Definition digit (d : Z) : ascii :=
  ascii_of_nat (48 + Z.to_nat d).

(** The [f] low-order decimal digits of [b], zero padded on the left. *)
Fixpoint frac_digits (f : nat) (b : Z) : string :=
  match f with
  | O => ""
  | S f' => frac_digits f' (b / 10) ++ String (digit (b mod 10)) ""
  end.

(** [x.toFixed(fractionDigits)] (ECMAScript, Number.prototype.toFixed) for
    magnitudes below 10^21: the sign is split off, [n] is the integer for
    which [n / 10^f - x] is closest to zero (the larger one on a tie), and
    the last [f] digits of [n] follow the decimal point. *)
Definition toFixed (x : Q) (fractionDigits : nat) : string :=
  let neg := Qgtb 0 x in
  let ax := if neg then - x else x in
  let scale := (10 ^ Z.of_nat fractionDigits)%Z in
  let n := Qfloor (ax * inject_Z scale + (1 # 2)) in
  let m := (if neg then "-" else "") ++ decimal (n / scale) in
  match fractionDigits with
  | O => m
  | S _ => m ++ "." ++ frac_digits fractionDigits (n mod scale)
  end.

(** ** Data *)

(** [{ lat, lon }] objects built by [geocode], the map click handler and
    [sampleLineString]. *)
Record LatLon := { lat : Q; lon : Q }.

(** A GeoJSON position: the array [[lon, lat]]. *)
Definition Position : Type := (Q * Q)%type.

(** The GeoJSON LineString of a route. *)
Record Geometry := { coordinates : list Position }.

(** ** [riskLevel] *)

Definition riskLevel (water : bool) (rain : Q) : string :=
  if water && Qgtb rain 10 then "High"
  else if water || Qgtb rain 5 then "Medium"
  else "Low".

(** ** [sampleLineString] *)

(** The body of [for (let i = 0; i < coords.length; i += 10)]: [fuel]
    bounds the number of iterations. *)
Fixpoint sampleLineString_for (coords : list Position) (i fuel : nat)
    (samples : list LatLon) : list LatLon :=
  match fuel with
  | O => samples
  | S fuel' =>
      match nth_error coords i with
      | Some c =>
          sampleLineString_for coords (i + 10) fuel'
            (samples ++ [{| lat := snd c; lon := fst c |}])
      | None => samples
      end
  end.

(** [spacingMeters] is accepted and never read, as in the source. *)
Definition sampleLineString (geojson : Geometry) (spacingMeters : Q)
    : list LatLon :=
  let coords := coordinates geojson in
  sampleLineString_for coords 0 (length coords) [].

Definition spacingMeters_default : Q := 300.

(** ** The outside world *)

(** What [await fetch(url)] followed by [await res.json()] can yield: the
    request is rejected (network failure), or a response arrives with its
    [ok] flag and a body that either fails to parse or parses to [A]. *)
Inductive Parsed (A : Type) : Type :=
| BadJson (message : string)
| Json (data : A).
Arguments BadJson {A} message.
Arguments Json {A} data.

Record Response (A : Type) : Type := { ok : bool; body : Parsed A }.
Arguments ok {A} r.
Arguments body {A} r.
Arguments Build_Response {A} ok body.

Inductive Fetched (A : Type) : Type :=
| Rejected (message : string)
| Resolved (res : Response A).
Arguments Rejected {A} message.
Arguments Resolved {A} res.

(** Nominatim.  What [geocode] reads of the parsed body: it is [null]; or
    the ordered array of candidates, [parseFloat] of a candidate's decimal
    strings being taken as already done; or an object that is no array,
    such as the error report [{"error": ...}], which is truthy and has
    neither a [length] nor a member [0].  (An array whose first element
    is not a candidate with numeric [lat] and [lon], for which
    [parseFloat] gives NaN, is outside the model of numbers.) *)
Inductive NominatimBody : Type :=
| JsonNull
| JsonArray (candidates : list LatLon)
| JsonObject.

(** OSRM: [{ code, routes: [{ geometry }, ...] }]. *)
Record Route := { geometry : Geometry }.
Record OsrmBody := { code : string; routes : list Route }.

(** Overpass: [{ elements }], the member possibly absent; an element is
    identified by its OSM id. *)
Record OverpassBody := { elements : option (list Z) }.

(** Open-Meteo: [{ hourly: { precipitation } }], either member possibly
    absent.  The values of the series are numbers, that is, the doubles
    that the numerals of the body denote ([Number_of]). *)
Record Hourly := { precipitation : option (list Q) }.
Record MeteoBody := { hourly : option Hourly }.

(** A Leaflet circle marker kept in [samplesMarkersRef]. *)
Record Marker := { m_lat : Q; m_lon : Q; m_color : string }.

(** Everything observable that a run does, in order: React state updates
    and exchanges with the providers (request together with the answer). *)
Inductive event : Type :=
| SetStatus (s : string)
| SetChecking (b : bool)
| SetRouteGeo (g : Geometry)
| FetchNominatim (address : string) (r : Fetched NominatimBody)
| FetchOsrm (from to : LatLon) (r : Fetched OsrmBody)
| FetchOverpass (lat lon radiusMeters : Q) (r : Fetched OverpassBody)
| FetchOpenMeteo (lat lon : Q) (r : Fetched MeteoBody)
| ImportLeaflet (rejected : option string).

(** The providers.  An answer may depend on the request and on everything
    that happened before it.  [effectRuns] is the scheduler: whether, with
    that much behind it, the pending callback of the route effect gets to
    run while the handler waits (see [awaitPending]). *)
Record Env := {
  nominatim : list event -> string -> Fetched NominatimBody;
  osrm : list event -> LatLon -> LatLon -> Fetched OsrmBody;
  overpass : list event -> Q -> Q -> Q -> Fetched OverpassBody;
  openMeteo : list event -> Q -> Q -> Fetched MeteoBody;
  leaflet : list event -> option string;
  effectRuns : list event -> bool
}.

(** The component: the [useState] cells written by a run, the two refs it
    reads, and the trace. *)
Record World := {
  status : string;
  checking : bool;
  routeGeo : option Geometry;
  mapRef : bool;
  samplesMarkers : list Marker;
  trace : list event
}.

(** The values captured by the closure of [handleCheckRoute] when the
    component rendered. *)
Record Props := {
  originAddr : string;
  destAddr : string;
  origin : option LatLon;
  dest : option LatLon
}.

(** ** Asynchronous computations *)

Inductive Completion (A : Type) : Type :=
| Normal (a : A)
| Throw (message : string).
Arguments Normal {A} a.
Arguments Throw {A} message.

Definition Async (A : Type) : Type := Env -> World -> Completion A * World.

Definition ret {A} (a : A) : Async A := fun _ w => (Normal a, w).

Definition bind {A B} (m : Async A) (k : A -> Async B) : Async B :=
  fun env w =>
    match m env w with
    | (Normal a, w') => k a env w'
    | (Throw e, w') => (Throw e, w')
    end.

Definition throw {A} (message : string) : Async A :=
  fun _ w => (Throw message, w).

Declare Scope async_scope.
Delimit Scope async_scope with async.
Notation "x <- m ;; k" := (bind m (fun x => k))
  (at level 61, m at next level, right associativity) : async_scope.
Notation "m ;; k" := (bind m (fun _ => k))
  (at level 61, right associativity) : async_scope.
Local Open Scope async_scope.

(** [try { body } catch (e) { handler(e) }]. *)
Definition tryCatch {A} (tryBlock : Async A) (handler : string -> Async A)
    : Async A :=
  fun env w =>
    match tryBlock env w with
    | (Normal a, w') => (Normal a, w')
    | (Throw e, w') => handler e env w'
    end.

(** [try { body } finally { fin }]: the finaliser runs on both exits and
    the completion of the body is kept unless the finaliser throws. *)
Definition tryFinally {A} (tryBlock : Async A) (finalizer : Async unit)
    : Async A :=
  fun env w =>
    let (c, w') := tryBlock env w in
    match finalizer env w' with
    | (Normal _, w'') => (c, w'')
    | (Throw e, w'') => (Throw e, w'')
    end.

Definition emit (e : event) (w : World) : list event := trace w ++ [e].

Definition setStatus (s : string) : Async unit := fun _ w =>
  (Normal tt,
   {| status := s; checking := checking w; routeGeo := routeGeo w;
      mapRef := mapRef w; samplesMarkers := samplesMarkers w;
      trace := emit (SetStatus s) w |}).

Definition setChecking (b : bool) : Async unit := fun _ w =>
  (Normal tt,
   {| status := status w; checking := b; routeGeo := routeGeo w;
      mapRef := mapRef w; samplesMarkers := samplesMarkers w;
      trace := emit (SetChecking b) w |}).

(** [setRouteGeo(geometry)] writes the cell; React renders and runs the
    route effect later, and the effect's callback later still
    ([awaitPending]). *)
Definition setRouteGeo (g : Geometry) : Async unit := fun _ w =>
  (Normal tt,
   {| status := status w; checking := checking w; routeGeo := Some g;
      mapRef := mapRef w; samplesMarkers := samplesMarkers w;
      trace := emit (SetRouteGeo g) w |}).

Definition record (e : event) (w : World) : World :=
  {| status := status w; checking := checking w; routeGeo := routeGeo w;
     mapRef := mapRef w; samplesMarkers := samplesMarkers w;
     trace := emit e w |}.

Definition setMarkers (ms : list Marker) : Async unit := fun _ w =>
  (Normal tt,
   {| status := status w; checking := checking w; routeGeo := routeGeo w;
      mapRef := mapRef w; samplesMarkers := ms; trace := trace w |}).

Definition getMarkers : Async (list Marker) := fun _ w =>
  (Normal (samplesMarkers w), w).

(** [await fetch(url)]: the exchange is recorded; a rejection throws. *)
Definition awaitFetch {A} (ask : Env -> list event -> Fetched A)
    (ev : Fetched A -> event) : Async (Response A) :=
  fun env w =>
    let r := ask env (trace w) in
    match r with
    | Rejected msg => (Throw msg, record (ev r) w)
    | Resolved res => (Normal res, record (ev r) w)
    end.

(** [await res.json()]. *)
Definition json {A} (res : Response A) : Async A :=
  match body res with
  | BadJson msg => throw msg
  | Json data => ret data
  end.

(** [(await import("leaflet")).default]. *)
Definition importLeaflet : Async unit := fun env w =>
  let r := leaflet env (trace w) in
  match r with
  | Some msg => (Throw msg, record (ImportLeaflet r) w)
  | None => (Normal tt, record (ImportLeaflet r) w)
  end.

(** ** [geocode] *)

Definition geocode (address : string) : Async (option LatLon) :=
  res <- awaitFetch (fun env h => nominatim env h address)
           (FetchNominatim address) ;;
  data <- json res ;;
  match data with
  | JsonNull => ret None                (* !data *)
  | JsonArray [] => ret None            (* data.length === 0 *)
  | JsonArray (first :: _) => ret (Some first)
  | JsonObject =>                       (* data[0] is undefined *)
      throw "Cannot read properties of undefined (reading 'lat')"
  end.

(** ** [getRoute] *)

Definition getRoute (from to : LatLon) : Async Geometry :=
  res <- awaitFetch (fun env h => osrm env h from to) (FetchOsrm from to) ;;
  data <- json res ;;
  if String.eqb (code data) "Ok" then
    match routes data with
    | first :: _ => ret (geometry first)
    | [] => throw "Cannot read properties of undefined (reading 'geometry')"
    end
  else throw "No route found".

(** ** [checkWaterAroundPoint] *)

(** The values the function can return: [true], [false], or [undefined]
    when the body has no [elements] member ([undefined && ...]). *)
Inductive JsBool : Type :=
| JsUndefined
| JsBoolean (b : bool).

Definition truthy (v : JsBool) : bool :=
  match v with
  | JsUndefined => false
  | JsBoolean b => b
  end.

Definition radiusMeters_default : Q := 60.

Definition checkWaterAroundPoint (lat lon radiusMeters : Q) : Async JsBool :=
  res <- awaitFetch (fun env h => overpass env h lat lon radiusMeters)
           (FetchOverpass lat lon radiusMeters) ;;
  if negb (ok res) then ret (JsBoolean false)
  else
    data <- json res ;;
    match elements data with
    | None => ret JsUndefined
    | Some els => ret (JsBoolean (0 <? length els)%nat)
    end.

(** ** [fetchPrecipitationLastHours] *)

(** [xs.slice(-n)]: the elements from index [max (length - n) 0] on. *)
Definition slice_last {A} (n : nat) (xs : list A) : list A :=
  skipn (length xs - n) xs.

(** [xs.reduce((a, b) => a + b, 0)]. *)
Definition reduce_sum (xs : list Q) : Q := fold_left Number_add xs 0.

Definition fetchPrecipitationLastHours (lat lon : Q) : Async Q :=
  tryCatch
    (res <- awaitFetch (fun env h => openMeteo env h lat lon)
              (FetchOpenMeteo lat lon) ;;
     data <- json res ;;
     match hourly data with
     | None => ret 0
     | Some h =>
         match precipitation h with
         | None => throw "Cannot read properties of undefined (reading 'slice')"
         | Some series =>
             let prec := slice_last 3 series in
             ret (reduce_sum prec)
         end
     end)
    (fun _ => ret 0).

(** ** [handleCheckRoute] *)

(** [pinned || (await alt)] on a value that is [null] or an object. *)
Definition pinnedOr (pinned : option LatLon) (alt : Async (option LatLon))
    : Async (option LatLon) :=
  match pinned with
  | Some c => ret (Some c)
  | None => alt
  end.

(** The callback of the route effect (lines 55-65), as far as the state it
    shares with the handler goes: it removes the sample markers from the
    map and puts an empty array into [samplesMarkersRef] (the polyline it
    then draws is [polylineCoords]). *)
Definition routeEffect (w : World) : World :=
  {| status := status w; checking := checking w; routeGeo := routeGeo w;
     mapRef := mapRef w; samplesMarkers := []; trace := trace w |}.

(** [await m] in the handler once it has called [setRouteGeo].  React then
    renders, runs the route effect, and the effect's callback is queued
    when the effect's own import of Leaflet resolves.  The callback cannot
    interrupt the handler; it runs, if it is due, while the handler waits
    (or after the run).  Whether it is due at this [await] is for the
    scheduler to say.  Before [setRouteGeo] no callback is pending: one
    left by an earlier run is taken to have run when this run starts. *)
Definition awaitPending {A} (m : Async A) : Async A := fun env w =>
  m env (if effectRuns env (trace w) then routeEffect w else w).

(** [mapRef.current], abstracted to whether the map has been mounted (the
    ref holds [null] until then). *)
Definition getMap : Async bool := fun _ w => (Normal (mapRef w), w).

(** [L.circleMarker([p.lat, p.lon], { radius: 5 }).addTo(map)] followed by
    [samplesMarkersRef.current.push(marker)]; [addTo] dereferences [map]. *)
Definition addMarker (map : bool) (p : LatLon) : Async unit :=
  if map then
    ms <- getMarkers ;;
    setMarkers (ms ++
                [{| m_lat := lat p; m_lon := lon p; m_color := "#3388ff" |}])
  else throw "Cannot read properties of null (reading 'addLayer')".

(** [marker.setStyle({ color })] on the marker of the current sample, which
    is the object pushed last onto [samplesMarkersRef.current]. *)
Definition restyle (color : string) (ms : list Marker) : list Marker :=
  match rev ms with
  | [] => []
  | m :: before =>
      rev before ++ [{| m_lat := m_lat m; m_lon := m_lon m; m_color := color |}]
  end.

Definition setStyle (color : string) : Async unit :=
  ms <- getMarkers ;; setMarkers (restyle color ms).

(** [for (const p of samples) { ... }] with the two accumulators. *)
Fixpoint forSamples (map : bool) (samples : list LatLon)
    (waterDetected : bool) (maxRain : Q) : Async (bool * Q) :=
  match samples with
  | [] => ret (waterDetected, maxRain)
  | p :: rest =>
      addMarker map p ;;
      hasWater <- awaitPending
                    (checkWaterAroundPoint (lat p) (lon p)
                       radiusMeters_default) ;;
      waterDetected <-
        (if truthy hasWater then setStyle "#1e88e5" ;; ret true
         else ret waterDetected) ;;
      rain <- awaitPending (fetchPrecipitationLastHours (lat p) (lon p)) ;;
      let maxRain := Math_max maxRain rain in
      (if Qgtb rain 10 then setStyle "#d32f2f"
       else if Qgtb rain 5 then setStyle "#f57c00"
       else ret tt) ;;
      forSamples map rest waterDetected maxRain
  end.

(** The template literal published after the loop. *)
Definition finalStatus (risk : string) (waterDetected : bool) (maxRain : Q)
    : string :=
  "Risk Level: " ++ risk ++ ". Mapped water: " ++
  (if waterDetected then "Yes" else "No") ++
  ", Rain (last 3h): " ++ toFixed maxRain 1 ++ " mm".

(** The statements of the [try] block. *)
Definition handleCheckRoute_try (props : Props) : Async unit :=
  setStatus "" ;;
  setChecking true ;;
  from <- pinnedOr (origin props) (geocode (originAddr props)) ;;
  to <- pinnedOr (dest props) (geocode (destAddr props)) ;;
  match from, to with
  | Some from, Some to =>
      setStatus "Getting route..." ;;
      geometry <- getRoute from to ;;
      setRouteGeo geometry ;;
      setStatus "Checking water and rainfall..." ;;
      let samples := sampleLineString geometry spacingMeters_default in
      awaitPending importLeaflet ;;
      map <- getMap ;;
      setMarkers [] ;;
      acc <- forSamples map samples false 0 ;;
      let waterDetected := fst acc in
      let maxRain := snd acc in
      let risk := riskLevel waterDetected maxRain in
      setStatus (finalStatus risk waterDetected maxRain)
  | _, _ => throw "Invalid locations"
  end.

Definition handleCheckRoute (props : Props) : Async unit :=
  tryFinally
    (tryCatch (handleCheckRoute_try props)
       (fun message => setStatus ("Error: " ++ message)))
    (setChecking false).


(** ** Run states

    The source keeps no run-state variable; the state of the pipeline is
    read off the [checking] flag and the status text it publishes
    (the view renders [status || "Idle"]). *)
Inductive RunState : Type :=
| Idle | ResolvingLocations | FetchingRoute | Sampling | Error | Done.

Definition runState (w : World) : RunState :=
  if prefix "Error: " (status w) then Error
  else if prefix "Risk Level: " (status w) then Done
  else if String.eqb (status w) "Getting route..." then FetchingRoute
  else if String.eqb (status w) "Checking water and rainfall..." then Sampling
  else if checking w then ResolvingLocations
  else Idle.

(** The world a computation leaves behind. *)
Definition exec {A} (m : Async A) (env : Env) (w : World) : World :=
  snd (m env w).

(** Classification of events. *)
Definition is_route_call (e : event) : bool :=
  match e with FetchOsrm _ _ _ => true | _ => false end.
Definition is_water_call (e : event) : bool :=
  match e with FetchOverpass _ _ _ _ => true | _ => false end.
Definition is_rain_call (e : event) : bool :=
  match e with FetchOpenMeteo _ _ _ => true | _ => false end.
Definition is_geocode_call (e : event) : bool :=
  match e with FetchNominatim _ _ => true | _ => false end.

(** ** Reading answers and traces *)

(** The position [[lon, lat]] as the [{ lon, lat }] object a sample is. *)
Definition sample_of (c : Position) : LatLon :=
  {| lat := snd c; lon := fst c |}.

(** The query result set carried by an Overpass answer, when there is one. *)
Definition result_set (r : Fetched OverpassBody) : option (list Z) :=
  match r with
  | Resolved res =>
      if ok res then
        match body res with
        | Json data => elements data
        | BadJson _ => None
        end
      else None
  | Rejected _ => None
  end.

Definition water_of (r : Fetched OverpassBody) : bool :=
  match result_set r with
  | Some (_ :: _) => true
  | _ => false
  end.

(** The hourly precipitation series carried by an Open-Meteo answer;
    [None] covers a rejected request, an unparsable body and a body
    without the series. *)
Definition meteo_series (r : Fetched MeteoBody) : option (list Q) :=
  match r with
  | Resolved res =>
      match body res with
      | Json data =>
          match hourly data with
          | Some h => precipitation h
          | None => None
          end
      | BadJson _ => None
      end
  | Rejected _ => None
  end.

(** The last three values of a series, oldest first. *)
Definition last3 (series : list Q) : list Q :=
  match rev series with
  | c :: b :: a :: _ => [a; b; c]
  | [b; a] => [a; b]
  | [a] => [a]
  | [] => []
  end.

Definition water_seen (evs : list event) : bool :=
  existsb (fun e => match e with
                    | FetchOverpass _ _ _ r => water_of r
                    | _ => false
                    end) evs.

Definition rain_of (r : Fetched MeteoBody) : Q :=
  match meteo_series r with
  | Some series => reduce_sum (slice_last 3 series)
  | None => 0
  end.

Definition rain_seen_from (m0 : Q) (evs : list event) : Q :=
  fold_left (fun m e => match e with
                        | FetchOpenMeteo _ _ r => Math_max m (rain_of r)
                        | _ => m
                        end) evs m0.


(** Replaying the [setChecking] calls of a trace on the flag. *)
Definition replay_checking (b0 : bool) (evs : list event) : bool :=
  fold_left (fun b e => match e with SetChecking b' => b' | _ => b end) evs b0.

Definition is_setChecking (e : event) : bool :=
  match e with SetChecking _ => true | _ => false end.

(** A geocoding answer without candidate: [null] or the empty list. *)
Definition zero_candidates (r : Fetched NominatimBody) : bool :=
  match r with
  | Resolved res =>
      match body res with
      | Json JsonNull | Json (JsonArray []) => true
      | _ => false
      end
  | Rejected _ => false
  end.

(** A geocoding answer with at least one candidate. *)
Definition first_candidate (r : Fetched NominatimBody) : option LatLon :=
  match r with
  | Resolved res =>
      match body res with
      | Json (JsonArray (first :: _)) => Some first
      | _ => None
      end
  | Rejected _ => None
  end.

(** A routing answer with status [Ok] and at least one route. *)
Definition first_route (r : Fetched OsrmBody) : option Geometry :=
  match r with
  | Resolved res =>
      match body res with
      | Json data =>
          if String.eqb (code data) "Ok" then
            match routes data with
            | first :: _ => Some (geometry first)
            | [] => None
            end
          else None
      | BadJson _ => None
      end
  | Rejected _ => None
  end.

(** A non-success HTTP response. *)
Definition non_success {A} (r : Fetched A) : bool :=
  match r with
  | Resolved res => negb (ok res)
  | Rejected _ => false
  end.

Definition is_digit (c : ascii) : bool :=
  let n := nat_of_ascii c in ((48 <=? n) && (n <=? 57))%nat.

Definition replay_status (s0 : string) (evs : list event) : string :=
  fold_left (fun s e => match e with SetStatus s' => s' | _ => s end) evs s0.

(** The answer carried by a network event is the one the environment gives
    to that request at some point of the history. *)
Definition from_env (env : Env) (e : event) : Prop :=
  match e with
  | FetchNominatim address r => exists h, r = nominatim env h address
  | FetchOsrm from to r => exists h, r = osrm env h from to
  | FetchOverpass lat lon radiusMeters r =>
      exists h, r = overpass env h lat lon radiusMeters
  | FetchOpenMeteo lat lon r => exists h, r = openMeteo env h lat lon
  | ImportLeaflet r => exists h, r = leaflet env h
  | _ => True
  end.

(** [w'] is [w] after the events [evs]: the trace grew by [evs], the flag
    and the status text are what replaying [evs] makes of them, and the
    map ref did not change. *)
Definition extends (w w' : World) (evs : list event) : Prop :=
  trace w' = (trace w ++ evs)%list /\
  checking w' = replay_checking (checking w) evs /\
  status w' = replay_status (status w) evs /\
  mapRef w' = mapRef w.

(** Running [m] from [w] appends events [evs] and completes with [c] such
    that [Q c evs]. *)
Definition triple {A} (m : Async A) (env : Env) (w : World)
    (Q : Completion A -> list event -> Prop) : Prop :=
  exists evs, extends w (snd (m env w)) evs /\ Forall (from_env env) evs /\
              Q (fst (m env w)) evs.

(** An Overpass answer on which [checkWaterAroundPoint] throws: a rejected
    request, or a success response whose body does not parse. *)
Definition water_hard_failure (r : Fetched OverpassBody) : bool :=
  match r with
  | Rejected _ => true
  | Resolved res =>
      ok res && match body res with BadJson _ => true | Json _ => false end
  end.

(** ** The shapes of a run

    The traces the handler can leave, phase by phase.  The relations below
    only name shapes; that every execution has one of them is proved from
    the definitions above ([forSamples_run], [handleCheckRoute_try_run]). *)

Definition is_sample_call (e : event) : bool :=
  is_water_call e || is_rain_call e.

(** The loop over the samples, started with accumulators [wd] and [mr]. *)
Inductive loop_run (map : bool)
  : list LatLon -> bool -> Q -> Completion (bool * Q) -> list event -> Prop :=
| loop_done (wd : bool) (mr : Q) :
    loop_run map [] wd mr (Normal (wd, mr)) []
| loop_no_map (p : LatLon) (rest : list LatLon) (wd : bool) (mr : Q)
    (msg : string) :
    map = false ->
    loop_run map (p :: rest) wd mr (Throw msg) []
| loop_water_throws (p : LatLon) (rest : list LatLon) (wd : bool) (mr : Q)
    (r : Fetched OverpassBody) (msg : string) :
    map = true ->
    water_hard_failure r = true ->
    loop_run map (p :: rest) wd mr (Throw msg)
      [FetchOverpass (lat p) (lon p) radiusMeters_default r]
| loop_next (p : LatLon) (rest : list LatLon) (wd : bool) (mr : Q)
    (r : Fetched OverpassBody) (r' : Fetched MeteoBody)
    (c : Completion (bool * Q)) (evs : list event) :
    map = true ->
    water_hard_failure r = false ->
    loop_run map rest (water_of r || wd) (Math_max mr (rain_of r')) c evs ->
    loop_run map (p :: rest) wd mr c
      (FetchOverpass (lat p) (lon p) radiusMeters_default r ::
       FetchOpenMeteo (lat p) (lon p) r' :: evs).

(** [pinned || (await geocode(address))]. *)
Inductive resolved (pinned : option LatLon) (address : string)
  : Completion (option LatLon) -> list event -> Prop :=
| resolved_pinned (p : LatLon) :
    pinned = Some p ->
    resolved pinned address (Normal (Some p)) []
| resolved_found (r : Fetched NominatimBody) (p : LatLon) :
    pinned = None ->
    first_candidate r = Some p ->
    resolved pinned address (Normal (Some p)) [FetchNominatim address r]
| resolved_not_found (r : Fetched NominatimBody) :
    pinned = None ->
    zero_candidates r = true ->
    resolved pinned address (Normal None) [FetchNominatim address r]
| resolved_throws (r : Fetched NominatimBody) (msg : string) :
    pinned = None ->
    zero_candidates r = false ->
    first_candidate r = None ->
    resolved pinned address (Throw msg) [FetchNominatim address r].

(** From the routing request to the end of the [try] block. *)
Inductive route_run (map : bool) (from to : LatLon)
  : Completion unit -> list event -> Prop :=
| route_throws (r : Fetched OsrmBody) (msg : string) :
    first_route r = None ->
    route_run map from to (Throw msg) [FetchOsrm from to r]
| route_leaflet_throws (r : Fetched OsrmBody) (g : Geometry) (msg : string) :
    first_route r = Some g ->
    route_run map from to (Throw msg)
      [FetchOsrm from to r; SetRouteGeo g;
       SetStatus "Checking water and rainfall...";
       ImportLeaflet (Some msg)]
| route_loop_throws (r : Fetched OsrmBody) (g : Geometry) (msg : string)
    (evs : list event) :
    first_route r = Some g ->
    loop_run map (sampleLineString g spacingMeters_default) false 0
      (Throw msg) evs ->
    route_run map from to (Throw msg)
      ([FetchOsrm from to r; SetRouteGeo g;
        SetStatus "Checking water and rainfall...";
        ImportLeaflet None] ++ evs)
| route_done (r : Fetched OsrmBody) (g : Geometry) (wd : bool) (mr : Q)
    (evs : list event) :
    first_route r = Some g ->
    loop_run map (sampleLineString g spacingMeters_default) false 0
      (Normal (wd, mr)) evs ->
    route_run map from to (Normal tt)
      ([FetchOsrm from to r; SetRouteGeo g;
        SetStatus "Checking water and rainfall...";
        ImportLeaflet None] ++ evs ++
       [SetStatus (finalStatus (riskLevel wd mr) wd mr)]).

(** The [try] block. *)
Inductive try_run (props : Props) (map : bool)
  : Completion unit -> list event -> Prop :=
| try_origin_throws (msg : string) (evsA : list event) :
    resolved (origin props) (originAddr props) (Throw msg) evsA ->
    try_run props map (Throw msg)
      ([SetStatus ""; SetChecking true] ++ evsA)
| try_dest_throws (from : option LatLon) (msg : string)
    (evsA evsB : list event) :
    resolved (origin props) (originAddr props) (Normal from) evsA ->
    resolved (dest props) (destAddr props) (Throw msg) evsB ->
    try_run props map (Throw msg)
      ([SetStatus ""; SetChecking true] ++ evsA ++ evsB)
| try_invalid (from to : option LatLon) (evsA evsB : list event) :
    resolved (origin props) (originAddr props) (Normal from) evsA ->
    resolved (dest props) (destAddr props) (Normal to) evsB ->
    from = None \/ to = None ->
    try_run props map (Throw "Invalid locations")
      ([SetStatus ""; SetChecking true] ++ evsA ++ evsB)
| try_routed (from to : LatLon) (evsA evsB evs : list event)
    (c : Completion unit) :
    resolved (origin props) (originAddr props) (Normal (Some from)) evsA ->
    resolved (dest props) (destAddr props) (Normal (Some to)) evsB ->
    route_run map from to c evs ->
    try_run props map c
      ([SetStatus ""; SetChecking true] ++ evsA ++ evsB ++
       SetStatus "Getting route..." :: evs).

(** The whole handler: the [catch] clause publishes the error, the
    [finally] clause lowers the flag. *)
Inductive handler_run (props : Props) (map : bool) : list event -> Prop :=
| handler_done (evs : list event) :
    try_run props map (Normal tt) evs ->
    handler_run props map (evs ++ [SetChecking false])
| handler_error (msg : string) (evs : list event) :
    try_run props map (Throw msg) evs ->
    handler_run props map
      (evs ++ [SetStatus ("Error: " ++ msg); SetChecking false]).

(** ** Conditions on the environment of a run *)

(** The endpoint resolves: it is pinned, or the geocoder answers its
    address with at least one candidate. *)
Definition endpoint_resolves (env : Env) (pinned : option LatLon)
    (address : string) : Prop :=
  pinned <> None \/
  forall h, first_candidate (nominatim env h address) <> None.

(** The routing service answers every request with a route. *)
Definition route_succeeds (env : Env) : Prop :=
  forall h from to, first_route (osrm env h from to) <> None.

(** The routing service answers every request with the path [g]. *)
Definition route_is (env : Env) (g : Geometry) : Prop :=
  forall h from to, first_route (osrm env h from to) = Some g.

(** The rendering surface works: the map has been mounted and the Leaflet
    bundle loads. *)
Definition surface_ready (env : Env) (w : World) : Prop :=
  mapRef w = true /\ forall h, leaflet env h = None.

(** Every water check fails soft: a non-success HTTP response. *)
Definition water_fails_soft (env : Env) : Prop :=
  forall h lat lon radius, non_success (overpass env h lat lon radius) = true.

(** Every rain check fails soft: the exchange yields no series. *)
Definition rain_fails_soft (env : Env) : Prop :=
  forall h lat lon, meteo_series (openMeteo env h lat lon) = None.

(** ** A concrete run

    Origin "A" and destination "B" are typed, not pinned; the geocoder
    finds both, the route has five vertices, the one sample lies by a
    water feature and has seen 12 mm of rain in the last three hours. *)
Definition demo_props : Props :=
  {| originAddr := "A"; destAddr := "B"; origin := None; dest := None |}.

Definition demo_path : Geometry :=
  {| coordinates := [(77, 28); (78, 28); (78, 29); (79, 29); (79, 30)] |}.

Definition demo_env : Env :=
  {| nominatim := fun _ address =>
       Resolved {| ok := true;
                   body := Json (JsonArray [{| lat := 28; lon := 77 |}]) |};
     osrm := fun _ _ _ =>
       Resolved {| ok := true;
                   body := Json {| code := "Ok";
                                   routes := [{| geometry := demo_path |}] |} |};
     overpass := fun _ _ _ _ =>
       Resolved {| ok := true; body := Json {| elements := Some [4711%Z] |} |};
     openMeteo := fun _ _ _ =>
       Resolved {| ok := true;
                   body := Json {| hourly :=
                     Some {| precipitation := Some [0; 1; 3; 4; 5] |} |} |};
     leaflet := fun _ => None;
     effectRuns := fun _ => false |}.

Definition demo_world : World :=
  {| status := ""; checking := false; routeGeo := None; mapRef := true;
     samplesMarkers := []; trace := [] |}.

(** The component before its map is mounted: [mapRef] still holds
    [null]. *)
Definition unmounted_world : World :=
  {| status := ""; checking := false; routeGeo := None; mapRef := false;
     samplesMarkers := []; trace := [] |}.

(** The same providers, except that no address is ever found. *)
Definition nowhere_env : Env :=
  {| nominatim := fun _ _ =>
       Resolved {| ok := true; body := Json (JsonArray []) |};
     osrm := osrm demo_env;
     overpass := overpass demo_env;
     openMeteo := openMeteo demo_env;
     leaflet := leaflet demo_env;
     effectRuns := effectRuns demo_env |}.

(** The same providers, except that every water and rain check fails. *)
Definition failing_checks_env : Env :=
  {| nominatim := nominatim demo_env;
     osrm := osrm demo_env;
     overpass := fun _ _ _ _ =>
       Resolved {| ok := false; body := BadJson "Unexpected token <" |};
     openMeteo := fun _ _ _ => Rejected "Failed to fetch";
     leaflet := leaflet demo_env;
     effectRuns := effectRuns demo_env |}.

(** The same as [failing_checks_env], except that the Leaflet bundle does
    not load. *)
Definition no_leaflet_env : Env :=
  {| nominatim := nominatim demo_env;
     osrm := osrm demo_env;
     overpass := overpass failing_checks_env;
     openMeteo := openMeteo failing_checks_env;
     leaflet := fun _ => Some "Failed to fetch dynamically imported module";
     effectRuns := effectRuns demo_env |}.

(** The same providers, except that no water feature is ever found and
    every rain check is answered with the hourly series [series]. *)
Definition rain_env (series : list Q) : Env :=
  {| nominatim := nominatim demo_env;
     osrm := osrm demo_env;
     overpass := fun _ _ _ _ =>
       Resolved {| ok := true; body := Json {| elements := Some [] |} |};
     openMeteo := fun _ _ _ =>
       Resolved {| ok := true;
                   body := Json {| hourly :=
                     Some {| precipitation := Some series |} |} |};
     leaflet := leaflet demo_env;
     effectRuns := effectRuns demo_env |}.

(** A path of eleven vertices along the 28th parallel: two samples, its
    first vertex and its last. *)
Definition long_path : Geometry :=
  {| coordinates :=
       map (fun i => (inject_Z (77 + Z.of_nat i), 28)) (seq 0 11) |}.

(** The demonstration providers with that path, and a scheduler that runs
    the callback of the route effect as early as it can: at the first
    [await] of the loop, the one that follows the import of Leaflet. *)
Definition eager_effect_env : Env :=
  {| nominatim := nominatim demo_env;
     osrm := fun _ _ _ =>
       Resolved {| ok := true;
                   body := Json {| code := "Ok";
                                   routes := [{| geometry := long_path |}] |} |};
     overpass := overpass demo_env;
     openMeteo := openMeteo demo_env;
     leaflet := leaflet demo_env;
     effectRuns := fun h =>
       match rev h with
       | ImportLeaflet _ :: _ => true
       | _ => false
       end |}.

(** Both endpoints pinned on the map. *)
Definition pinned_props : Props :=
  {| originAddr := "Lat 28.00000, Lon 77.00000";
     destAddr := "Lat 30.00000, Lon 79.00000";
     origin := Some {| lat := 28; lon := 77 |};
     dest := Some {| lat := 30; lon := 79 |} |}.

(** ** The rest of the component *)

(** The text the map click handler writes into an address field:
    [`Lat ${lat.toFixed(5)}, Lon ${lng.toFixed(5)}`]. *)
Definition latLonLabel (lat lng : Q) : string :=
  "Lat " ++ toFixed lat 5 ++ ", Lon " ++ toFixed lng 5.

(** The handler of [map.on("click", ...)]: [choice] is the answer given to
    [window.confirm] (OK for the origin, Cancel for the destination) and
    [lat], [lng] are [e.latlng.lat], [e.latlng.lng].  The four [useState]
    cells it writes are the ones [handleCheckRoute] reads. *)
Definition onMapClick (choice : bool) (lat lng : Q) (props : Props) : Props :=
  if choice then
    {| originAddr := latLonLabel lat lng;
       destAddr := destAddr props;
       origin := Some {| lat := lat; lon := lng |};
       dest := dest props |}
  else
    {| originAddr := originAddr props;
       destAddr := latLonLabel lat lng;
       origin := origin props;
       dest := Some {| lat := lat; lon := lng |} |}.

(** [onChange={(e) => setOriginAddr(e.target.value)}] and its twin. *)
Definition onChangeOriginAddr (value : string) (props : Props) : Props :=
  {| originAddr := value; destAddr := destAddr props;
     origin := origin props; dest := dest props |}.

Definition onChangeDestAddr (value : string) (props : Props) : Props :=
  {| originAddr := originAddr props; destAddr := value;
     origin := origin props; dest := dest props |}.

(** What the user can do to the four cells between two runs. *)
Inductive UiEvent : Type :=
| MapClick (choice : bool) (lat lng : Q)
| OriginInput (value : string)
| DestInput (value : string).

Definition ui_step (props : Props) (e : UiEvent) : Props :=
  match e with
  | MapClick choice lat lng => onMapClick choice lat lng props
  | OriginInput value => onChangeOriginAddr value props
  | DestInput value => onChangeDestAddr value props
  end.

Definition ui_steps (props : Props) (es : list UiEvent) : Props :=
  fold_left ui_step es props.

(** The route effect draws [routeGeo.coordinates.map((c) => [c[1], c[0]])]:
    Leaflet wants latitude first. *)
Definition polylineCoords (routeGeo : Geometry) : list (Q * Q) :=
  map (fun c => (snd c, fst c)) (coordinates routeGeo).

(** Where a marker was put: the array [[p.lat, p.lon]] given to
    [L.circleMarker]. *)
Definition marker_position (m : Marker) : Q * Q := (m_lat m, m_lon m).

(** ** Further readings of traces *)

(** Low, Medium, High in increasing order. *)
Definition risk_rank (risk : string) : nat :=
  if String.eqb risk "High" then 2
  else if String.eqb risk "Medium" then 1
  else 0.

(** The requests of the sampling loop, without the answers. *)
Inductive SampleRequest : Type :=
| WaterRequest (lat lon radiusMeters : Q)
| RainRequest (lat lon : Q).

Definition sample_requests (evs : list event) : list SampleRequest :=
  flat_map (fun e => match e with
                     | FetchOverpass la lo ra _ => [WaterRequest la lo ra]
                     | FetchOpenMeteo la lo _ => [RainRequest la lo]
                     | _ => []
                     end) evs.

(** One water request then one rain request per sample, in order. *)
Definition requests_for (samples : list LatLon) : list SampleRequest :=
  flat_map (fun p => [WaterRequest (lat p) (lon p) radiusMeters_default;
                      RainRequest (lat p) (lon p)]) samples.

(** The status texts a trace publishes, in order. *)
Definition statuses (evs : list event) : list string :=
  flat_map (fun e => match e with SetStatus s => [s] | _ => [] end) evs.

(** The colour a marker ends with, given the findings at its sample: the
    rain colours are applied after the water colour. *)
Definition marker_color (water : bool) (rain : Q) : string :=
  if Qgtb rain 10 then "#d32f2f"
  else if Qgtb rain 5 then "#f57c00"
  else if water then "#1e88e5"
  else "#3388ff".

(** The markers of the samples whose two exchanges a loop trace holds. *)
Fixpoint markers_of (evs : list event) : list Marker :=
  match evs with
  | FetchOverpass la lo _ r :: FetchOpenMeteo _ _ r' :: rest =>
      {| m_lat := la; m_lon := lo;
         m_color := marker_color (water_of r) (rain_of r') |} :: markers_of rest
  | _ => []
  end.

(** An endpoint whose resolution completes: it is pinned, or the geocoder's
    answer to its address always parses (with or without candidates). *)
Definition endpoint_completes (env : Env) (pinned : option LatLon)
    (address : string) : Prop :=
  pinned <> None \/
  forall h, zero_candidates (nominatim env h address) = true \/
            first_candidate (nominatim env h address) <> None.

(** An endpoint that cannot be resolved: not pinned and never found. *)
Definition endpoint_not_found (env : Env) (pinned : option LatLon)
    (address : string) : Prop :=
  pinned = None /\
  forall h, zero_candidates (nominatim env h address) = true.

(** The same answer with another HTTP status. *)
Definition with_ok {A} (b : bool) (r : Fetched A) : Fetched A :=
  match r with
  | Rejected msg => Rejected msg
  | Resolved res => Resolved {| ok := b; body := body res |}
  end.

(** A text made of decimal digits only. *)
Fixpoint all_digits (s : string) : bool :=
  match s with
  | EmptyString => true
  | String c rest => is_digit c && all_digits rest
  end.

(** What the map shows (the stored route and the sample markers) is the
    same in [w'] as in [w]. *)
Definition same_display (w w' : World) : Prop :=
  routeGeo w' = routeGeo w /\ samplesMarkers w' = samplesMarkers w.

(** * Properties *)

Local Open Scope list_scope.

(** ** Numbers *)

Lemma Qgtb_true (x y : Q) : Qgtb x y = true <-> y < x.
Proof.
  unfold Qgtb. rewrite negb_true_iff. split.
  - intros H. apply Qnot_le_lt. intros Hle.
    apply Qle_bool_iff in Hle. congruence.
  - intros H. destruct (Qle_bool x y) eqn:E; [| reflexivity].
    apply Qle_bool_iff in E. exfalso. exact (Qlt_not_le _ _ H E).
Qed.

Lemma Qgtb_false (x y : Q) : Qgtb x y = false <-> x <= y.
Proof.
  unfold Qgtb. rewrite negb_false_iff. apply Qle_bool_iff.
Qed.

Lemma Qgtb_comp (x x' y y' : Q) :
  x == x' -> y == y' -> Qgtb x y = Qgtb x' y'.
Proof.
  intros Hx Hy. unfold Qgtb. now rewrite Hx, Hy.
Qed.

(** *** Rounding to the nearest integer *)

Lemma Qabs_le_iff (x y : Q) : Qabs x <= y <-> - y <= x /\ x <= y.
Proof. apply Qabs_Qle_condition. Qed.

Lemma Qabs_ge_l (x y : Q) : y <= x -> y <= Qabs x.
Proof. intros H. eapply Qle_trans; [exact H | apply Qle_Qabs]. Qed.

Lemma Qabs_ge_r (x y : Q) : y <= - x -> y <= Qabs x.
Proof.
  intros H. rewrite <- Qabs_opp. eapply Qle_trans; [exact H | apply Qle_Qabs].
Qed.

Lemma round_half_even_floor (y : Q) :
  round_half_even y = Qfloor y \/ round_half_even y = (Qfloor y + 1)%Z.
Proof.
  unfold round_half_even.
  destruct (Qcompare _ _); [destruct (Z.even _) | |]; auto.
Qed.

Lemma round_half_even_close (y : Q) :
  Qabs (y - inject_Z (round_half_even y)) <= 1 # 2.
Proof.
  unfold round_half_even.
  pose proof (Qfloor_le y) as Hlo. pose proof (Qlt_floor y) as Hhi.
  rewrite inject_Z_plus in Hhi. change (inject_Z 1) with 1 in Hhi.
  destruct (Qcompare (y - inject_Z (Qfloor y)) (1 # 2)) eqn:E.
  - apply Qeq_alt in E. destruct (Z.even (Qfloor y));
      rewrite ?inject_Z_plus; change (inject_Z 1) with 1;
      apply Qabs_le_iff; split; lra.
  - apply Qlt_alt in E. apply Qabs_le_iff; split; lra.
  - apply Qgt_alt in E. rewrite inject_Z_plus. change (inject_Z 1) with 1.
    apply Qabs_le_iff; split; lra.
Qed.

Lemma integers_apart (a b : Z) :
  a <> b -> 1 <= Qabs (inject_Z a - inject_Z b).
Proof.
  intros Hab.
  destruct (Z.lt_total a b) as [Hlt | [Heq | Hgt]]; [| contradiction |].
  - apply Qabs_ge_r.
    assert (H : inject_Z (a + 1) <= inject_Z b) by (rewrite <- Zle_Qle; lia).
    rewrite inject_Z_plus in H. change (inject_Z 1) with 1 in H. lra.
  - apply Qabs_ge_l.
    assert (H : inject_Z (b + 1) <= inject_Z a) by (rewrite <- Zle_Qle; lia).
    rewrite inject_Z_plus in H. change (inject_Z 1) with 1 in H. lra.
Qed.

Lemma far_from_other_integers (y : Q) (n z : Z) :
  Qabs (y - inject_Z n) <= 1 # 2 -> n <> z ->
  (1 # 2) <= Qabs (y - inject_Z z).
Proof.
  intros Hn Hz. pose proof (integers_apart n z Hz) as H1.
  apply Qabs_le_iff in Hn.
  destruct (Qlt_le_dec (inject_Z n) (inject_Z z)) as [Hlt | Hge].
  - apply Qabs_ge_r.
    assert (Qabs (inject_Z n - inject_Z z) == - (inject_Z n - inject_Z z)) as E
        by (apply Qabs_neg; lra).
    rewrite E in H1. lra.
  - apply Qabs_ge_l.
    assert (Qabs (inject_Z n - inject_Z z) == inject_Z n - inject_Z z) as E
        by (apply Qabs_pos; lra).
    rewrite E in H1. lra.
Qed.

(** The result is an integer nearest to the argument. *)
Lemma round_half_even_nearest (y : Q) (z : Z) :
  Qabs (y - inject_Z (round_half_even y)) <= Qabs (y - inject_Z z).
Proof.
  destruct (Z.eq_dec (round_half_even y) z) as [-> | Hz]; [apply Qle_refl |].
  eapply Qle_trans; [apply round_half_even_close |].
  eapply far_from_other_integers; [apply round_half_even_close | exact Hz].
Qed.

(** On a tie the result is even. *)
Lemma round_half_even_tie (y : Q) :
  Qabs (y - inject_Z (round_half_even y)) == 1 # 2 ->
  Z.even (round_half_even y) = true.
Proof.
  unfold round_half_even.
  pose proof (Qfloor_le y) as Hlo. pose proof (Qlt_floor y) as Hhi.
  rewrite inject_Z_plus in Hhi. change (inject_Z 1) with 1 in Hhi.
  destruct (Qcompare (y - inject_Z (Qfloor y)) (1 # 2)) eqn:E.
  - apply Qeq_alt in E. destruct (Z.even (Qfloor y)) eqn:Ev; intros _.
    + exact Ev.
    + rewrite Z.even_add, Ev. reflexivity.
  - apply Qlt_alt in E. intros H.
    rewrite Qabs_pos in H by lra. lra.
  - apply Qgt_alt in E. rewrite inject_Z_plus. change (inject_Z 1) with 1.
    intros H. rewrite Qabs_neg in H by lra. lra.
Qed.

Lemma pow2_pos (k : Z) : (0 <= k -> 0 < 2 ^ k)%Z.
Proof. intros Hk. apply Z.pow_pos_nonneg; lia. Qed.

Lemma inject_Z_pos (u : Z) : (0 < u)%Z -> 0 < inject_Z u.
Proof. intros Hu. change 0 with (inject_Z 0). now rewrite <- Zlt_Qlt. Qed.

Lemma ulp_exponent_nonneg (ax : Q) : (0 <= ulp_exponent ax)%Z.
Proof. unfold ulp_exponent. lia. Qed.

(** Distances to a multiple of [u], measured in units of [u]. *)
Lemma scaled_distance (ax : Q) (n u : Z) :
  (0 < u)%Z ->
  Qabs (ax - inject_Z (n * u)) ==
  inject_Z u * Qabs (ax / inject_Z u - inject_Z n).
Proof.
  intros Hu. pose proof (inject_Z_pos u Hu) as HU.
  rewrite inject_Z_mult.
  rewrite <- (Qabs_pos (inject_Z u)) at 2 by lra.
  rewrite <- Qabs_Qmult. apply Qabs_wd. field. lra.
Qed.

(** [round_scaled] is nearest among the multiples of the unit in the last
    place. *)
Lemma round_scaled_nearest_multiple (ax : Q) (z : Z) :
  Qabs (ax - inject_Z (round_scaled ax)) <=
  Qabs (ax - inject_Z (z * 2 ^ ulp_exponent ax)).
Proof.
  unfold round_scaled.
  pose proof (pow2_pos _ (ulp_exponent_nonneg ax)) as Hu.
  rewrite !scaled_distance by exact Hu.
  apply Qmult_le_l; [now apply inject_Z_pos |].
  apply round_half_even_nearest.
Qed.

(** A number with a 53-bit significand is a multiple of the unit in the
    last place of [ax], or lies further below [ax] than such a multiple. *)
Lemma significand_on_grid (ax : Q) (m j : Z) :
  0 <= ax -> (0 <= m < 2 ^ 53)%Z -> (0 <= j)%Z ->
  (exists z, (m * 2 ^ j = z * 2 ^ ulp_exponent ax)%Z) \/
  (exists z, Qabs (ax - inject_Z (z * 2 ^ ulp_exponent ax)) <
             Qabs (ax - inject_Z (m * 2 ^ j))).
Proof.
  intros Hax Hm Hj.
  destruct (Z.le_gt_cases (ulp_exponent ax) j) as [Hle | Hgt].
  - left. exists (m * 2 ^ (j - ulp_exponent ax))%Z.
    pose proof (ulp_exponent_nonneg ax).
    rewrite <- Z.mul_assoc, <- Z.pow_add_r by lia.
    now replace (j - ulp_exponent ax + ulp_exponent ax)%Z with j by lia.
  - right. exists (2 ^ 52)%Z.
    unfold ulp_exponent in *.
    set (F := Qfloor ax) in *.
    assert (Hk : (Z.max (Z.log2 F - 52) 0 = Z.log2 F - 52)%Z) by lia.
    rewrite Hk in *.
    assert (HF : (0 < F)%Z).
    { destruct (Z.lt_trichotomy 0 F) as [? | [<- | Hneg]]; [assumption | |].
      - cbn in Hgt. lia.
      - rewrite Z.log2_nonpos in Hgt by lia. lia. }
    destruct (Z.log2_spec F HF) as [Hlog _].
    rewrite <- Z.pow_add_r by lia.
    replace (52 + (Z.log2 F - 52))%Z with (Z.log2 F) by lia.
    assert (Hy : (m * 2 ^ j < 2 ^ Z.log2 F)%Z).
    { apply Z.lt_le_trans with (2 ^ 53 * 2 ^ j)%Z.
      - apply Z.mul_lt_mono_pos_r; [now apply pow2_pos | lia].
      - rewrite <- Z.pow_add_r by lia. apply Z.pow_le_mono_r; lia. }
    pose proof (Qfloor_le ax) as Hfl. fold F in Hfl.
    assert (H1 : inject_Z (2 ^ Z.log2 F) <= inject_Z F) by now rewrite <- Zle_Qle.
    assert (H2 : inject_Z (m * 2 ^ j) < inject_Z (2 ^ Z.log2 F)) by now rewrite <- Zlt_Qlt.
    rewrite !Qabs_pos by lra. lra.
Qed.

(** [round_scaled] is nearest among the numbers with a 53-bit
    significand. *)
Lemma round_scaled_nearest (ax : Q) (m j : Z) :
  0 <= ax -> (0 <= m < 2 ^ 53)%Z -> (0 <= j)%Z ->
  Qabs (ax - inject_Z (round_scaled ax)) <= Qabs (ax - inject_Z (m * 2 ^ j)).
Proof.
  intros Hax Hm Hj.
  destruct (significand_on_grid ax m j Hax Hm Hj) as [[z ->] | [z Hz]].
  - apply round_scaled_nearest_multiple.
  - eapply Qle_trans; [apply round_scaled_nearest_multiple |].
    apply Qlt_le_weak. exact Hz.
Qed.

Lemma round_half_even_nonneg (y : Q) : 0 <= y -> (0 <= round_half_even y)%Z.
Proof.
  intros Hy.
  assert (0 <= Qfloor y)%Z.
  { change 0%Z with (Qfloor 0). now apply Qfloor_resp_le. }
  destruct (round_half_even_floor y) as [-> | ->]; lia.
Qed.

Lemma round_scaled_nonneg (ax : Q) : 0 <= ax -> (0 <= round_scaled ax)%Z.
Proof.
  intros Hax. unfold round_scaled.
  pose proof (pow2_pos _ (ulp_exponent_nonneg ax)) as Hu.
  apply Z.mul_nonneg_nonneg; [| lia].
  apply round_half_even_nonneg.
  apply Qle_shift_div_l; [now apply inject_Z_pos | lra].
Qed.

(** The significand of the result has at most 53 bits. *)
Lemma round_scaled_significand (ax : Q) :
  0 <= ax ->
  exists m k : Z,
    (0 <= m < 2 ^ 53)%Z /\ (0 <= k)%Z /\ (round_scaled ax = m * 2 ^ k)%Z.
Proof.
  intros Hax.
  pose proof (ulp_exponent_nonneg ax) as Hk.
  pose proof (pow2_pos _ Hk) as Hu.
  pose proof (inject_Z_pos _ Hu) as HU.
  set (y := ax / inject_Z (2 ^ ulp_exponent ax)).
  assert (Hy : 0 <= y) by (apply Qle_shift_div_l; [exact HU | lra]).
  assert (Hn : (0 <= round_half_even y <= 2 ^ 53)%Z).
  { split; [now apply round_half_even_nonneg |].
    assert (Hfl : (Qfloor y < 2 ^ 53)%Z).
    { rewrite Zlt_Qlt. eapply Qle_lt_trans; [apply Qfloor_le |].
      unfold y. apply Qlt_shift_div_r; [exact HU |].
      rewrite <- inject_Z_mult, <- Z.pow_add_r by lia.
      eapply Qlt_le_trans; [apply Qlt_floor |].
      rewrite <- Zle_Qle.
      unfold ulp_exponent in *. set (F := Qfloor ax) in *.
      assert (HF0 : (0 <= F)%Z)
        by (change 0%Z with (Qfloor 0); now apply Qfloor_resp_le).
      destruct (Z.eq_dec F 0) as [-> | HFn].
      - cbn. lia.
      - destruct (Z.log2_spec F) as [_ Hhi]; [lia |].
        pose proof (Z.log2_nonneg F).
        apply Z.le_trans with (2 ^ Z.succ (Z.log2 F))%Z; [lia |].
        apply Z.pow_le_mono_r; lia. }
    destruct (round_half_even_floor y) as [-> | ->]; lia. }
  destruct (Z.eq_dec (round_half_even y) (2 ^ 53)) as [E | NE].
  - exists 1%Z, (53 + ulp_exponent ax)%Z.
    split; [lia |]. split; [lia |].
    unfold round_scaled. fold y. rewrite E, Z.pow_add_r by lia. lia.
  - exists (round_half_even y), (ulp_exponent ax).
    split; [lia |]. split; [lia |]. reflexivity.
Qed.

(** *** [double_round] *)

Lemma scale_pos : 0 < inject_Z (2 ^ 1074).
Proof. apply inject_Z_pos. now apply pow2_pos. Qed.

(** The magnitude of [double_round x], in units of [2^-1074]. *)
Lemma double_round_abs (x : Q) :
  Qabs (double_round x) * inject_Z (2 ^ 1074) ==
  inject_Z (round_scaled (Qabs x * inject_Z (2 ^ 1074))).
Proof.
  pose proof scale_pos as HS.
  assert (Hax : 0 <= Qabs x * inject_Z (2 ^ 1074)).
  { apply Qmult_le_0_compat; [apply Qabs_nonneg | lra]. }
  pose proof (round_scaled_nonneg _ Hax) as Hn.
  rewrite Zle_Qle in Hn. change (inject_Z 0) with 0 in Hn.
  assert (Hd : 0 <= inject_Z (round_scaled (Qabs x * inject_Z (2 ^ 1074)))
                    / inject_Z (2 ^ 1074)).
  { apply Qle_shift_div_l; [exact HS | lra]. }
  unfold double_round.
  destruct (Qgtb 0 x); rewrite ?Qabs_opp, Qred_correct, Qabs_pos by exact Hd;
    field; lra.
Qed.

(** [double_round x] has the sign of [x]. *)
Lemma double_round_same_sign (x : Q) :
  (0 <= x /\ 0 <= double_round x) \/ (x <= 0 /\ double_round x <= 0).
Proof.
  pose proof scale_pos as HS.
  assert (Hax : 0 <= Qabs x * inject_Z (2 ^ 1074)).
  { apply Qmult_le_0_compat; [apply Qabs_nonneg | lra]. }
  pose proof (round_scaled_nonneg _ Hax) as Hn.
  rewrite Zle_Qle in Hn. change (inject_Z 0) with 0 in Hn.
  assert (Hd : 0 <= inject_Z (round_scaled (Qabs x * inject_Z (2 ^ 1074)))
                    / inject_Z (2 ^ 1074)).
  { apply Qle_shift_div_l; [exact HS | lra]. }
  unfold double_round.
  destruct (Qgtb 0 x) eqn:E.
  - apply Qgtb_true in E. right. rewrite Qred_correct. split; lra.
  - apply Qgtb_false in E. left. rewrite Qred_correct. split; lra.
Qed.

Lemma double_round_nonneg (x : Q) : 0 <= x -> 0 <= double_round x.
Proof.
  intros Hx. pose proof scale_pos as HS.
  assert (Hax : 0 <= Qabs x * inject_Z (2 ^ 1074)).
  { apply Qmult_le_0_compat; [apply Qabs_nonneg | lra]. }
  pose proof (round_scaled_nonneg _ Hax) as Hn.
  rewrite Zle_Qle in Hn. change (inject_Z 0) with 0 in Hn.
  unfold double_round. rewrite (proj2 (Qgtb_false 0 x) Hx), Qred_correct.
  apply Qle_shift_div_l; [exact HS | lra].
Qed.

Lemma same_sign_distance (x r : Q) :
  (0 <= x /\ 0 <= r) \/ (x <= 0 /\ r <= 0) ->
  Qabs (x - r) == Qabs (Qabs x - Qabs r).
Proof.
  intros [[Hx Hr] | [Hx Hr]].
  - now rewrite (Qabs_pos x Hx), (Qabs_pos r Hr).
  - rewrite (Qabs_neg x Hx), (Qabs_neg r Hr).
    rewrite <- (Qabs_opp (x - r)). apply Qabs_wd. ring.
Qed.

Lemma distance_of_magnitudes (x y : Q) :
  Qabs (Qabs x - Qabs y) <= Qabs (x - y).
Proof.
  apply Qabs_le_iff. split.
  - pose proof (Qabs_triangle_reverse y x) as H.
    rewrite (Qabs_Qminus y x) in H. lra.
  - apply Qabs_triangle_reverse.
Qed.

Lemma Qabs_scale (a s : Q) : 0 < s -> Qabs a * s == Qabs (a * s).
Proof.
  intros Hs. rewrite Qabs_Qmult, (Qabs_pos s) by lra. reflexivity.
Qed.

(** A number with a 53-bit significand, the exponent not below that of
    [2^-1074]. *)
Lemma double_round_is_double (x : Q) : is_double (double_round x).
Proof.
  pose proof scale_pos as HS.
  assert (Hax : 0 <= Qabs x * inject_Z (2 ^ 1074)).
  { apply Qmult_le_0_compat; [apply Qabs_nonneg | lra]. }
  destruct (round_scaled_significand _ Hax) as (m & k & Hm & Hk & E).
  exists m, k. split; [exact Hm |]. split; [exact Hk |].
  rewrite double_round_abs, E. reflexivity.
Qed.

(** No double is nearer to [x] than [double_round x]. *)
Lemma double_round_nearest (x y : Q) :
  is_double y -> Qabs (x - double_round x) <= Qabs (x - y).
Proof.
  intros (m & j & Hm & Hj & Ey).
  pose proof scale_pos as HS.
  assert (Hax : 0 <= Qabs x * inject_Z (2 ^ 1074)).
  { apply Qmult_le_0_compat; [apply Qabs_nonneg | lra]. }
  eapply Qle_trans; [| apply distance_of_magnitudes].
  rewrite (same_sign_distance _ _ (double_round_same_sign x)).
  apply (Qmult_le_r _ _ (inject_Z (2 ^ 1074))); [exact HS |].
  rewrite !Qabs_scale by exact HS.
  assert (E1 : (Qabs x - Qabs (double_round x)) * inject_Z (2 ^ 1074) ==
               Qabs x * inject_Z (2 ^ 1074) -
               inject_Z (round_scaled (Qabs x * inject_Z (2 ^ 1074)))).
  { rewrite <- double_round_abs. ring. }
  assert (E2 : (Qabs x - Qabs y) * inject_Z (2 ^ 1074) ==
               Qabs x * inject_Z (2 ^ 1074) - inject_Z (m * 2 ^ j)).
  { rewrite <- Ey. ring. }
  rewrite E1, E2. now apply round_scaled_nearest.
Qed.

(** Rounding does not cross a double: a sum within the range of the
    finite doubles is rounded within that range. *)
Lemma double_round_upper (x d : Q) :
  is_double d -> x <= d -> double_round x <= d.
Proof.
  intros Hd Hx. pose proof (double_round_nearest x d Hd) as Hnear.
  destruct (Qlt_le_dec d (double_round x)) as [Hlt | Hle]; [| exact Hle].
  rewrite (Qabs_neg (x - double_round x)), (Qabs_neg (x - d)) in Hnear by lra.
  lra.
Qed.

Lemma double_round_lower (x d : Q) :
  is_double d -> d <= x -> d <= double_round x.
Proof.
  intros Hd Hx. pose proof (double_round_nearest x d Hd) as Hnear.
  destruct (Qlt_le_dec (double_round x) d) as [Hlt | Hle]; [| exact Hle].
  rewrite (Qabs_pos (x - double_round x)), (Qabs_pos (x - d)) in Hnear by lra.
  lra.
Qed.

(** A double is its own rounding. *)
Lemma double_round_exact (x : Q) : is_double x -> double_round x == x.
Proof.
  intros Hx. pose proof (double_round_nearest x x Hx) as H.
  assert (E : x - x == 0) by ring.
  rewrite (Qabs_wd _ _ E) in H. change (Qabs 0) with 0 in H.
  pose proof (Qabs_nonneg (x - double_round x)) as H0.
  pose proof (Qle_Qabs (x - double_round x)).
  pose proof (Qle_Qabs (- (x - double_round x))) as H2.
  rewrite Qabs_opp in H2. lra.
Qed.

Lemma round_half_even_comp (a b : Q) :
  a == b -> round_half_even a = round_half_even b.
Proof.
  intros E. unfold round_half_even. rewrite (Qfloor_comp _ _ E).
  assert (Ec : Qcompare (a - inject_Z (Qfloor b)) (1 # 2) =
               Qcompare (b - inject_Z (Qfloor b)) (1 # 2)).
  { apply Qcompare_comp; [now rewrite E | reflexivity]. }
  now rewrite Ec.
Qed.

Lemma round_scaled_comp (a b : Q) : a == b -> round_scaled a = round_scaled b.
Proof.
  intros E. unfold round_scaled, ulp_exponent.
  rewrite (Qfloor_comp _ _ E). f_equal.
  apply round_half_even_comp. now rewrite E.
Qed.

(** Equal rationals round to the same fraction. *)
Lemma double_round_comp (x y : Q) : x == y -> double_round x = double_round y.
Proof.
  intros E. unfold double_round.
  rewrite (round_scaled_comp (Qabs x * inject_Z (2 ^ 1074))
             (Qabs y * inject_Z (2 ^ 1074))) by now rewrite E.
  now rewrite (Qgtb_comp 0 0 x y (Qeq_refl 0) E).
Qed.

(** On a tie between two doubles the one with the even significand is
    taken: it is an even multiple of the gap between the two. *)
Lemma round_scaled_tie (ax : Q) (m j : Z) :
  0 <= ax -> (0 <= m < 2 ^ 53)%Z -> (0 <= j)%Z ->
  (m * 2 ^ j <> round_scaled ax)%Z ->
  Qabs (ax - inject_Z (round_scaled ax)) == Qabs (ax - inject_Z (m * 2 ^ j)) ->
  exists z : Z,
    (round_scaled ax = 2 * z * (round_scaled ax - m * 2 ^ j))%Z.
Proof.
  intros Hax Hm Hj Hne Htie.
  pose proof (pow2_pos _ (ulp_exponent_nonneg ax)) as Hu.
  pose proof (inject_Z_pos _ Hu) as HU.
  destruct (significand_on_grid ax m j Hax Hm Hj) as [[z Ez] | [z Hz]].
  - rewrite Ez in *. unfold round_scaled in *.
    set (u := (2 ^ ulp_exponent ax)%Z) in *.
    set (y := ax / inject_Z u) in *.
    set (n := round_half_even y) in *.
    assert (Hnz : n <> z) by (intros ->; now apply Hne).
    rewrite !scaled_distance in Htie by exact Hu. fold y in Htie.
    apply Qmult_inj_l in Htie; [| lra].
    pose proof (round_half_even_close y) as Hclose. fold n in Hclose.
    pose proof (far_from_other_integers y n z Hclose Hnz) as Hfar.
    assert (Hhalf : Qabs (y - inject_Z n) == 1 # 2) by lra.
    pose proof (round_half_even_tie y Hhalf) as Heven. fold n in Heven.
    apply Z.even_spec in Heven. destruct Heven as [h Hh].
    (* |n - z| = 1 *)
    assert (Hdist : Qabs (inject_Z n - inject_Z z) <= 1).
    { assert (E : inject_Z n - inject_Z z ==
                  (y - inject_Z z) + - (y - inject_Z n)) by ring.
      rewrite (Qabs_wd _ _ E).
      eapply Qle_trans; [apply Qabs_triangle |].
      rewrite Qabs_opp. lra. }
    apply Qabs_le_iff in Hdist. destruct Hdist as [Hd1 Hd2].
    assert (Hd1' : inject_Z z <= inject_Z (n + 1))
      by (rewrite inject_Z_plus; change (inject_Z 1) with 1; lra).
    assert (Hd2' : inject_Z n <= inject_Z (z + 1))
      by (rewrite inject_Z_plus; change (inject_Z 1) with 1; lra).
    rewrite <- Zle_Qle in Hd1', Hd2'.
    assert (Hcases : (n - z = 1 \/ n - z = -1)%Z) by lia.
    destruct Hcases as [Hc | Hc].
    + exists h. replace (n * u - z * u)%Z with ((n - z) * u)%Z by ring.
      rewrite Hc, Hh. ring.
    + exists (- h)%Z. replace (n * u - z * u)%Z with ((n - z) * u)%Z by ring.
      rewrite Hc, Hh. ring.
  - exfalso.
    pose proof (round_scaled_nearest_multiple ax z) as Hnear.
    rewrite Htie in Hnear. lra.
Qed.

Lemma zero_is_double : is_double 0.
Proof. exists 0%Z, 0%Z. repeat split; try lia. Qed.

Lemma double_round_within (x : Q) : Qabs (x - double_round x) <= Qabs x.
Proof.
  pose proof (double_round_nearest x 0 zero_is_double) as H.
  assert (E : x - 0 == x) by ring. now rewrite (Qabs_wd _ _ E) in H.
Qed.

Lemma Qabs_le_0 (a : Q) : Qabs a <= 0 -> a == 0.
Proof.
  intros H. pose proof (Qle_Qabs a). pose proof (Qle_Qabs (- a)) as H2.
  rewrite Qabs_opp in H2. lra.
Qed.

Lemma scaled_magnitudes (x r : Q) (n : Z) :
  (0 <= x /\ 0 <= r) \/ (x <= 0 /\ r <= 0) ->
  Qabs r * inject_Z (2 ^ 1074) == inject_Z n ->
  Qabs (x - r) * inject_Z (2 ^ 1074) ==
  Qabs (Qabs x * inject_Z (2 ^ 1074) - inject_Z n).
Proof.
  intros Hsign Hr. pose proof scale_pos as HS.
  rewrite (same_sign_distance _ _ Hsign), Qabs_scale by exact HS.
  apply Qabs_wd. rewrite <- Hr. ring.
Qed.

(** On a tie [double_round x] is the candidate with the even significand:
    an even multiple of the gap to the other one. *)
Lemma double_round_tie (x y : Q) :
  is_double y -> ~ y == double_round x ->
  Qabs (x - double_round x) == Qabs (x - y) ->
  exists z : Z, double_round x == inject_Z (2 * z) * (double_round x - y).
Proof.
  intros (m & j & Hm & Hj & Ey) Hne Htie.
  pose proof scale_pos as HS.
  pose proof (double_round_within x) as Hwithin.
  pose proof (double_round_abs x) as Er.
  pose proof (double_round_same_sign x) as Hsr.
  set (r := double_round x) in *.
  assert (Hax : 0 <= Qabs x * inject_Z (2 ^ 1074)).
  { apply Qmult_le_0_compat; [apply Qabs_nonneg | lra]. }
  (* [y] is on the side of [x]. *)
  assert (Hsy : (0 <= x /\ 0 <= y /\ 0 <= r) \/ (x <= 0 /\ y <= 0 /\ r <= 0)).
  { destruct (Q_dec 0 x) as [[Hpos | Hneg] | Hzero].
    - left. split; [lra |]. split; [| destruct Hsr; lra].
      destruct (Qlt_le_dec y 0) as [Hy |]; [| assumption].
      rewrite (Qabs_pos (x - y)) in Htie by lra.
      rewrite (Qabs_pos x) in Hwithin by lra. lra.
    - right. split; [lra |]. split; [| destruct Hsr; lra].
      destruct (Qlt_le_dec 0 y) as [Hy |]; [| assumption].
      rewrite (Qabs_neg (x - y)) in Htie by lra.
      rewrite (Qabs_neg x) in Hwithin by lra. lra.
    - exfalso. apply Hne.
      assert (E0 : Qabs x == 0) by (rewrite <- Hzero; reflexivity).
      rewrite E0 in Hwithin.
      pose proof (Qabs_le_0 _ Hwithin) as E1.
      assert (E2 : Qabs (x - y) <= 0) by (rewrite <- Htie; exact Hwithin).
      pose proof (Qabs_le_0 _ E2). lra. }
  assert (Hxr : (0 <= x /\ 0 <= r) \/ (x <= 0 /\ r <= 0))
    by (destruct Hsy as [(? & ? & ?) | (? & ? & ?)]; auto).
  assert (Hxy : (0 <= x /\ 0 <= y) \/ (x <= 0 /\ y <= 0))
    by (destruct Hsy as [(? & ? & ?) | (? & ? & ?)]; auto).
  (* The tie, in units of [2^-1074]. *)
  assert (Htie' :
            Qabs (Qabs x * inject_Z (2 ^ 1074) -
                  inject_Z (round_scaled (Qabs x * inject_Z (2 ^ 1074)))) ==
            Qabs (Qabs x * inject_Z (2 ^ 1074) - inject_Z (m * 2 ^ j))).
  { rewrite <- (scaled_magnitudes x r _ Hxr Er).
    rewrite <- (scaled_magnitudes x y _ Hxy Ey).
    now rewrite Htie. }
  assert (Hne' : (m * 2 ^ j)%Z <> round_scaled (Qabs x * inject_Z (2 ^ 1074))).
  { intros E. apply Hne. rewrite E, <- Er in Ey.
    apply Qmult_inj_r in Ey; [| lra].
    destruct Hsy as [(_ & Hy & Hr) | (_ & Hy & Hr)].
    - rewrite (Qabs_pos y), (Qabs_pos r) in Ey by assumption. exact Ey.
    - rewrite (Qabs_neg y), (Qabs_neg r) in Ey by assumption. lra. }
  destruct (round_scaled_tie _ m j Hax Hm Hj Hne' Htie') as [z Hz].
  exists z.
  assert (Hmag : Qabs r == inject_Z (2 * z) * (Qabs r - Qabs y)).
  { apply (Qmult_inj_r _ _ (inject_Z (2 ^ 1074))); [lra |].
    setoid_replace (inject_Z (2 * z) * (Qabs r - Qabs y) * inject_Z (2 ^ 1074))
      with (inject_Z (2 * z) *
            (Qabs r * inject_Z (2 ^ 1074) - Qabs y * inject_Z (2 ^ 1074)))
      by ring.
    rewrite Er, Ey. rewrite Hz at 1.
    rewrite !inject_Z_mult. unfold Zminus. rewrite inject_Z_plus, inject_Z_opp.
    rewrite !inject_Z_mult. ring. }
  destruct Hsy as [(_ & Hy & Hr) | (_ & Hy & Hr)].
  - now rewrite (Qabs_pos y), (Qabs_pos r) in Hmag by assumption.
  - rewrite (Qabs_neg y), (Qabs_neg r) in Hmag by assumption.
    setoid_replace r with (- - r) at 1 by ring.
    rewrite Hmag. ring.
Qed.

(** ** The risk classifier *)

Section RiskLevel.

Variables (water : bool) (rain : Q).

Lemma riskLevel_High :
  riskLevel water rain = "High" <-> water = true /\ 10 < rain.
Proof.
  unfold riskLevel. rewrite <- Qgtb_true.
  destruct water, (Qgtb rain 10), (Qgtb rain 5); cbn;
    intuition (discriminate || auto).
Qed.

Lemma riskLevel_Medium :
  riskLevel water rain = "Medium" <->
  ~ (water = true /\ 10 < rain) /\ (water = true \/ 5 < rain).
Proof.
  unfold riskLevel. rewrite <- !Qgtb_true.
  destruct water, (Qgtb rain 10), (Qgtb rain 5); cbn;
    intuition (discriminate || auto).
Qed.

Lemma riskLevel_Low :
  riskLevel water rain = "Low" <-> water = false /\ rain <= 5.
Proof.
  unfold riskLevel. rewrite <- Qgtb_false.
  destruct water, (Qgtb rain 10), (Qgtb rain 5); cbn;
    intuition (discriminate || auto).
Qed.

Lemma riskLevel_three_outcomes :
  riskLevel water rain = "High" \/ riskLevel water rain = "Medium" \/
  riskLevel water rain = "Low".
Proof.
  unfold riskLevel.
  destruct (water && Qgtb rain 10); [now left |].
  destruct (water || Qgtb rain 5); [right; now left | right; now right].
Qed.

End RiskLevel.

(** C1. [riskLevel] is a total function of its two arguments whose value
    is one of "High", "Medium", "Low", fixed by the decision table read
    top to bottom: High exactly when water is detected and the rain
    exceeds 10; otherwise Medium exactly when water is detected or the
    rain exceeds 5; otherwise Low.  The four sample points of the
    specification evaluate as stated. *)
Theorem riskLevel_decision_table (water : bool) (rain : Q) :
  (riskLevel water rain = "High" <-> water = true /\ 10 < rain) /\
  (riskLevel water rain = "Medium" <->
     ~ (water = true /\ 10 < rain) /\ (water = true \/ 5 < rain)) /\
  (riskLevel water rain = "Low" <-> water = false /\ rain <= 5) /\
  (riskLevel water rain = "High" \/ riskLevel water rain = "Medium" \/
   riskLevel water rain = "Low") /\
  riskLevel true 11 = "High" /\
  riskLevel false 6 = "Medium" /\
  riskLevel true 3 = "Medium" /\
  riskLevel false 0 = "Low".
Proof.
  split; [apply riskLevel_High |].
  split; [apply riskLevel_Medium |].
  split; [apply riskLevel_Low |].
  split; [apply riskLevel_three_outcomes |].
  repeat split; reflexivity.
Qed.

(** ** The path sampler *)

Section Sampler.

Variable coords : list Position.

(** Loop invariant of the [for] statement: with enough fuel to run past
    the end of [coords], the samples pushed after [acc] are the vertices
    at [i], [i + 10], [i + 20], ... *)
Lemma sampleLineString_for_nth (fuel : nat) :
  forall (i : nat) (acc : list LatLon) (k : nat),
    (length coords <= i + 10 * fuel)%nat ->
    nth_error (sampleLineString_for coords i fuel acc) k =
    if (k <? length acc)%nat then nth_error acc k
    else option_map sample_of
           (nth_error coords (i + 10 * (k - length acc))).
Proof.
  induction fuel as [| fuel IH]; intros i acc k Hfuel; cbn [sampleLineString_for].
  - destruct (Nat.ltb_spec k (length acc)) as [Hk | Hk]; [reflexivity |].
    rewrite (proj2 (nth_error_None acc k)) by exact Hk.
    rewrite (proj2 (nth_error_None coords _)) by lia. reflexivity.
  - destruct (nth_error coords i) as [c |] eqn:Hi.
    + rewrite IH by lia. rewrite length_app. cbn [length].
      destruct (Nat.ltb_spec k (length acc)) as [Hk | Hk].
      * destruct (Nat.ltb_spec k (length acc + 1)) as [_ | Hk']; [| lia].
        apply nth_error_app1. exact Hk.
      * destruct (Nat.ltb_spec k (length acc + 1)) as [Hk' | Hk'].
        -- assert (k = length acc) as -> by lia.
           rewrite nth_error_app2 by lia.
           rewrite Nat.sub_diag, Nat.mul_0_r, Nat.add_0_r, Hi. reflexivity.
        -- f_equal. f_equal. lia.
    + apply nth_error_None in Hi.
      destruct (Nat.ltb_spec k (length acc)) as [Hk | Hk]; [reflexivity |].
      rewrite (proj2 (nth_error_None acc k)) by exact Hk.
      rewrite (proj2 (nth_error_None coords _)) by lia. reflexivity.
Qed.

Lemma sampleLineString_for_length (fuel : nat) :
  forall (i : nat) (acc : list LatLon),
    (length coords <= i + 10 * fuel)%nat ->
    length (sampleLineString_for coords i fuel acc) =
    (length acc + (length coords - i + 9) / 10)%nat.
Proof.
  induction fuel as [| fuel IH]; intros i acc Hfuel; cbn [sampleLineString_for].
  - replace (length coords - i)%nat with 0%nat by lia. cbn. lia.
  - destruct (nth_error coords i) as [c |] eqn:Hi.
    + assert (i < length coords)%nat as Hlt
          by (apply nth_error_Some; congruence).
      rewrite IH by lia. rewrite length_app. cbn [length].
      destruct (Nat.le_gt_cases (i + 10) (length coords)) as [Hge | Hsmall].
      * replace (length coords - i + 9)%nat
          with (length coords - (i + 10) + 9 + 1 * 10)%nat by lia.
        rewrite Nat.div_add by discriminate. lia.
      * (* fewer than ten vertices remain: this was the last sample *)
        replace (length coords - (i + 10))%nat with 0%nat by lia.
        assert ((length coords - i + 9) / 10 = 1)%nat as ->.
        { symmetry. apply (Nat.div_unique _ 10 1 (length coords - i - 1)); lia. }
        cbn. lia.
    + apply nth_error_None in Hi.
      replace (length coords - i)%nat with 0%nat by lia. cbn. lia.
Qed.

End Sampler.

(** C2. [sampleLineString] returns exactly the vertices at indices 0, 10,
    20, ... of the path, in path order (the k-th sample is vertex 10k, and
    there are ceil(n/10) samples of an n-vertex path).  Hence it returns no
    more samples than vertices, begins with the first vertex, keeps the
    order of the path, and a non-empty path of at most ten vertices yields
    the one-element sequence made of its first vertex. *)
Theorem sampleLineString_every_tenth (g : Geometry) (spacingMeters : Q) :
  let coords := coordinates g in
  let samples := sampleLineString g spacingMeters in
  (forall k : nat,
      nth_error samples k = option_map sample_of (nth_error coords (10 * k))) /\
  length samples = ((length coords + 9) / 10)%nat /\
  (length samples <= length coords)%nat /\
  hd_error samples = option_map sample_of (hd_error coords) /\
  (forall (j k : nat) (a b : LatLon),
      (j < k)%nat ->
      nth_error samples j = Some a -> nth_error samples k = Some b ->
      exists (j' k' : nat) (ca cb : Position),
        (j' < k')%nat /\
        nth_error coords j' = Some ca /\ nth_error coords k' = Some cb /\
        a = sample_of ca /\ b = sample_of cb) /\
  (forall (first : Position) (rest : list Position),
      coords = first :: rest -> (length coords <= 10)%nat ->
      samples = [sample_of first]).
Proof.
  intros coords samples.
  assert (Hnth : forall k : nat,
             nth_error samples k =
             option_map sample_of (nth_error coords (10 * k))).
  { intros k. unfold samples, sampleLineString. fold coords.
    rewrite sampleLineString_for_nth by lia.
    cbn [length Nat.ltb Nat.leb]. now rewrite Nat.sub_0_r. }
  assert (Hlen : length samples = ((length coords + 9) / 10)%nat).
  { unfold samples, sampleLineString. fold coords.
    rewrite sampleLineString_for_length by lia.
    cbn [length]. now rewrite Nat.sub_0_r. }
  assert (Hle : (length samples <= length coords)%nat).
  { rewrite Hlen. destruct (length coords) as [| n]; [cbn; lia |].
    apply Nat.Div0.div_le_upper_bound. lia. }
  split; [exact Hnth |]. split; [exact Hlen |]. split; [exact Hle |].
  split; [| split].
  - specialize (Hnth 0%nat). cbn [Nat.mul] in Hnth.
    destruct samples, coords; cbn in *; congruence.
  - intros j k a b Hjk Ha Hb.
    rewrite Hnth in Ha, Hb.
    destruct (nth_error coords (10 * j)) as [ca |] eqn:Ej; [| discriminate].
    destruct (nth_error coords (10 * k)) as [cb |] eqn:Ek; [| discriminate].
    exists (10 * j)%nat, (10 * k)%nat, ca, cb. cbn in Ha, Hb.
    repeat split; try congruence. lia.
  - intros first rest Hc Hshort.
    assert (length samples = 1%nat) as H1.
    { rewrite Hlen. rewrite Hc in *. cbn [length] in *.
      symmetry. apply (Nat.div_unique _ 10 1 (length rest)); lia. }
    specialize (Hnth 0%nat). rewrite Hc in Hnth. cbn in Hnth.
    destruct samples as [| s [| s' tl]]; cbn in H1, Hnth; try discriminate.
    congruence.
Qed.

(** A five-vertex path yields its first vertex only. *)
Lemma sampleLineString_every_tenth_witness :
  let g := {| coordinates := [(1, 2); (3, 4); (5, 6); (7, 8); (9, 10)] |} in
  (length (coordinates g) <= 10)%nat /\
  sampleLineString g 300 = [sample_of (1, 2)].
Proof.
  intros g. split; [cbn; lia |].
  apply (proj2 (proj2 (proj2 (proj2 (proj2
           (sampleLineString_every_tenth g 300)))))
           (1, 2) [(3, 4); (5, 6); (7, 8); (9, 10)]);
    [reflexivity | cbn; lia].
Defined.

(** ** Reasoning about asynchronous computations *)

Lemma replay_checking_app (b : bool) (evs1 evs2 : list event) :
  replay_checking b (evs1 ++ evs2) =
  replay_checking (replay_checking b evs1) evs2.
Proof. apply fold_left_app. Qed.

Lemma replay_status_app (s : string) (evs1 evs2 : list event) :
  replay_status s (evs1 ++ evs2) = replay_status (replay_status s evs1) evs2.
Proof. apply fold_left_app. Qed.

Lemma extends_refl (w : World) : extends w w [].
Proof. unfold extends. cbn. now rewrite app_nil_r. Qed.

Lemma extends_trans (w w1 w2 : World) (evs1 evs2 : list event) :
  extends w w1 evs1 -> extends w1 w2 evs2 -> extends w w2 (evs1 ++ evs2).
Proof.
  intros (Ht1 & Hc1 & Hs1 & Hm1) (Ht2 & Hc2 & Hs2 & Hm2).
  unfold extends.
  rewrite replay_checking_app, replay_status_app, app_assoc.
  repeat split; congruence.
Qed.

Lemma extends_record (e : event) (w : World) :
  is_setChecking e = false -> (forall s, e <> SetStatus s) ->
  extends w (record e w) [e].
Proof.
  intros Hc Hs. unfold extends, record, emit. cbn.
  destruct e; try discriminate; try (now repeat split).
  exfalso. eapply Hs. reflexivity.
Qed.

Section Triples.

Context {A B : Type}.
Variables (env : Env).

Lemma triple_ret (a : A) (w : World) (Q : Completion A -> list event -> Prop) :
  Q (Normal a) [] -> triple (ret a) env w Q.
Proof.
  intros HQ. exists []. cbn. auto using extends_refl.
Qed.

Lemma triple_throw (msg : string) (w : World)
    (Q : Completion A -> list event -> Prop) :
  Q (Throw msg) [] -> triple (throw msg) env w Q.
Proof.
  intros HQ. exists []. cbn. auto using extends_refl.
Qed.

Lemma triple_weaken (m : Async A) (w : World)
    (Q Q' : Completion A -> list event -> Prop) :
  triple m env w Q -> (forall c evs, Q c evs -> Q' c evs) ->
  triple m env w Q'.
Proof.
  intros (evs & He & Hf & HQ) Himp. exists evs. auto.
Qed.

(** Sequencing: a throw of [m] is the throw of [m ;; k]; otherwise [k]
    continues from the world [m] left. *)
Lemma triple_bind (m : Async A) (k : A -> Async B) (w : World)
    (Q1 : Completion A -> list event -> Prop)
    (Q : Completion B -> list event -> Prop) :
  triple m env w Q1 ->
  (forall msg evs, Q1 (Throw msg) evs -> Forall (from_env env) evs ->
                   Q (Throw msg) evs) ->
  (forall a evs1 w1,
      Q1 (Normal a) evs1 -> extends w w1 evs1 ->
      Forall (from_env env) evs1 ->
      triple (k a) env w1 (fun c evs2 => Q c (evs1 ++ evs2))) ->
  triple (bind m k) env w Q.
Proof.
  intros (evs1 & He1 & Hf1 & HQ1) Hthrow Hcont. unfold triple, bind.
  destruct (m env w) as [[a | msg] w1]; cbn [fst snd] in *.
  - destruct (Hcont a evs1 w1 HQ1 He1 Hf1) as (evs2 & He2 & Hf2 & HQ2).
    exists (evs1 ++ evs2). split; [eauto using extends_trans |].
    split; [apply Forall_app; auto | exact HQ2].
  - exists evs1. auto.
Qed.

End Triples.

Section TryTriples.

Context {A : Type}.
Variables (env : Env).

Lemma triple_tryCatch (m : Async A) (handler : string -> Async A)
    (w : World) (Post1 Post : Completion A -> list event -> Prop) :
  triple m env w Post1 ->
  (forall a evs, Post1 (Normal a) evs -> Post (Normal a) evs) ->
  (forall msg evs1 w1,
      Post1 (Throw msg) evs1 -> extends w w1 evs1 ->
      triple (handler msg) env w1 (fun c evs2 => Post c (evs1 ++ evs2))) ->
  triple (tryCatch m handler) env w Post.
Proof.
  intros (evs1 & He1 & Hf1 & HP1) Hnormal Hcatch. unfold triple, tryCatch.
  destruct (m env w) as [[a | msg] w1]; cbn [fst snd] in *.
  - exists evs1. auto.
  - destruct (Hcatch msg evs1 w1 HP1 He1) as (evs2 & He2 & Hf2 & HP2).
    exists (evs1 ++ evs2). split; [eauto using extends_trans |].
    split; [apply Forall_app; auto | exact HP2].
Qed.

Lemma triple_tryFinally (m : Async A) (finalizer : Async unit)
    (w : World) (Post1 Post : Completion A -> list event -> Prop) :
  triple m env w Post1 ->
  (forall c evs1 w1,
      Post1 c evs1 -> extends w w1 evs1 ->
      triple finalizer env w1
        (fun cf evs2 =>
           match cf with
           | Normal _ => Post c (evs1 ++ evs2)
           | Throw msg => Post (Throw msg) (evs1 ++ evs2)
           end)) ->
  triple (tryFinally m finalizer) env w Post.
Proof.
  intros (evs1 & He1 & Hf1 & HP1) Hfin. unfold triple, tryFinally.
  destruct (m env w) as [c w1]; cbn [fst snd] in *.
  destruct (Hfin c evs1 w1 HP1 He1) as (evs2 & He2 & Hf2 & HP2).
  exists (evs1 ++ evs2).
  destruct (finalizer env w1) as [[[] | msg] w2]; cbn [fst snd] in *;
    (split; [eauto using extends_trans |]);
    (split; [apply Forall_app; auto | exact HP2]).
Qed.

End TryTriples.

(** Waiting while the route effect is pending changes nothing a triple
    speaks of: the callback touches neither the trace nor the flag, the
    status or the map ref. *)
Lemma awaitPending_triple {A} (m : Async A) (env : Env) (w : World)
    (Post : Completion A -> list event -> Prop) :
  triple m env (if effectRuns env (trace w) then routeEffect w else w) Post ->
  triple (awaitPending m) env w Post.
Proof.
  unfold triple, awaitPending. intros (evs & Hext & Hrest).
  exists evs. split; [| exact Hrest].
  destruct (effectRuns env (trace w)); exact Hext.
Qed.

(** *** The primitives *)

Ltac triple_now :=
  unfold extends, emit, record; cbn; rewrite ?app_nil_r;
  repeat split; repeat constructor; eauto.

Ltac from_env_now :=
  repeat constructor; cbn; eexists; reflexivity.

Section Primitives.

Variables (env : Env) (w : World).

Lemma setStatus_triple (s : string) :
  triple (setStatus s) env w
    (fun c evs => c = Normal tt /\ evs = [SetStatus s]).
Proof.
  exists [SetStatus s]. triple_now.
Qed.

Lemma setChecking_triple (b : bool) :
  triple (setChecking b) env w
    (fun c evs => c = Normal tt /\ evs = [SetChecking b]).
Proof.
  exists [SetChecking b]. triple_now.
Qed.

Lemma setRouteGeo_triple (g : Geometry) :
  triple (setRouteGeo g) env w
    (fun c evs => c = Normal tt /\ evs = [SetRouteGeo g]).
Proof.
  exists [SetRouteGeo g]. triple_now.
Qed.

Lemma setMarkers_triple (ms : list Marker) :
  triple (setMarkers ms) env w (fun c evs => c = Normal tt /\ evs = []).
Proof.
  exists []. triple_now.
Qed.

Lemma getMap_triple :
  triple getMap env w (fun c evs => c = Normal (mapRef w) /\ evs = []).
Proof.
  exists []. triple_now.
Qed.

Lemma setStyle_triple (color : string) :
  triple (setStyle color) env w (fun c evs => c = Normal tt /\ evs = []).
Proof.
  exists []. triple_now.
Qed.

Lemma addMarker_triple (map : bool) (p : LatLon) :
  triple (addMarker map p) env w
    (fun c evs =>
       evs = [] /\
       if map then c = Normal tt else exists msg, c = Throw msg).
Proof.
  exists []. destruct map; triple_now.
Qed.

Lemma importLeaflet_triple :
  triple importLeaflet env w
    (fun c evs =>
       exists r, r = leaflet env (trace w) /\ evs = [ImportLeaflet r] /\
                 c = match r with Some msg => Throw msg | None => Normal tt end).
Proof.
  exists [ImportLeaflet (leaflet env (trace w))]. unfold importLeaflet.
  split; [| split].
  - destruct (leaflet env (trace w)); now apply extends_record.
  - from_env_now.
  - eexists. split; [reflexivity |]. split; [reflexivity |].
    destruct (leaflet env (trace w)); reflexivity.
Qed.

Lemma geocode_triple (address : string) :
  triple (geocode address) env w
    (fun c evs =>
       exists r, r = nominatim env (trace w) address /\
                 evs = [FetchNominatim address r] /\
                 (zero_candidates r = true -> c = Normal None) /\
                 (forall p, first_candidate r = Some p -> c = Normal (Some p)) /\
                 (zero_candidates r = false -> first_candidate r = None ->
                  exists msg, c = Throw msg)).
Proof.
  exists [FetchNominatim address (nominatim env (trace w) address)].
  unfold geocode, bind, awaitFetch, json.
  split; [| split].
  - destruct (nominatim env (trace w) address)
      as [msg | [okb [msg | [| [| first rest] |]]]];
      now apply extends_record.
  - from_env_now.
  - eexists. split; [reflexivity |]. split; [reflexivity |].
    destruct (nominatim env (trace w) address)
      as [msg | [okb [msg | [| [| first rest] |]]]];
      cbn; repeat split; intros; try congruence; eauto.
Qed.

Lemma getRoute_triple (from to : LatLon) :
  triple (getRoute from to) env w
    (fun c evs =>
       exists r, r = osrm env (trace w) from to /\
                 evs = [FetchOsrm from to r] /\
                 match first_route r with
                 | Some g => c = Normal g
                 | None => exists msg, c = Throw msg
                 end).
Proof.
  exists [FetchOsrm from to (osrm env (trace w) from to)].
  unfold getRoute, bind, awaitFetch, json.
  split; [| split].
  - destruct (osrm env (trace w) from to) as [msg | [okb [msg | [cd rts]]]];
      cbn [body code routes ret throw fst snd];
      try destruct (String.eqb cd "Ok"); try destruct rts as [| [g] rest];
      now apply extends_record.
  - from_env_now.
  - eexists. split; [reflexivity |]. split; [reflexivity |].
    destruct (osrm env (trace w) from to) as [msg | [okb [msg | [cd rts]]]];
      cbn; eauto.
    destruct (String.eqb cd "Ok"); [| cbn; eauto].
    destruct rts as [| [g] rest]; cbn; eauto.
Qed.

Lemma checkWaterAroundPoint_triple (lat lon radiusMeters : Q) :
  triple (checkWaterAroundPoint lat lon radiusMeters) env w
    (fun c evs =>
       exists r, r = overpass env (trace w) lat lon radiusMeters /\
                 evs = [FetchOverpass lat lon radiusMeters r] /\
                 if water_hard_failure r then exists msg, c = Throw msg
                 else exists v, c = Normal v /\ truthy v = water_of r /\
                                (non_success r = true -> v = JsBoolean false)).
Proof.
  exists [FetchOverpass lat lon radiusMeters
            (overpass env (trace w) lat lon radiusMeters)].
  unfold checkWaterAroundPoint, bind, awaitFetch, json.
  split; [| split].
  - destruct (overpass env (trace w) lat lon radiusMeters)
      as [msg | [[|] [msg | [[[| e els] |]]]]];
      now apply extends_record.
  - from_env_now.
  - eexists. split; [reflexivity |]. split; [reflexivity |].
    destruct (overpass env (trace w) lat lon radiusMeters)
      as [msg | [[|] [msg | [[[| e els] |]]]]];
      cbn; eauto; eexists; repeat split; intros; discriminate.
Qed.

Lemma fetchPrecipitationLastHours_triple (lat lon : Q) :
  triple (fetchPrecipitationLastHours lat lon) env w
    (fun c evs =>
       exists r, r = openMeteo env (trace w) lat lon /\
                 evs = [FetchOpenMeteo lat lon r] /\
                 c = Normal (rain_of r)).
Proof.
  exists [FetchOpenMeteo lat lon (openMeteo env (trace w) lat lon)].
  unfold fetchPrecipitationLastHours, tryCatch, bind, awaitFetch, json.
  split; [| split].
  - destruct (openMeteo env (trace w) lat lon)
      as [msg | [okb [msg | [[[[series |]] |]]]]];
      now apply extends_record.
  - from_env_now.
  - eexists. split; [reflexivity |]. split; [reflexivity |].
    destruct (openMeteo env (trace w) lat lon)
      as [msg | [okb [msg | [[[[series |]] |]]]]];
      reflexivity.
Qed.

End Primitives.

(** *** The sampling loop *)

(** One step of symbolic execution through [m ;; k] with the triple
    [lemma] of [m]. *)
Ltac step lemma :=
  eapply triple_bind;
  [ apply lemma
  | cbn beta; intros ?msg ?evs ?HP ?Hfrom
  | cbn beta; intros ?a ?evs ?w ?HP ?Hext ?Hfrom ].

(** The same through [awaitPending m ;; k]. *)
Ltac step_await lemma :=
  eapply triple_bind;
  [ apply awaitPending_triple, lemma
  | cbn beta; intros ?msg ?evs ?HP ?Hfrom
  | cbn beta; intros ?a ?evs ?w ?HP ?Hext ?Hfrom ].

Tactic Notation "step_named" ident(a) "with" constr(lemma) :=
  eapply triple_bind;
  [ apply lemma
  | cbn beta; intros ?msg ?evs ?HP ?Hfrom
  | cbn beta; intros a ?evs ?w ?HP ?Hext ?Hfrom ].

Section Loop.

Variables (env : Env) (map : bool).

Lemma mark_water_triple (t wd : bool) (color : string) (w : World) :
  triple (if t then setStyle color ;; ret true else ret wd) env w
    (fun c evs => c = Normal (t || wd) /\ evs = []).
Proof.
  destruct t; cbn [orb].
  - step setStyle_triple; [destruct HP; discriminate |].
    destruct HP as [_ ->]. apply triple_ret. auto.
  - apply triple_ret. auto.
Qed.

Lemma mark_rain_triple (rain : Q) (w : World) :
  triple (if Qgtb rain 10 then setStyle "#d32f2f"
          else if Qgtb rain 5 then setStyle "#f57c00"
          else ret tt) env w
    (fun c evs => c = Normal tt /\ evs = []).
Proof.
  destruct (Qgtb rain 10); [apply setStyle_triple |].
  destruct (Qgtb rain 5); [apply setStyle_triple |].
  apply triple_ret. auto.
Qed.

(** Every execution of [for (const p of samples)] has a [loop_run]
    shape. *)
Lemma forSamples_run (samples : list LatLon) :
  forall (wd : bool) (mr : Q) (w : World),
    triple (forSamples map samples wd mr) env w
      (loop_run map samples wd mr).
Proof.
  induction samples as [| p rest IH]; intros wd mr w; cbn [forSamples].
  - apply triple_ret. constructor.
  - step addMarker_triple.
    { destruct HP as [-> HP]. destruct map eqn:Emap; [discriminate |].
      now constructor. }
    destruct HP as [-> HP]. destruct map eqn:Emap;
      [| destruct HP; discriminate].
    step_await checkWaterAroundPoint_triple.
    { destruct HP0 as (r & _ & -> & HP0).
      destruct (water_hard_failure r) eqn:Ehard;
        [| destruct HP0 as (v & Hv & _); discriminate].
      now constructor. }
    destruct HP0 as (r & _ & -> & HP0).
    destruct (water_hard_failure r) eqn:Ehard;
      [destruct HP0; discriminate |].
    destruct HP0 as (v & Hv & Htruthy & _). injection Hv as ->.
    step mark_water_triple; [destruct HP0; discriminate |].
    destruct HP0 as [Ha ->]. injection Ha as ->.
    step_await fetchPrecipitationLastHours_triple;
      [destruct HP0 as (? & _ & _ & ?); discriminate |].
    destruct HP0 as (r' & _ & -> & Hrain). injection Hrain as ->.
    step mark_rain_triple; [destruct HP0; discriminate |].
    destruct HP0 as [_ ->].
    eapply triple_weaken; [apply IH |].
    cbn beta. intros c evs Hrun. cbn [app].
    constructor; auto. now rewrite <- Htruthy.
Qed.

End Loop.

(** *** The handler *)

Ltac same_map :=
  repeat match goal with
         | H : extends _ _ _ |- _ => destruct H as (_ & _ & _ & H)
         end;
  congruence.

Section Handler.

Variables (env : Env).

Lemma pinnedOr_run (pinned : option LatLon) (address : string) (w : World) :
  triple (pinnedOr pinned (geocode address)) env w (resolved pinned address).
Proof.
  destruct pinned as [p |] eqn:Epin; cbn [pinnedOr].
  - apply triple_ret. now constructor.
  - eapply triple_weaken; [apply geocode_triple |].
    cbn beta. intros c evs (r & _ & -> & Hzero & Hfirst & Hthrow).
    destruct (first_candidate r) as [p |] eqn:Efirst.
    + rewrite (Hfirst p eq_refl). now constructor.
    + destruct (zero_candidates r) eqn:Ezero.
      * rewrite (Hzero eq_refl). now constructor.
      * destruct (Hthrow eq_refl eq_refl) as [msg ->]. now constructor.
Qed.

Lemma route_steps_run (from to : LatLon) (w : World) :
  triple
    (geometry <- getRoute from to ;;
     setRouteGeo geometry ;;
     setStatus "Checking water and rainfall..." ;;
     let samples := sampleLineString geometry spacingMeters_default in
     awaitPending importLeaflet ;;
     map <- getMap ;;
     setMarkers [] ;;
     acc <- forSamples map samples false 0 ;;
     let waterDetected := fst acc in
     let maxRain := snd acc in
     let risk := riskLevel waterDetected maxRain in
     setStatus (finalStatus risk waterDetected maxRain))%async
    env w (route_run (mapRef w) from to).
Proof.
  step getRoute_triple.
  { destruct HP as (r & _ & -> & HP).
    destruct (first_route r) eqn:Eroute; [discriminate |].
    now constructor. }
  destruct HP as (r & _ & -> & HP).
  destruct (first_route r) as [g |] eqn:Eroute;
    [| destruct HP; discriminate].
  injection HP as ->.
  step setRouteGeo_triple; [destruct HP; discriminate |].
  destruct HP as [_ ->].
  step setStatus_triple; [destruct HP; discriminate |].
  destruct HP as [_ ->].
  cbn zeta.
  step_await importLeaflet_triple.
  { destruct HP as (l & _ & -> & HP).
    destruct l as [m |]; [| discriminate]. injection HP as ->.
    now apply route_leaflet_throws. }
  destruct HP as (l & _ & -> & HP).
  destruct l as [m |]; [discriminate |].
  step getMap_triple; [destruct HP0; discriminate |].
  destruct HP0 as [Hmap ->]. injection Hmap as ->.
  replace (mapRef w3) with (mapRef w) by same_map.
  step setMarkers_triple; [destruct HP0; discriminate |].
  destruct HP0 as [_ ->].
  step_named acc with forSamples_run.
  { cbn [app]. now apply (route_loop_throws _ _ _ r g). }
  destruct acc as [wd mr]. cbn [fst snd].
  eapply triple_weaken; [apply setStatus_triple |].
  cbn beta. intros c evs' [-> ->]. cbn [app].
  now apply (route_done _ _ _ r g wd mr).
Qed.

(** Every execution of the [try] block has a [try_run] shape. *)
Lemma handleCheckRoute_try_run (props : Props) (w : World) :
  triple (handleCheckRoute_try props) env w (try_run props (mapRef w)).
Proof.
  unfold handleCheckRoute_try.
  step setStatus_triple; [destruct HP; discriminate |].
  destruct HP as [_ ->].
  step setChecking_triple; [destruct HP; discriminate |].
  destruct HP as [_ ->].
  step_named from with pinnedOr_run.
  { now apply try_origin_throws. }
  step_named to with pinnedOr_run.
  { now apply (try_dest_throws _ _ from). }
  destruct from as [from |], to as [to |];
    try (apply triple_throw; rewrite app_nil_r;
         apply (try_invalid _ _ _ _ _ _ HP HP0); auto; fail).
  step setStatus_triple; [destruct HP1; discriminate |].
  destruct HP1 as [_ ->].
  eapply triple_weaken; [apply route_steps_run |].
  cbn beta. intros c evs' Hroute.
  replace (mapRef w4) with (mapRef w) in Hroute by same_map.
  exact (try_routed props _ from to _ _ _ _ HP HP0 Hroute).
Qed.

(** Every execution of the handler completes normally and has a
    [handler_run] shape. *)
Lemma handleCheckRoute_run (props : Props) (w : World) :
  triple (handleCheckRoute props) env w
    (fun c evs => c = Normal tt /\ handler_run props (mapRef w) evs).
Proof.
  unfold handleCheckRoute.
  eapply (triple_tryFinally _ _ _ _
            (fun c evs =>
               c = Normal tt /\
               (try_run props (mapRef w) (Normal tt) evs \/
                exists msg evs0,
                  try_run props (mapRef w) (Throw msg) evs0 /\
                  evs = evs0 ++ [SetStatus ("Error: " ++ msg)]))).
  - eapply triple_tryCatch; [apply handleCheckRoute_try_run | |].
    + intros [] evs Hrun. auto.
    + intros msg evs1 w1 Hrun _.
      eapply triple_weaken; [apply setStatus_triple |].
      cbn beta. intros c evs2 [-> ->]. split; [reflexivity |].
      right. exists msg, evs1. auto.
  - intros c evs1 w1 [-> Hrun] _.
    eapply triple_weaken; [apply setChecking_triple |].
    cbn beta. intros c evs2 [-> ->]. split; [reflexivity |].
    destruct Hrun as [Hrun | (msg & evs0 & Hrun & ->)].
    + now apply handler_done.
    + rewrite <- app_assoc. now apply handler_error.
Qed.

End Handler.

(** ** Consequences of the shapes *)




Lemma loop_run_calls (map : bool) (samples : list LatLon) (wd : bool) (mr : Q)
    (c : Completion (bool * Q)) (evs : list event) :
  loop_run map samples wd mr c evs ->
  Forall (fun e => is_sample_call e = true) evs.
Proof. induction 1; repeat constructor; assumption. Qed.

Lemma loop_run_In (map : bool) (samples : list LatLon) (wd : bool) (mr : Q)
    (c : Completion (bool * Q)) (evs : list event) (e : event) :
  loop_run map samples wd mr c evs -> In e evs -> is_sample_call e = true.
Proof.
  intros Hloop Hin. apply loop_run_calls in Hloop.
  rewrite Forall_forall in Hloop. auto.
Qed.

(** On normal completion the accumulators are the disjunction of the water
    findings and the maximum of the rain sums of the exchanges made. *)
Lemma loop_run_acc (map : bool) (samples : list LatLon) (wd : bool) (mr : Q)
    (c : Completion (bool * Q)) (evs : list event) :
  loop_run map samples wd mr c evs ->
  forall acc, c = Normal acc ->
              acc = (wd || water_seen evs, rain_seen_from mr evs).
Proof.
  induction 1 as [wd mr | | | p rest wd mr r r' c evs _ _ _ IH];
    intros acc Hc; try discriminate.
  - injection Hc as <-. cbn. now rewrite orb_false_r.
  - rewrite (IH acc Hc). cbn. f_equal.
    destruct (water_of r), wd; reflexivity.
Qed.

Lemma resolved_calls (pinned : option LatLon) (address : string)
    (c : Completion (option LatLon)) (evs : list event) :
  resolved pinned address c evs ->
  Forall (fun e => is_geocode_call e = true) evs.
Proof. destruct 1; repeat constructor. Qed.





(** What an execution of the handler amounts to. *)
Lemma handleCheckRoute_exec (props : Props) (env : Env) (w : World) :
  exists evs,
    fst (handleCheckRoute props env w) = Normal tt /\
    extends w (exec (handleCheckRoute props) env w) evs /\
    Forall (from_env env) evs /\
    handler_run props (mapRef w) evs.
Proof.
  destruct (handleCheckRoute_run env props w) as (evs & Hext & Hfrom & Hc & Hrun).
  exists evs. auto.
Qed.

Lemma prefix_empty (s : string) : prefix "" s = true.
Proof. destruct s; reflexivity. Qed.

Lemma runState_Error (w : World) (msg : string) :
  status w = ("Error: " ++ msg)%string -> runState w = Error.
Proof.
  intros H. unfold runState. rewrite H. cbn. now rewrite prefix_empty.
Qed.

Lemma runState_Done (w : World) (risk : string) (wd : bool) (mr : Q) :
  status w = finalStatus risk wd mr -> runState w = Done.
Proof.
  intros H. unfold runState, finalStatus. rewrite H.
  cbn -[toFixed]. now rewrite prefix_empty.
Qed.

Lemma replay_status_last (s x : string) (pre : list event) :
  replay_status s (pre ++ [SetStatus x; SetChecking false]) = x.
Proof. now rewrite replay_status_app. Qed.

(** *** The phases of a run *)

Lemma resolved_length (pinned : option LatLon) (address : string)
    (c : Completion (option LatLon)) (evs : list event) :
  resolved pinned address c evs -> (length evs <= 1)%nat.
Proof. destruct 1; cbn; lia. Qed.

(** Every run goes through the same phases and stops at the first that
    fails: the two status updates, the resolution of the origin, that of
    the destination, then either nothing more, or the routing request
    alone, or the route with a failed Leaflet import, or the route and
    the sampling loop; it ends with the last status and the lowered
    flag. *)
Lemma handler_run_phases (props : Props) (map : bool) (evs : list event) :
  handler_run props map evs ->
  exists evsA evsB tail last,
    evs = [SetStatus ""; SetChecking true] ++ evsA ++ evsB ++ tail ++
          [SetStatus last; SetChecking false] /\
    Forall (fun e => is_geocode_call e = true) evsA /\ (length evsA <= 1)%nat /\
    Forall (fun e => is_geocode_call e = true) evsB /\ (length evsB <= 1)%nat /\
    ((tail = [] /\ exists msg, last = ("Error: " ++ msg)%string) \/
     (exists from to r msg,
         tail = [SetStatus "Getting route..."; FetchOsrm from to r] /\
         first_route r = None /\ last = ("Error: " ++ msg)%string) \/
     (exists from to r g msg,
         tail = [SetStatus "Getting route..."; FetchOsrm from to r;
                 SetRouteGeo g; SetStatus "Checking water and rainfall...";
                 ImportLeaflet (Some msg)] /\
         first_route r = Some g /\ last = ("Error: " ++ msg)%string) \/
     (exists from to r g levs c,
         tail = [SetStatus "Getting route..."; FetchOsrm from to r;
                 SetRouteGeo g; SetStatus "Checking water and rainfall...";
                 ImportLeaflet None] ++ levs /\
         first_route r = Some g /\
         loop_run map (sampleLineString g spacingMeters_default) false 0 c levs /\
         last = match c with
                | Normal acc =>
                    finalStatus (riskLevel (fst acc) (snd acc)) (fst acc) (snd acc)
                | Throw msg => ("Error: " ++ msg)%string
                end)).
Proof.
  intros Hrun.
  assert (Hnil : forall c evs0, resolved (origin props) (originAddr props) c evs0 ->
                 Forall (fun e => is_geocode_call e = true) evs0 /\
                 (length evs0 <= 1)%nat)
    by (intros; eauto using resolved_calls, resolved_length).
  assert (Hnil' : forall c evs0, resolved (dest props) (destAddr props) c evs0 ->
                  Forall (fun e => is_geocode_call e = true) evs0 /\
                  (length evs0 <= 1)%nat)
    by (intros; eauto using resolved_calls, resolved_length).
  inversion Hrun as [evs0 Htry | msg evs0 Htry]; subst;
    inversion Htry as [ m evsA HA | from m evsA evsB HA HB
                      | from to evsA evsB HA HB Hnone
                      | from to evsA evsB evsR c HA HB HR ]; subst;
    try (inversion HR as [ r m Hr | r g m Hr | r g m levs Hr Hloop
                         | r g wd mr levs Hr Hloop ]; subst).
  - (* done *)
    destruct (Hnil _ _ HA), (Hnil' _ _ HB).
    exists evsA, evsB,
      ([SetStatus "Getting route..."; FetchOsrm from to r; SetRouteGeo g;
        SetStatus "Checking water and rainfall..."; ImportLeaflet None] ++ levs),
      (finalStatus (riskLevel wd mr) wd mr).
    split; [repeat (rewrite <- app_assoc; cbn [app]); reflexivity |].
    repeat (split; [assumption |]).
    right. right. right. exists from, to, r, g, levs, (Normal (wd, mr)). auto.
  - (* the origin throws *)
    destruct (Hnil _ _ HA).
    exists evsA, [], [], ("Error: " ++ msg)%string.
    split; [repeat (rewrite <- app_assoc; cbn [app]); reflexivity |].
    repeat (split; [assumption || constructor || (cbn; lia) |]).
    left. eauto.
  - (* the destination throws *)
    destruct (Hnil _ _ HA), (Hnil' _ _ HB).
    exists evsA, evsB, [], ("Error: " ++ msg)%string.
    split; [repeat (rewrite <- app_assoc; cbn [app]); reflexivity |].
    repeat (split; [assumption |]).
    left. eauto.
  - (* invalid locations *)
    destruct (Hnil _ _ HA), (Hnil' _ _ HB).
    exists evsA, evsB, [], "Error: Invalid locations"%string.
    split; [repeat (rewrite <- app_assoc; cbn [app]); reflexivity |].
    repeat (split; [assumption |]).
    left. split; [reflexivity |]. exists "Invalid locations"%string. reflexivity.
  - (* no route *)
    destruct (Hnil _ _ HA), (Hnil' _ _ HB).
    exists evsA, evsB, [SetStatus "Getting route..."; FetchOsrm from to r],
      ("Error: " ++ msg)%string.
    split; [repeat (rewrite <- app_assoc; cbn [app]); reflexivity |].
    repeat (split; [assumption |]).
    right. left. exists from, to, r, msg. auto.
  - (* Leaflet fails *)
    destruct (Hnil _ _ HA), (Hnil' _ _ HB).
    exists evsA, evsB,
      [SetStatus "Getting route..."; FetchOsrm from to r; SetRouteGeo g;
       SetStatus "Checking water and rainfall..."; ImportLeaflet (Some msg)],
      ("Error: " ++ msg)%string.
    split; [repeat (rewrite <- app_assoc; cbn [app]); reflexivity |].
    repeat (split; [assumption |]).
    right. right. left. exists from, to, r, g, msg. auto.
  - (* the loop throws *)
    destruct (Hnil _ _ HA), (Hnil' _ _ HB).
    exists evsA, evsB,
      ([SetStatus "Getting route..."; FetchOsrm from to r; SetRouteGeo g;
        SetStatus "Checking water and rainfall..."; ImportLeaflet None] ++ levs),
      ("Error: " ++ msg)%string.
    split; [repeat (rewrite <- app_assoc; cbn [app]); reflexivity |].
    repeat (split; [assumption |]).
    right. right. right. exists from, to, r, g, levs, (Throw msg). auto.
Qed.

(** *** The two accumulators *)

Lemma Math_max_ub (a b : Q) : a <= Math_max a b /\ b <= Math_max a b.
Proof.
  unfold Math_max. destruct (Qle_bool a b) eqn:E.
  - apply Qle_bool_iff in E. split; [exact E | apply Qle_refl].
  - split; [apply Qle_refl |].
    apply Qlt_le_weak, Qnot_le_lt. intros H.
    apply Qle_bool_iff in H. congruence.
Qed.

Lemma Math_max_cases (a b : Q) : Math_max a b = a \/ Math_max a b = b.
Proof. unfold Math_max. destruct (Qle_bool a b); auto. Qed.

Lemma rain_seen_from_ge (evs : list event) :
  forall m, m <= rain_seen_from m evs.
Proof.
  induction evs as [| e evs IH]; intros m; cbn; [apply Qle_refl |].
  destruct e; try apply IH.
  eapply Qle_trans; [apply (proj1 (Math_max_ub m (rain_of r))) | apply IH].
Qed.

Lemma rain_seen_from_upper (evs : list event) :
  forall m la lo r,
    In (FetchOpenMeteo la lo r) evs -> rain_of r <= rain_seen_from m evs.
Proof.
  induction evs as [| e evs IH]; intros m la lo r Hin; [destruct Hin |].
  destruct Hin as [-> | Hin].
  - cbn. eapply Qle_trans;
      [apply (proj2 (Math_max_ub m (rain_of r))) | apply rain_seen_from_ge].
  - cbn. destruct e; eauto.
Qed.

Lemma rain_seen_from_cons (m : Q) (e : event) (evs : list event) :
  rain_seen_from m (e :: evs) =
  rain_seen_from match e with
                 | FetchOpenMeteo _ _ r => Math_max m (rain_of r)
                 | _ => m
                 end evs.
Proof. reflexivity. Qed.

Lemma rain_seen_from_attained (evs : list event) :
  forall m,
    rain_seen_from m evs = m \/
    exists la lo r,
      In (FetchOpenMeteo la lo r) evs /\ rain_seen_from m evs = rain_of r.
Proof.
  induction evs as [| e evs IH]; intros m; [now left |].
  rewrite rain_seen_from_cons.
  destruct e as [s | b | g | a r | f t r | la0 lo0 ra0 r | la0 lo0 r | r];
    try (destruct (IH m) as [H | (la' & lo' & r' & Hin & H)];
         [now left | right; exists la', lo', r'; split; [now right | exact H]]).
  destruct (IH (Math_max m (rain_of r)))
    as [H | (la' & lo' & r' & Hin & H)].
  - rewrite H. destruct (Math_max_cases m (rain_of r)) as [-> | ->];
      [now left | right; exists la0, lo0, r; split; [now left | reflexivity]].
  - right. exists la', lo', r'. split; [now right | exact H].
Qed.

Lemma water_seen_iff (evs : list event) :
  water_seen evs = true <->
  exists la lo ra r, In (FetchOverpass la lo ra r) evs /\ water_of r = true.
Proof.
  unfold water_seen. rewrite existsb_exists. split.
  - intros (e & Hin & He). destruct e; try discriminate. eauto 8.
  - intros (la & lo & ra & r & Hin & Hr). eexists. split; [exact Hin | exact Hr].
Qed.

(** ** The in-flight flag *)



(** ** The final report *)


Lemma is_digit_digit (d : Z) : (0 <= d < 10)%Z -> is_digit (digit d) = true.
Proof.
  intros Hd. unfold is_digit, digit.
  rewrite nat_ascii_embedding by lia.
  apply andb_true_intro. split; apply Nat.leb_le; lia.
Qed.




(** *** Runs that reach the sampling loop *)

Ltac split_from :=
  repeat match goal with
         | H : Forall _ (_ ++ _) |- _ => apply Forall_app in H; destruct H
         | H : Forall _ (_ :: _) |- _ =>
             apply Forall_cons_iff in H; destruct H
         end.

Lemma zero_candidates_none (r : Fetched NominatimBody) :
  zero_candidates r = true -> first_candidate r = None.
Proof.
  destruct r as [msg | [okb [msg | [| [| first rest] |]]]]; cbn;
    intros; (discriminate || reflexivity).
Qed.

Lemma non_success_water (r : Fetched OverpassBody) :
  non_success r = true -> water_of r = false /\ water_hard_failure r = false.
Proof.
  destruct r as [msg | [[|] bd]]; cbn; intros H; try discriminate.
  now split.
Qed.

Lemma water_of_no_failure (r : Fetched OverpassBody) :
  water_of r = true -> water_hard_failure r = false.
Proof.
  destruct r as [msg | [[|] [msg | data]]]; cbn; intros H;
    (discriminate || reflexivity).
Qed.

Section ReachTheLoop.

Variables (env : Env).

Lemma resolved_must (pinned : option LatLon) (address : string)
    (c : Completion (option LatLon)) (evs : list event) :
  resolved pinned address c evs ->
  Forall (from_env env) evs ->
  endpoint_resolves env pinned address ->
  exists p, c = Normal (Some p).
Proof.
  intros Hres Hfrom [Hpin | Hgeo]; destruct Hres; try congruence; eauto;
    split_from; cbn in *;
    match goal with H : exists h, _ = _ |- _ => destruct H as [h ->] end;
    exfalso; apply (Hgeo h);
    auto using zero_candidates_none.
Qed.

Lemma route_must (map : bool) (from to : LatLon) (c : Completion unit)
    (evs : list event) :
  route_run map from to c evs ->
  Forall (from_env env) evs ->
  route_succeeds env ->
  (forall h, leaflet env h = None) ->
  exists g cl levs h,
    first_route (osrm env h from to) = Some g /\
    loop_run map (sampleLineString g spacingMeters_default) false 0 cl levs /\
    Forall (from_env env) levs /\
    match cl with
    | Normal acc =>
        c = Normal tt /\
        evs = [FetchOsrm from to (osrm env h from to); SetRouteGeo g;
               SetStatus "Checking water and rainfall...";
               ImportLeaflet None] ++ levs ++
              [SetStatus (finalStatus (riskLevel (fst acc) (snd acc))
                            (fst acc) (snd acc))]
    | Throw msg =>
        c = Throw msg /\
        evs = [FetchOsrm from to (osrm env h from to); SetRouteGeo g;
               SetStatus "Checking water and rainfall...";
               ImportLeaflet None] ++ levs
    end.
Proof.
  intros Hrun Hfrom Hroute Hleaflet.
  destruct Hrun as [r msg Hr | r g msg Hr | r g msg levs Hr Hloop
                   | r g wd mr levs Hr Hloop];
    split_from; cbn [from_env] in *;
    match goal with
    | H : exists h, r = _ |- _ => destruct H as [h ->]
    end.
  - exfalso. eapply Hroute. exact Hr.
  - match goal with
    | H : exists h, Some msg = _ |- _ => destruct H as [h' H]
    end.
    rewrite Hleaflet in *. discriminate.
  - exists g, (Throw msg), levs, h. auto.
  - exists g, (Normal (wd, mr)), levs, h.
    split; [exact Hr |]. split; [exact Hloop |]. split; [assumption |].
    cbn [fst snd]. auto.
Qed.

End ReachTheLoop.

Lemma run_reaches_loop (env : Env) (props : Props) (map : bool)
    (evs : list event) :
  handler_run props map evs ->
  Forall (from_env env) evs ->
  endpoint_resolves env (origin props) (originAddr props) ->
  endpoint_resolves env (dest props) (destAddr props) ->
  route_succeeds env ->
  (forall h, leaflet env h = None) ->
  exists pre g cl levs h from to,
    first_route (osrm env h from to) = Some g /\
    loop_run map (sampleLineString g spacingMeters_default) false 0 cl levs /\
    Forall (from_env env) levs /\
    evs = pre ++ levs ++
          [SetStatus
             match cl with
             | Normal acc =>
                 finalStatus (riskLevel (fst acc) (snd acc)) (fst acc) (snd acc)
             | Throw msg => ("Error: " ++ msg)%string
             end;
           SetChecking false].
Proof.
  intros Hrun Hfrom Horigin Hdest Hroute Hleaflet.
  assert (Hcases :
            exists c evs0 from to evsA evsB evsR,
              evs = evs0 ++
                    match c with
                    | Normal _ => [SetChecking false]
                    | Throw msg =>
                        [SetStatus ("Error: " ++ msg)%string; SetChecking false]
                    end /\
              evs0 = [SetStatus ""; SetChecking true] ++ evsA ++ evsB ++
                     SetStatus "Getting route..." :: evsR /\
              route_run map from to c evsR).
  { inversion Hrun as [evs0 Htry | msg evs0 Htry]; subst;
      split_from;
      inversion Htry; subst; split_from;
      repeat match goal with
             | HA : resolved (origin props) _ _ ?e, HF : Forall _ ?e |- _ =>
                 destruct (resolved_must env _ _ _ _ HA HF Horigin) as [? ?];
                 clear HF
             | HB : resolved (dest props) _ _ ?e, HF : Forall _ ?e |- _ =>
                 destruct (resolved_must env _ _ _ _ HB HF Hdest) as [? ?];
                 clear HF
             end;
      try discriminate;
      try (match goal with H : _ = None \/ _ = None |- _ => destruct H end;
           congruence).
    - exists (Normal tt). eauto 10.
    - exists (Throw msg). eauto 10. }
  destruct Hcases as (c & evs0 & from & to & evsA & evsB & evsR & -> & -> & HR).
  split_from.
  destruct (route_must env _ _ _ _ _ HR) as (g & cl & levs & h & Hg & Hloop & Hl & Hshape);
    auto.
  exists ([SetStatus ""; SetChecking true] ++ evsA ++ evsB ++
          [SetStatus "Getting route...";
           FetchOsrm from to (osrm env h from to); SetRouteGeo g;
           SetStatus "Checking water and rainfall..."; ImportLeaflet None]),
    g, cl, levs, h, from, to.
  split; [exact Hg |]. split; [exact Hloop |]. split; [exact Hl |].
  destruct cl as [acc | msg]; destruct Hshape as [-> ->];
    repeat (rewrite <- app_assoc; cbn [app]); reflexivity.
Qed.

(** ** Soft failures *)

(** With every check failing soft the loop runs to its end and leaves the
    accumulators at their initial values. *)
Lemma loop_run_soft (env : Env) (map : bool) (samples : list LatLon)
    (wd : bool) (mr : Q) (c : Completion (bool * Q)) (levs : list event) :
  loop_run map samples wd mr c levs ->
  wd = false -> mr = 0 -> map = true ->
  Forall (from_env env) levs ->
  water_fails_soft env -> rain_fails_soft env ->
  c = Normal (false, 0).
Proof.
  intros Hloop Hwd Hmr Hmap Hfrom Hwater Hrain.
  induction Hloop as [wd mr | p rest wd mr msg Hno
                     | p rest wd mr r msg _ Hhard
                     | p rest wd mr r r' c evs _ Hhard _ IH];
    subst; try congruence; split_from; cbn [from_env] in *.
  - match goal with H : exists h, r = _ |- _ => destruct H as [h ->] end.
    destruct (non_success_water _ (Hwater h (lat p) (lon p) radiusMeters_default)).
    congruence.
  - match goal with H : exists h, r = _ |- _ => destruct H as [h ->] end.
    match goal with H : exists h, r' = _ |- _ => destruct H as [h' ->] end.
    apply IH; auto.
    + now destruct (non_success_water _ (Hwater h (lat p) (lon p)
                                           radiusMeters_default)) as [-> _].
    + unfold rain_of. now rewrite Hrain.
Qed.

(** C3. When both endpoints resolve, the routing service returns a route,
    the rendering surface is available (the Leaflet bundle loads and the
    map is mounted), and every water check and every rain check of the run
    fails soft, the run is not aborted: it ends in [Done] and publishes
    risk level Low, no water, 0.0 mm of rain.  The condition on the
    rendering surface cannot be left out, as the same run on a component
    without its map shows below. *)
Theorem soft_failures_reach_Done_Low (props : Props) (env : Env) (w : World) :
  endpoint_resolves env (origin props) (originAddr props) ->
  endpoint_resolves env (dest props) (destAddr props) ->
  route_succeeds env ->
  surface_ready env w ->
  water_fails_soft env ->
  rain_fails_soft env ->
  let w' := exec (handleCheckRoute props) env w in
  runState w' = Done /\
  riskLevel false 0 = "Low"%string /\
  status w' = finalStatus "Low" false 0 /\
  status w' =
    "Risk Level: Low. Mapped water: No, Rain (last 3h): 0.0 mm"%string /\
  checking w' = false.
Proof.
  intros Horigin Hdest Hroute [Hmap Hleaflet] Hwater Hrain w'.
  destruct (handleCheckRoute_exec props env w)
    as (evs & _ & (_ & Hchk & Hstatus & _) & Hfrom & Hrun).
  fold w' in Hchk, Hstatus.
  destruct (run_reaches_loop env props _ evs Hrun Hfrom Horigin Hdest Hroute
              Hleaflet)
    as (pre & g & cl & levs & h & from & to & _ & Hloop & Hl & Hevs).
  rewrite Hmap in Hloop.
  rewrite (loop_run_soft env _ _ _ _ _ _ Hloop eq_refl eq_refl eq_refl Hl
             Hwater Hrain) in Hevs.
  cbn [fst snd] in Hevs.
  assert (Hs : status w' = finalStatus "Low" false 0).
  { rewrite Hstatus, Hevs, app_assoc. apply replay_status_last. }
  split; [eapply runState_Done; exact Hs |].
  split; [reflexivity |]. split; [exact Hs |]. split; [rewrite Hs; reflexivity |].
  rewrite Hchk, Hevs, app_assoc, replay_checking_app. reflexivity.
Qed.

(** The demonstration run with every check failing. *)
Lemma soft_failures_reach_Done_Low_witness :
  status (exec (handleCheckRoute demo_props) failing_checks_env demo_world) =
  "Risk Level: Low. Mapped water: No, Rain (last 3h): 0.0 mm"%string.
Proof.
  refine (proj1 (proj2 (proj2 (proj2
            (soft_failures_reach_Done_Low demo_props failing_checks_env
               demo_world _ _ _ _ _ _))))).
  - right. intros h. cbn. discriminate.
  - right. intros h. cbn. discriminate.
  - intros h from to. cbn. discriminate.
  - split; [reflexivity | intros h; reflexivity].
  - intros h la lo ra. reflexivity.
  - intros h la lo. reflexivity.
Defined.

(** Without the rendering surface the same run is aborted, although both
    endpoints resolve, a route is returned and every check would fail
    soft: the handler awaits the import of Leaflet, and puts the marker of
    a sample on the map, before it checks the sample.  So the run ends in
    [Error] when the bundle does not load, and when the map is not
    mounted. *)
Lemma soft_failures_without_map :
  (endpoint_resolves no_leaflet_env (origin demo_props)
     (originAddr demo_props) /\
   endpoint_resolves no_leaflet_env (dest demo_props) (destAddr demo_props) /\
   route_succeeds no_leaflet_env /\
   water_fails_soft no_leaflet_env /\
   rain_fails_soft no_leaflet_env /\
   runState (exec (handleCheckRoute demo_props) no_leaflet_env demo_world) =
   Error /\
   status (exec (handleCheckRoute demo_props) no_leaflet_env demo_world) =
   "Error: Failed to fetch dynamically imported module"%string) /\
  (endpoint_resolves failing_checks_env (origin demo_props)
     (originAddr demo_props) /\
   endpoint_resolves failing_checks_env (dest demo_props)
     (destAddr demo_props) /\
   route_succeeds failing_checks_env /\
   water_fails_soft failing_checks_env /\
   rain_fails_soft failing_checks_env /\
   runState (exec (handleCheckRoute demo_props) failing_checks_env
               unmounted_world) = Error /\
   status (exec (handleCheckRoute demo_props) failing_checks_env
             unmounted_world) =
   "Error: Cannot read properties of null (reading 'addLayer')"%string).
Proof.
  split;
    (split; [right; intros h; cbn; discriminate |];
     split; [right; intros h; cbn; discriminate |];
     split; [intros h from to; cbn; discriminate |];
     split; [intros h la lo ra; reflexivity |];
     split; [intros h la lo; reflexivity |];
     split; vm_compute; reflexivity).
Qed.

(** ** The report of a completed run *)

Lemma string_app_assoc (a b c : string) :
  ((a ++ b) ++ c)%string = (a ++ b ++ c)%string.
Proof.
  induction a as [| ch a IH]; cbn; [reflexivity | now rewrite IH].
Qed.





(** ** The water check *)



(** ** The precipitation check *)

Lemma slice_last_last3 (series : list Q) : slice_last 3 series = last3 series.
Proof.
  unfold slice_last, last3.
  rewrite <- (rev_involutive series) at 1 2.
  destruct (rev series) as [| c [| b [| a older]]]; try reflexivity.
  cbn [rev]. rewrite <- !app_assoc. cbn [app].
  rewrite length_app. cbn [length].
  replace (length (rev older) + 3 - 3)%nat with (length (rev older)) by lia.
  rewrite skipn_app, skipn_all, Nat.sub_diag. reflexivity.
Qed.

Lemma In_slice_last (n : nat) (x : Q) (xs : list Q) :
  In x (slice_last n xs) -> In x xs.
Proof.
  unfold slice_last. intros H.
  rewrite <- (firstn_skipn (length xs - n) xs). apply in_or_app. now right.
Qed.

Lemma Number_add_nonneg (a b : Q) : 0 <= a -> 0 <= b -> 0 <= Number_add a b.
Proof.
  intros Ha Hb. apply double_round_nonneg. lra.
Qed.

Lemma fold_Number_add_nonneg (xs : list Q) (acc : Q) :
  0 <= acc -> (forall x, In x xs -> 0 <= x) ->
  0 <= fold_left Number_add xs acc.
Proof.
  revert acc. induction xs as [| x xs IH]; intros acc Hacc Hxs;
    cbn [fold_left]; [exact Hacc |].
  apply IH.
  - apply Number_add_nonneg; [exact Hacc | apply Hxs; now left].
  - intros y Hy. apply Hxs. now right.
Qed.

(** What [+] computes: the double nearest to the exact sum, and on a tie
    the one of the two whose significand is even; hence a double that the
    exact sum does not exceed is not exceeded by the result either. *)
Lemma Number_add_correctly_rounded (x y : Q) :
  is_double (Number_add x y) /\
  (forall d, is_double d ->
             Qabs (x + y - Number_add x y) <= Qabs (x + y - d)) /\
  (forall d, is_double d -> ~ d == Number_add x y ->
             Qabs (x + y - Number_add x y) == Qabs (x + y - d) ->
             exists z : Z,
               Number_add x y == inject_Z (2 * z) * (Number_add x y - d)) /\
  (forall d, is_double d ->
             (x + y <= d -> Number_add x y <= d) /\
             (d <= x + y -> d <= Number_add x y)).
Proof.
  unfold Number_add. split; [apply double_round_is_double |].
  split; [intros d; apply double_round_nearest |].
  split; [intros d; apply double_round_tie |].
  intros d Hd. split; [now apply double_round_upper
                      | now apply double_round_lower].
Qed.

(** C5. [fetchPrecipitationLastHours] never throws.  When the exchange
    yields an hourly series it returns the sum of its last three values
    (of all of them when there are fewer), added from the oldest on in
    double arithmetic: every [+] gives the double nearest to the exact
    sum, ties to even, so that it stays on the side of every double the
    exact sum is on, and adding a double to 0 gives that double.  The
    result is non-negative when the values are.  When the request is
    rejected, the body does not parse, or the series is missing, the
    function returns 0. *)
Theorem fetchPrecipitationLastHours_result (env : Env) (w : World)
    (lat lon : Q) :
  let r := openMeteo env (trace w) lat lon in
  exists q : Q,
    fst (fetchPrecipitationLastHours lat lon env w) = Normal q /\
    (forall series,
        meteo_series r = Some series ->
        q = fold_left Number_add (last3 series) 0 /\
        (forall older a b c,
            series = older ++ [a; b; c] ->
            q = Number_add (Number_add (Number_add 0 a) b) c) /\
        ((forall x, In x series -> 0 <= x) -> 0 <= q)) /\
    (forall x y : Q,
        is_double (Number_add x y) /\
        (forall d, is_double d ->
                   Qabs (x + y - Number_add x y) <= Qabs (x + y - d)) /\
        (forall d, is_double d -> ~ d == Number_add x y ->
                   Qabs (x + y - Number_add x y) == Qabs (x + y - d) ->
                   exists z : Z,
                     Number_add x y ==
                     inject_Z (2 * z) * (Number_add x y - d)) /\
        (forall d, is_double d ->
                   (x + y <= d -> Number_add x y <= d) /\
                   (d <= x + y -> d <= Number_add x y)) /\
        (is_double y -> Number_add 0 y == y)) /\
    (meteo_series r = None -> q = 0) /\
    (forall msg, r = Rejected msg -> q = 0) /\
    (forall okb msg, r = Resolved {| ok := okb; body := BadJson msg |} -> q = 0) /\
    (forall okb,
        r = Resolved {| ok := okb; body := Json {| hourly := None |} |} ->
        q = 0) /\
    (forall okb,
        r = Resolved {| ok := okb;
                        body := Json {| hourly :=
                          Some {| precipitation := None |} |} |} ->
        q = 0).
Proof.
  intros r.
  destruct (fetchPrecipitationLastHours_triple env w lat lon)
    as (evs & _ & _ & r0 & -> & _ & Hc).
  fold r in Hc. exists (rain_of r). split; [exact Hc |].
  unfold rain_of.
  split; [| split;
            [| repeat split; intros; subst r;
               match goal with H : _ = _ |- _ => rewrite H end;
               reflexivity]].
  - intros series ->. unfold reduce_sum. rewrite slice_last_last3.
    split; [reflexivity |]. split.
    + intros older a b c ->. unfold last3.
      rewrite rev_app_distr. reflexivity.
    + intros Hpos. apply fold_Number_add_nonneg; [apply Qle_refl |].
      intros x Hx. apply Hpos. eapply In_slice_last.
      rewrite slice_last_last3. exact Hx.
  - intros x y.
    destruct (Number_add_correctly_rounded x y)
      as (Hd & Hnear & Htie & Hbound).
    split; [exact Hd |]. split; [exact Hnear |]. split; [exact Htie |].
    split; [exact Hbound |].
    intros Hy. unfold Number_add.
    rewrite (double_round_comp (0 + y) y) by ring.
    now apply double_round_exact.
Qed.

(** The series 0.1, 0.2, 0.3 sums to 0.6000000000000001, which is not the
    double that 0.6 denotes; the demonstration series 0, 1, 3, 4, 5 sums
    to 12 over its last three hours. *)
Lemma fetchPrecipitationLastHours_result_witness :
  fst (fetchPrecipitationLastHours 28 77
         (rain_env [Number_of (1 # 10); Number_of (2 # 10); Number_of (3 # 10)])
         demo_world) =
  Normal (1351079888211149 # 2251799813685248) /\
  Number_of (6 # 10) < 1351079888211149 # 2251799813685248 /\
  fst (fetchPrecipitationLastHours 28 77 demo_env demo_world) = Normal 12.
Proof.
  split; [| split; [vm_compute; reflexivity |]].
  - destruct (fetchPrecipitationLastHours_result
                (rain_env [Number_of (1 # 10); Number_of (2 # 10);
                           Number_of (3 # 10)]) demo_world 28 77)
      as (q & Hq & Hseries & _).
    destruct (Hseries _ eq_refl) as (_ & Hsum & _).
    rewrite Hq, (Hsum [] _ _ _ eq_refl). vm_compute. reflexivity.
  - destruct (fetchPrecipitationLastHours_result demo_env demo_world 28 77)
      as (q & Hq & Hseries & _).
    destruct (Hseries [0; 1; 3; 4; 5] eq_refl) as (_ & Hsum & _).
    rewrite Hq, (Hsum [0; 1] 3 4 5 eq_refl). vm_compute. reflexivity.
Defined.

(** ** Resolving the endpoints *)

Section Endpoints.

Variables (env : Env).

(** An unpinned endpoint whose address has no candidate resolves to
    [null], by one geocoding exchange. *)
Lemma resolved_zero (pinned : option LatLon) (address : string)
    (c : Completion (option LatLon)) (evs : list event) :
  resolved pinned address c evs ->
  Forall (from_env env) evs ->
  pinned = None ->
  (forall h, zero_candidates (nominatim env h address) = true) ->
  c = Normal None /\
  exists r, evs = [FetchNominatim address r] /\ zero_candidates r = true /\
            exists h, r = nominatim env h address.
Proof.
  intros Hres Hfrom Hpin Hzero.
  destruct Hres as [p Hp | r p _ Hfirst | r _ Hz | r msg _ Hz Hfirst];
    try congruence; split_from; cbn [from_env] in *;
    match goal with H : exists h, r = _ |- _ => destruct H as [h ->] end.
  - rewrite (zero_candidates_none _ (Hzero h)) in Hfirst. discriminate.
  - split; [reflexivity |]. eauto 6.
  - rewrite Hzero in Hz. discriminate.
Qed.

(** A geocoding exchange is made for an unpinned endpoint only, with
    that endpoint's address. *)
Lemma resolved_In (pinned : option LatLon) (address : string)
    (c : Completion (option LatLon)) (evs : list event) (e : event) :
  resolved pinned address c evs ->
  In e evs ->
  pinned = None /\ exists r, e = FetchNominatim address r.
Proof.
  destruct 1; cbn; intros Hin; try contradiction;
    destruct Hin as [<- | []]; eauto.
Qed.

(** A pinned endpoint resolves to the pinned coordinate. *)
Lemma resolved_pinned_value (pinned : option LatLon) (address : string)
    (p : LatLon) (evs : list event) :
  resolved pinned address (Normal (Some p)) evs ->
  forall o, pinned = Some o -> p = o /\ evs = [].
Proof.
  inversion 1; subst; intros o Ho; try congruence.
  split; congruence.
Qed.

End Endpoints.

Ltac split_in :=
  repeat match goal with
         | H : In _ (_ ++ _) |- _ => apply in_app_or in H; destruct H as [H | H]
         | H : In _ (_ :: _) |- _ => destruct H as [H | H]
         | H : In _ [] |- _ => destruct H
         end.

(** Which provider calls a run can make: a geocoding exchange only for an
    unpinned endpoint and with its address; sample exchanges only after a
    routing request; the routing request only with both endpoints
    resolved, a pinned endpoint being passed as it is. *)
Lemma handler_run_calls (props : Props) (map : bool) (evs : list event) :
  handler_run props map evs ->
  forall e, In e evs ->
    match e with
    | FetchNominatim address r =>
        (origin props = None /\ address = originAddr props) \/
        (dest props = None /\ address = destAddr props)
    | FetchOsrm from to r =>
        (forall o, origin props = Some o -> from = o) /\
        (forall d, dest props = Some d -> to = d)
    | FetchOverpass _ _ _ _ | FetchOpenMeteo _ _ _ =>
        exists from to r, In (FetchOsrm from to r) evs
    | _ => True
    end.
Proof.
  intros Hrun e Hin.
  assert (Hgeo : forall pinned address c evs0,
             resolved pinned address c evs0 -> In e evs0 ->
             pinned = None /\ exists r, e = FetchNominatim address r)
    by (intros; eapply resolved_In; eauto).
  inversion Hrun as [evs0 Htry | msg evs0 Htry]; subst;
    inversion Htry as [ m evsA HA | from m evsA evsB HA HB
                      | from to evsA evsB HA HB Hnone
                      | from to evsA evsB evsR c HA HB HR ]; subst;
    try match goal with
        | H : route_run _ _ _ _ _ |- _ => inversion H; subst
        end;
    split_in; subst; try exact I;
    try (match goal with
         | HA : resolved (origin props) _ _ ?l, H : In e ?l |- _ =>
             destruct (Hgeo _ _ _ _ HA H) as (? & ? & ->); now left
         | HB : resolved (dest props) _ _ ?l, H : In e ?l |- _ =>
             destruct (Hgeo _ _ _ _ HB H) as (? & ? & ->); now right
         end);
    try (split; intros ? Hpin;
         [ eapply resolved_pinned_value in HA | eapply resolved_pinned_value in HB ];
         try exact Hpin; tauto);
    try (match goal with
         | HL : loop_run _ _ _ _ _ ?l, H : In e ?l |- _ =>
             pose proof (loop_run_In _ _ _ _ _ _ _ HL H) as Hs;
             destruct e; try discriminate Hs
         end;
         match goal with
         | HR : route_run _ ?from ?to _ (FetchOsrm _ _ ?r :: _) |- _ =>
             exists from, to, r
         | HR : route_run _ ?from ?to _ ([FetchOsrm _ _ ?r; _; _; _] ++ _) |- _ =>
             exists from, to, r
         end;
         repeat (rewrite in_app_iff || (progress cbn [In])); tauto).
Qed.

(** C8. A pinned endpoint resolves to its coordinate, whatever the address
    text, without any effect (in particular without network exchange), and
    doing it again gives the same value, again without effect.  In a run,
    geocoding exchanges are made only for unpinned endpoints and only with
    their address, the routing request receives a pinned coordinate as it
    is, and when both endpoints are pinned no geocoding exchange occurs. *)
Theorem pinned_endpoint_resolution (props : Props) (env : Env) (w : World) :
  (forall c address,
      pinnedOr (Some c) (geocode address) env w = (Normal (Some c), w)) /\
  (forall c address1 address2,
      (first <- pinnedOr (Some c) (geocode address1) ;;
       second <- pinnedOr (Some c) (geocode address2) ;;
       ret (first, second)) env w = (Normal (Some c, Some c), w)) /\
  let w' := exec (handleCheckRoute props) env w in
  forall evs,
    trace w' = trace w ++ evs ->
    (forall address r,
        In (FetchNominatim address r) evs ->
        (origin props = None /\ address = originAddr props) \/
        (dest props = None /\ address = destAddr props)) /\
    (forall from to r,
        In (FetchOsrm from to r) evs ->
        (forall o, origin props = Some o -> from = o) /\
        (forall d, dest props = Some d -> to = d)) /\
    (origin props <> None -> dest props <> None ->
     Forall (fun e => is_geocode_call e = false) evs).
Proof.
  split; [reflexivity |]. split; [reflexivity |].
  intros w' evs Htrace.
  destruct (handleCheckRoute_exec props env w)
    as (evs' & _ & (Htrace' & _) & _ & Hrun).
  fold w' in Htrace'.
  assert (evs' = evs) as ->
      by (apply (app_inv_head (trace w)); congruence).
  pose proof (handler_run_calls _ _ _ Hrun) as Hcalls.
  split; [| split].
  - intros address r Hin. exact (Hcalls _ Hin).
  - intros from to r Hin. exact (Hcalls _ Hin).
  - intros Horigin Hdest. apply Forall_forall. intros e Hin.
    specialize (Hcalls e Hin). destruct e; try reflexivity.
    destruct Hcalls as [[Hnone _] | [Hnone _]]; contradiction.
Qed.

(** With both endpoints pinned the demonstration run geocodes nothing. *)
Lemma pinned_endpoint_resolution_witness :
  Forall (fun e => is_geocode_call e = false)
    (trace (exec (handleCheckRoute pinned_props) demo_env demo_world)).
Proof.
  refine (proj2 (proj2 (proj2 (proj2
            (pinned_endpoint_resolution pinned_props demo_env demo_world))
            _ _)) _ _).
  - reflexivity.
  - discriminate.
  - discriminate.
Defined.

(** ** Endpoints that cannot be resolved *)

(** With no candidate for the destination, the run ends in the [catch]
    clause and never reaches the routing request. *)
Lemma handler_run_no_destination (env : Env) (props : Props) (map : bool)
    (evs : list event) :
  handler_run props map evs ->
  Forall (from_env env) evs ->
  dest props = None ->
  (forall h, zero_candidates (nominatim env h (destAddr props)) = true) ->
  (exists msg pre,
      evs = pre ++ [SetStatus ("Error: " ++ msg)%string; SetChecking false]) /\
  (forall from to r, ~ In (FetchOsrm from to r) evs).
Proof.
  intros Hrun Hfrom Hdest Hzero.
  assert (Htry : forall c evs0,
             try_run props map c evs0 -> Forall (from_env env) evs0 ->
             (exists msg, c = Throw msg) /\
             forall from to r, ~ In (FetchOsrm from to r) evs0).
  { intros c evs0 Htry Hf.
    inversion Htry as [ m evsA HA | from m evsA evsB HA HB
                      | from to evsA evsB HA HB Hnone
                      | from to evsA evsB evsR c' HA HB HR ]; subst;
      split_from;
      try (match goal with
           | HB : resolved (dest props) _ _ ?l, HF : Forall _ ?l |- _ =>
               destruct (resolved_zero env _ _ _ _ HB HF Hdest Hzero)
                 as (? & _); discriminate
           end);
      (split; [eauto |]);
      intros f t r Hin; split_in; try discriminate;
      match goal with
      | HR : resolved _ _ _ ?l, H : In _ ?l |- _ =>
          destruct (resolved_In _ _ _ _ _ HR H) as (_ & ? & ?); discriminate
      end. }
  inversion Hrun as [evs0 Hrun0 | msg evs0 Hrun0]; subst; split_from;
    destruct (Htry _ _ Hrun0) as ([m Hm] & Hno); auto; try discriminate.
  split; [eauto |].
  intros f t r Hin. split_in; try discriminate. eapply Hno; eauto.
Qed.

(** C7. When the destination is not pinned and the geocoder has no
    candidate for its address, the run ends in [Error] and its trace holds
    no exchange with the routing service, the water check or the
    precipitation check. *)
Theorem unresolved_destination_stops_run (props : Props) (env : Env)
    (w : World) :
  dest props = None ->
  (forall h, zero_candidates (nominatim env h (destAddr props)) = true) ->
  let w' := exec (handleCheckRoute props) env w in
  runState w' = Error /\
  (exists msg, status w' = ("Error: " ++ msg)%string) /\
  exists evs,
    trace w' = trace w ++ evs /\
    Forall (fun e => is_route_call e = false /\ is_water_call e = false /\
                     is_rain_call e = false) evs.
Proof.
  intros Hdest Hzero w'.
  destruct (handleCheckRoute_exec props env w)
    as (evs & _ & (Htrace & _ & Hstatus & _) & Hfrom & Hrun).
  fold w' in Htrace, Hstatus.
  destruct (handler_run_no_destination env _ _ _ Hrun Hfrom Hdest Hzero)
    as ((msg & pre & Hevs) & Hno).
  assert (Hs : status w' = ("Error: " ++ msg)%string)
    by (rewrite Hstatus, Hevs; apply replay_status_last).
  split; [eapply runState_Error; exact Hs |]. split; [eauto |].
  exists evs. split; [exact Htrace |].
  apply Forall_forall. intros e Hin.
  pose proof (handler_run_calls _ _ _ Hrun e Hin) as Hcall.
  destruct e; cbn; auto;
    try (exfalso; eapply Hno; exact Hin);
    destruct Hcall as (from & to & r0 & Hroute); exfalso; eapply Hno;
    exact Hroute.
Qed.

(** The demonstration run against a geocoder that finds nothing. *)
Lemma unresolved_destination_stops_run_witness :
  zero_candidates (nominatim nowhere_env [] "B") = true /\
  status (exec (handleCheckRoute demo_props) nowhere_env demo_world) =
  "Error: Invalid locations"%string /\
  runState (exec (handleCheckRoute demo_props) nowhere_env demo_world) = Error.
Proof.
  split; [reflexivity |]. split; [reflexivity |].
  refine (proj1 (unresolved_destination_stops_run demo_props nowhere_env
                   demo_world _ _)).
  - reflexivity.
  - intros h. reflexivity.
Defined.

(** C10. When neither endpoint is pinned and the geocoder has no candidate
    for the origin address, the run does not stop there: the destination
    address is geocoded next, and only then does the run end in [Error].
    Its trace is exactly: status cleared, flag raised, origin exchange,
    destination exchange, error published, flag lowered. *)
Theorem destination_geocoded_after_failed_origin (props : Props) (env : Env)
    (w : World) :
  origin props = None ->
  dest props = None ->
  (forall h, zero_candidates (nominatim env h (originAddr props)) = true) ->
  let w' := exec (handleCheckRoute props) env w in
  exists r1 r2 msg,
    trace w' =
    trace w ++
    [SetStatus ""; SetChecking true;
     FetchNominatim (originAddr props) r1;
     FetchNominatim (destAddr props) r2;
     SetStatus ("Error: " ++ msg)%string; SetChecking false] /\
    zero_candidates r1 = true /\
    (exists h, r2 = nominatim env h (destAddr props)) /\
    runState w' = Error.
Proof.
  intros Horigin Hdest Hzero w'.
  destruct (handleCheckRoute_exec props env w)
    as (evs & _ & (Htrace & _ & Hstatus & _) & Hfrom & Hrun).
  fold w' in Htrace, Hstatus.
  assert (Hshape : exists r1 r2 msg,
             evs = [SetStatus ""; SetChecking true;
                    FetchNominatim (originAddr props) r1;
                    FetchNominatim (destAddr props) r2;
                    SetStatus ("Error: " ++ msg)%string; SetChecking false] /\
             zero_candidates r1 = true /\
             exists h, r2 = nominatim env h (destAddr props)).
  { inversion Hrun as [evs0 Htry | msg evs0 Htry]; subst; split_from;
      inversion Htry as [ m evsA HA | from m evsA evsB HA HB
                        | from to evsA evsB HA HB Hnone
                        | from to evsA evsB evsR c' HA HB HR ]; subst;
      split_from;
      match goal with
      | HA : resolved (origin props) _ _ ?l, HF : Forall _ ?l |- _ =>
          destruct (resolved_zero env _ _ _ _ HA HF Horigin Hzero)
            as (Hc & r1 & -> & Hr1 & _)
      end;
      try discriminate;
      match goal with
      | HB : resolved (dest props) _ _ ?l |- _ =>
          inversion HB; subst; try congruence
      end;
      split_from; cbn [from_env] in *;
      eexists _, _, _; (split; [reflexivity |]); auto. }
  destruct Hshape as (r1 & r2 & msg & -> & Hr1 & Hr2).
  exists r1, r2, msg. split; [exact Htrace |]. split; [exact Hr1 |].
  split; [exact Hr2 |].
  eapply runState_Error. rewrite Hstatus. reflexivity.
Qed.

(** The demonstration run against a geocoder that finds nothing still
    asks for "B" after "A". *)
Lemma destination_geocoded_after_failed_origin_witness :
  exists r1 r2 msg,
    trace (exec (handleCheckRoute demo_props) nowhere_env demo_world) =
    [SetStatus ""; SetChecking true;
     FetchNominatim "A" r1; FetchNominatim "B" r2;
     SetStatus ("Error: " ++ msg)%string; SetChecking false].
Proof.
  destruct (destination_geocoded_after_failed_origin demo_props nowhere_env
              demo_world eq_refl eq_refl (fun h => eq_refl))
    as (r1 & r2 & msg & Htrace & _).
  exists r1, r2, msg. exact Htrace.
Defined.

(** * Further properties *)

(** ** The classifier is monotone *)

(** X1. More hazard never lowers the risk: if water is detected whenever
    it was, and the rain is at least what it was, the level (Low, Medium,
    High in this order) does not decrease. *)
Theorem riskLevel_monotone (water1 water2 : bool) (rain1 rain2 : Q) :
  (water1 = true -> water2 = true) ->
  rain1 <= rain2 ->
  (risk_rank (riskLevel water1 rain1) <= risk_rank (riskLevel water2 rain2))%nat.
Proof.
  intros Hw Hr. unfold riskLevel.
  destruct (Qgtb rain1 10) eqn:A1, (Qgtb rain1 5) eqn:B1,
           (Qgtb rain2 10) eqn:A2, (Qgtb rain2 5) eqn:B2;
    repeat match goal with
           | H : Qgtb _ _ = true |- _ => apply Qgtb_true in H
           | H : Qgtb _ _ = false |- _ => apply Qgtb_false in H
           end;
    try lra;
    destruct water1, water2; cbn; try lia;
    specialize (Hw eq_refl); discriminate.
Qed.

(** Water and 12 mm rank at least as high as no water and 6 mm. *)
Lemma riskLevel_monotone_witness :
  (risk_rank (riskLevel false 6) <= risk_rank (riskLevel true 12))%nat.
Proof.
  apply riskLevel_monotone; [discriminate | discriminate].
Defined.

(** ** The two accumulators of the loop *)

(** X2. The two accumulators of the sampling loop.  Whatever they hold
    when the loop starts, a loop that completes returns, for the water
    flag, whether it was set or some water check of the loop found water,
    and for the rainfall, the larger of what it was and the sums the
    rain checks of the loop returned: a value that is at least each of
    them, and is one of them. *)
Theorem aggregates_are_or_and_max (env : Env) (map : bool)
    (samples : list LatLon) (wd : bool) (mr : Q) (w : World) :
  exists levs,
    trace (snd (forSamples map samples wd mr env w)) = trace w ++ levs /\
    forall wd' mr',
      fst (forSamples map samples wd mr env w) = Normal (wd', mr') ->
      (wd' = true <->
       wd = true \/
       exists la lo ra r,
         In (FetchOverpass la lo ra r) levs /\ water_of r = true) /\
      mr <= mr' /\
      (forall la lo r, In (FetchOpenMeteo la lo r) levs -> rain_of r <= mr') /\
      (mr' = mr \/
       exists la lo r, In (FetchOpenMeteo la lo r) levs /\ mr' = rain_of r).
Proof.
  destruct (forSamples_run env map samples wd mr w)
    as (levs & (Htrace & _) & _ & Hloop).
  exists levs. split; [exact Htrace |].
  intros wd' mr' Hc.
  pose proof (loop_run_acc _ _ _ _ _ _ Hloop _ Hc) as Hacc.
  injection Hacc as -> ->.
  split; [| split; [apply rain_seen_from_ge
                   | split; [intros la lo r; apply rain_seen_from_upper
                            | apply rain_seen_from_attained]]].
  rewrite orb_true_iff, water_seen_iff. reflexivity.
Qed.

(** ** The geocoder and the router *)

(** X3. [geocode] makes exactly one exchange and changes nothing else.
    On the answers represented here (a rejection, an unparsable body, and
    a body that is [null], an array of candidates or an object that is no
    array) it returns a coordinate exactly when the body is a non-empty
    array, and then the first candidate; it returns [null] exactly when
    the body is [null] or the empty array; it throws exactly when the
    request is rejected or the body does not parse, with the message of
    that failure, or when the body is an object that is no array, with
    the TypeError of reading [lat] on [data[0]].  The HTTP status of the
    response plays no part. *)
Theorem geocode_result (env : Env) (w : World) (address : string) :
  let r := nominatim env (trace w) address in
  let out := geocode address env w in
  snd out = record (FetchNominatim address r) w /\
  (forall p, fst out = Normal (Some p) <->
             exists res rest, r = Resolved res /\
                              body res = Json (JsonArray (p :: rest))) /\
  (fst out = Normal None <->
   exists res, r = Resolved res /\
               (body res = Json JsonNull \/ body res = Json (JsonArray []))) /\
  (forall msg, fst out = Throw msg <->
               r = Rejected msg \/
               exists res,
                 r = Resolved res /\
                 (body res = BadJson msg \/
                  (body res = Json JsonObject /\
                   msg = "Cannot read properties of undefined (reading 'lat')"%string))) /\
  (forall b env',
      nominatim env' (trace w) address = with_ok b r ->
      fst (geocode address env' w) = fst out).
Proof.
  intros r out. unfold out, geocode, bind, awaitFetch, json. fold r.
  split; [destruct r as [m | [okb [m | [| [| c cs] |]]]]; reflexivity |].
  split; [| split; [| split]].
  - intros p.
    destruct r as [m | [okb [m | [| [| c cs] |]]]]; cbn; split;
      try discriminate;
      try (intros (res & rest & Hr & Hb); try discriminate;
           injection Hr as <-; cbn in Hb; congruence).
    intros H. injection H as ->.
    exists {| ok := okb; body := Json (JsonArray (p :: cs)) |}, cs. auto.
  - destruct r as [m | [okb [m | [| [| c cs] |]]]]; cbn; split;
      try discriminate; eauto;
      intros (res & Hr & [Hb | Hb]); try discriminate;
      injection Hr as <-; cbn in Hb; discriminate.
  - intros msg.
    destruct r as [m | [okb [m | [| [| c cs] |]]]]; cbn; split;
      try discriminate;
      try (intros H; injection H as <-; eauto 6; fail);
      intros [Hr | (res & Hr & [Hb | [Hb Hm]])]; try discriminate;
      try (injection Hr as <-; cbn in Hb); congruence.
  - intros b env' Henv. rewrite Henv.
    destruct r as [m | [okb [m | [| [| c cs] |]]]]; reflexivity.
Qed.

(** A 503 response carrying candidates is used like a 200 one; an error
    report in place of the candidate list makes [geocode] throw. *)
Lemma geocode_result_witness :
  let unavailable :=
    {| nominatim := fun h a => with_ok false (nominatim demo_env h a);
       osrm := osrm demo_env; overpass := overpass demo_env;
       openMeteo := openMeteo demo_env; leaflet := leaflet demo_env;
       effectRuns := effectRuns demo_env |} in
  let refusing :=
    {| nominatim := fun _ _ =>
         Resolved {| ok := false; body := Json JsonObject |};
       osrm := osrm demo_env; overpass := overpass demo_env;
       openMeteo := openMeteo demo_env; leaflet := leaflet demo_env;
       effectRuns := effectRuns demo_env |} in
  fst (geocode "A" unavailable demo_world) =
  Normal (Some {| lat := 28; lon := 77 |}) /\
  fst (geocode "A" refusing demo_world) =
  Throw "Cannot read properties of undefined (reading 'lat')".
Proof.
  intros unavailable refusing. split.
  - rewrite (proj2 (proj2 (proj2 (proj2
               (geocode_result demo_env demo_world "A"))))
               false unavailable eq_refl).
    reflexivity.
  - apply (proj1 (proj2 (proj2 (proj2
             (geocode_result refusing demo_world "A"))))).
    right. eexists. split; [reflexivity |]. right. split; reflexivity.
Defined.

(** X4. [getRoute] makes exactly one exchange and changes nothing else.
    It returns a geometry exactly when the body parses, its [code] is
    "Ok" and it lists a route, and then the geometry of the first route,
    whatever the alternates.  A parsed body with another [code] throws
    "No route found"; a rejected request or an unparsable body throws the
    message of that failure.  The HTTP status plays no part. *)
Theorem getRoute_result (env : Env) (w : World) (from to : LatLon) :
  let r := osrm env (trace w) from to in
  let out := getRoute from to env w in
  snd out = record (FetchOsrm from to r) w /\
  (forall g, fst out = Normal g <->
             exists res data first rest,
               r = Resolved res /\ body res = Json data /\
               code data = "Ok"%string /\ routes data = first :: rest /\
               g = geometry first) /\
  (forall res data,
      r = Resolved res -> body res = Json data ->
      code data <> "Ok"%string ->
      fst out = Throw "No route found") /\
  (forall msg, r = Rejected msg -> fst out = Throw msg) /\
  (forall res msg, r = Resolved res -> body res = BadJson msg ->
                   fst out = Throw msg) /\
  (forall b env',
      osrm env' (trace w) from to = with_ok b r ->
      fst (getRoute from to env' w) = fst out).
Proof.
  intros r out. unfold out, getRoute, bind, awaitFetch, json. fold r.
  split.
  { destruct r as [m | [okb [m | [cd rts]]]]; cbn [body code routes ret throw fst snd];
      try destruct (String.eqb cd "Ok"); try destruct rts; reflexivity. }
  split; [| split; [| split; [| split]]].
  - intros g.
    destruct r as [m | [okb [m | [cd rts]]]]; cbn; split;
      try discriminate;
      try (intros (res & data & first & rest & Hr & Hb & _); try discriminate;
           injection Hr as <-; cbn in Hb; discriminate).
    + destruct (String.eqb_spec cd "Ok") as [-> | Hne]; [| discriminate].
      destruct rts as [| first rest]; cbn; [discriminate |].
      intros H. injection H as <-.
      exists {| ok := okb; body := Json {| code := "Ok"; routes := first :: rest |} |},
        {| code := "Ok"; routes := first :: rest |}, first, rest. auto.
    + intros (res & data & first & rest & Hr & Hb & Hc & Hrts & ->).
      injection Hr as <-. cbn in Hb. injection Hb as <-. cbn in Hc, Hrts.
      subst. reflexivity.
  - intros res data -> Hb Hc. cbn. rewrite Hb. cbn.
    destruct (String.eqb_spec (code data) "Ok"); [contradiction | reflexivity].
  - intros msg ->. reflexivity.
  - intros res msg -> Hb. cbn. now rewrite Hb.
  - intros b env' Henv. rewrite Henv.
    destruct r as [m | [okb [m | [cd rts]]]]; cbn;
      try destruct (String.eqb cd "Ok"); try destruct rts; reflexivity.
Qed.

(** An answer whose code is "NoRoute" throws "No route found". *)
Lemma getRoute_result_witness :
  let noroute :=
    {| nominatim := nominatim demo_env;
       osrm := fun _ _ _ =>
         Resolved {| ok := true;
                     body := Json {| code := "NoRoute"; routes := [] |} |};
       overpass := overpass demo_env;
       openMeteo := openMeteo demo_env; leaflet := leaflet demo_env;
       effectRuns := effectRuns demo_env |} in
  fst (getRoute {| lat := 28; lon := 77 |} {| lat := 30; lon := 79 |}
         noroute demo_world) = Throw "No route found".
Proof.
  intros noroute.
  refine (proj1 (proj2 (proj2
            (getRoute_result noroute demo_world
               {| lat := 28; lon := 77 |} {| lat := 30; lon := 79 |})))
            _ _ eq_refl eq_refl _).
  discriminate.
Defined.

(** ** Status texts and sample requests of a trace *)

Lemma geocode_calls_silent (evs : list event) :
  Forall (fun e => is_geocode_call e = true) evs ->
  statuses evs = [] /\ sample_requests evs = [].
Proof.
  induction 1 as [| e evs He _ [IHs IHr]]; [now split |].
  destruct e; try discriminate. cbn. auto.
Qed.

Lemma sample_calls_silent (evs : list event) :
  Forall (fun e => is_sample_call e = true) evs -> statuses evs = [].
Proof.
  induction 1 as [| e evs He _ IH]; [reflexivity |].
  destruct e; try discriminate; exact IH.
Qed.

Lemma statuses_app (evs1 evs2 : list event) :
  statuses (evs1 ++ evs2) = statuses evs1 ++ statuses evs2.
Proof. apply flat_map_app. Qed.

Lemma sample_requests_app (evs1 evs2 : list event) :
  sample_requests (evs1 ++ evs2) = sample_requests evs1 ++ sample_requests evs2.
Proof. apply flat_map_app. Qed.

(** ** The order of the status texts *)

(** X5. The status texts of a run are published in pipeline order and
    never go back: the empty text first, then possibly "Getting route...",
    then possibly "Checking water and rainfall...", then one last text,
    which is what the user is left with.  The last text is an error
    unless all three came before it, and a report only then. *)
Theorem status_sequence (props : Props) (env : Env) (w : World) :
  let w' := exec (handleCheckRoute props) env w in
  exists evs last,
    trace w' = trace w ++ evs /\
    status w' = last /\
    (statuses evs = [""%string; last] \/
     statuses evs = [""%string; "Getting route..."%string; last] \/
     statuses evs = [""%string; "Getting route..."%string;
                     "Checking water and rainfall..."%string; last]) /\
    ((exists msg, last = ("Error: " ++ msg)%string) \/
     (statuses evs = [""%string; "Getting route..."%string;
                      "Checking water and rainfall..."%string; last] /\
      exists risk wd mr, last = finalStatus risk wd mr)).
Proof.
  intros w'.
  destruct (handleCheckRoute_exec props env w)
    as (evs & _ & (Htrace & _ & Hstatus & _) & _ & Hrun).
  fold w' in Htrace, Hstatus.
  destruct (handler_run_phases _ _ _ Hrun)
    as (evsA & evsB & tail & last & Hevs & HA & _ & HB & _ & Hcases).
  exists evs, last. split; [exact Htrace |].
  split.
  { rewrite Hstatus, Hevs, !app_assoc. apply replay_status_last. }
  destruct (geocode_calls_silent _ HA) as [HsA _].
  destruct (geocode_calls_silent _ HB) as [HsB _].
  assert (Hst : statuses evs = ""%string :: statuses tail ++ [last]).
  { rewrite Hevs, !statuses_app, HsA, HsB. reflexivity. }
  destruct Hcases as [(-> & msg & Hlast)
                     | [(from & to & r & msg & -> & _ & Hlast)
                       | [(from & to & r & g & msg & -> & _ & Hlast)
                         | (from & to & r & g & levs & c & -> & _ & Hloop & Hlast)]]].
  - split; [left; exact Hst | left; eauto].
  - split; [right; left; exact Hst | left; eauto].
  - split; [right; right; exact Hst | left; eauto].
  - rewrite statuses_app, (sample_calls_silent levs) in Hst
      by (eapply loop_run_calls; exact Hloop).
    split; [right; right; exact Hst |].
    destruct c as [acc | msg]; [right | left; eauto].
    split; [exact Hst | eauto].
Qed.

(** ** The calls of the sampling loop *)

(** The loop asks, for each sample in turn, the water service then the
    rain service, and stops asking when it throws. *)
Lemma loop_run_requests (map : bool) (samples : list LatLon) (wd : bool)
    (mr : Q) (c : Completion (bool * Q)) (levs : list event) :
  loop_run map samples wd mr c levs ->
  (exists k, sample_requests levs = firstn k (requests_for samples)) /\
  (forall acc, c = Normal acc -> sample_requests levs = requests_for samples).
Proof.
  induction 1 as [wd mr | p rest wd mr msg _ | p rest wd mr r msg _ _
                 | p rest wd mr r r' c evs _ _ _ [[k IHk] IHn]].
  - split; [exists 0%nat; reflexivity | reflexivity].
  - split; [exists 0%nat; reflexivity | discriminate].
  - split; [exists 1%nat; reflexivity | discriminate].
  - change (sample_requests (_ :: _ :: evs))
      with (WaterRequest (lat p) (lon p) radiusMeters_default ::
            RainRequest (lat p) (lon p) :: sample_requests evs).
    change (requests_for (p :: rest))
      with (WaterRequest (lat p) (lon p) radiusMeters_default ::
            RainRequest (lat p) (lon p) :: requests_for rest).
    split.
    + exists (S (S k)). cbn [firstn]. now rewrite IHk.
    + intros acc Hc. now rewrite (IHn acc Hc).
Qed.

Lemma requests_for_length (samples : list LatLon) :
  length (requests_for samples) = (2 * length samples)%nat.
Proof.
  induction samples as [| p rest IH]; [reflexivity |].
  change (requests_for (p :: rest))
    with (WaterRequest (lat p) (lon p) radiusMeters_default ::
          RainRequest (lat p) (lon p) :: requests_for rest).
  cbn [length]. rewrite IH. lia.
Qed.

(** X6. The water and rain services are asked only about the samples of
    the route obtained in this run, one sample after the other in path
    order, the water service first and with radius 60, the rain service
    second: the requests of any run are an initial part of that list, and
    a run that ends in [Done] has made all of them, each exactly once,
    that is two per ten vertices of the path, rounded up. *)
Theorem sample_calls_follow_the_route (props : Props) (env : Env) (w : World) :
  let w' := exec (handleCheckRoute props) env w in
  exists evs,
    trace w' = trace w ++ evs /\
    (sample_requests evs = [] \/
     exists g k,
       In (SetRouteGeo g) evs /\
       sample_requests evs =
       firstn k (requests_for (sampleLineString g spacingMeters_default))) /\
    (runState w' = Done ->
     exists g,
       In (SetRouteGeo g) evs /\
       sample_requests evs =
       requests_for (sampleLineString g spacingMeters_default) /\
       length (sample_requests evs) =
       (2 * ((length (coordinates g) + 9) / 10))%nat).
Proof.
  intros w'.
  destruct (handleCheckRoute_exec props env w)
    as (evs & _ & (Htrace & _ & Hstatus & _) & _ & Hrun).
  fold w' in Htrace, Hstatus.
  destruct (handler_run_phases _ _ _ Hrun)
    as (evsA & evsB & tail & last & Hevs & HA & _ & HB & _ & Hcases).
  exists evs. split; [exact Htrace |].
  assert (Hlast : status w' = last)
    by (rewrite Hstatus, Hevs, !app_assoc; apply replay_status_last).
  destruct (geocode_calls_silent _ HA) as [_ HrA].
  destruct (geocode_calls_silent _ HB) as [_ HrB].
  assert (Hreq : sample_requests evs = sample_requests tail).
  { rewrite Hevs, !sample_requests_app, HrA, HrB. cbn. apply app_nil_r. }
  assert (Herr : forall msg, last = ("Error: " ++ msg)%string ->
                             runState w' = Done -> False).
  { intros msg -> Hdone. rewrite (runState_Error _ _ Hlast) in Hdone.
    discriminate. }
  destruct Hcases as [(-> & msg & El)
                     | [(from & to & r & msg & -> & _ & El)
                       | [(from & to & r & g & msg & -> & _ & El)
                         | (from & to & r & g & levs & c & -> & _ & Hloop & El)]]];
    try (split; [left; rewrite Hreq; reflexivity
                | intros Hdone; exfalso; eapply Herr; eassumption]).
  assert (Hin : In (SetRouteGeo g) evs).
  { rewrite Hevs. repeat (rewrite in_app_iff || (progress cbn [In])). tauto. }
  change (sample_requests (_ ++ levs)) with (sample_requests levs) in Hreq.
  destruct (loop_run_requests _ _ _ _ _ _ Hloop) as [[k Hk] Hall].
  split.
  - right. exists g, k. split; [exact Hin | congruence].
  - intros Hdone. destruct c as [acc | msg];
      [| exfalso; eapply Herr; eassumption].
    exists g. split; [exact Hin |].
    rewrite Hreq, (Hall acc eq_refl). split; [reflexivity |].
    rewrite requests_for_length. unfold sampleLineString.
    rewrite sampleLineString_for_length by lia.
    cbn [length]. now rewrite Nat.sub_0_r.
Qed.

(** The demonstration run asks about its single sample, water first. *)
Lemma sample_calls_follow_the_route_witness :
  exists evs g,
    trace (exec (handleCheckRoute demo_props) demo_env demo_world) = evs /\
    In (SetRouteGeo g) evs /\
    sample_requests evs =
    requests_for (sampleLineString g spacingMeters_default).
Proof.
  destruct (sample_calls_follow_the_route demo_props demo_env demo_world)
    as (evs & Htrace & _ & Hdone).
  destruct (Hdone eq_refl) as (g & Hin & Hreq & _).
  exists evs, g. auto.
Defined.

(** ** One attempt per call *)

Lemma filter_none (f g : event -> bool) (evs : list event) :
  (forall e, g e = true -> f e = false) ->
  Forall (fun e => g e = true) evs ->
  filter f evs = [].
Proof.
  intros Hfg. induction 1 as [| e evs He _ IH]; [reflexivity |].
  cbn. now rewrite (Hfg e He).
Qed.

Lemma filter_length_le (f : event -> bool) (evs : list event) :
  (length (filter f evs) <= length evs)%nat.
Proof.
  induction evs as [| e evs IH]; cbn; [lia |].
  destruct (f e); cbn; lia.
Qed.

(** X7. No call is retried.  A run makes at most two geocoding exchanges,
    at most one routing exchange and at most one Leaflet import, stores
    at most one route geometry, and touches the in-flight flag exactly
    twice. *)
Theorem single_attempt (props : Props) (env : Env) (w : World) :
  let w' := exec (handleCheckRoute props) env w in
  exists evs,
    trace w' = trace w ++ evs /\
    (length (filter is_geocode_call evs) <= 2)%nat /\
    (length (filter is_route_call evs) <= 1)%nat /\
    (length (filter (fun e => match e with
                              | ImportLeaflet _ => true
                              | _ => false
                              end) evs) <= 1)%nat /\
    (length (filter (fun e => match e with
                              | SetRouteGeo _ => true
                              | _ => false
                              end) evs) <= 1)%nat /\
    filter is_setChecking evs = [SetChecking true; SetChecking false].
Proof.
  intros w'.
  destruct (handleCheckRoute_exec props env w)
    as (evs & _ & (Htrace & _) & _ & Hrun).
  fold w' in Htrace.
  destruct (handler_run_phases _ _ _ Hrun)
    as (evsA & evsB & tail & last & Hevs & HA & HlA & HB & HlB & Hcases).
  exists evs. split; [exact Htrace |].
  assert (Hother : forall f,
             (forall e, is_geocode_call e = true -> f e = false) ->
             filter f evsA = [] /\ filter f evsB = [])
    by (intros f Hf; split; eapply filter_none; eauto).
  assert (Hloop : forall f c levs g,
             loop_run (mapRef w) (sampleLineString g spacingMeters_default)
               false 0 c levs ->
             (forall e, is_sample_call e = true -> f e = false) ->
             filter f levs = []).
  { intros f c levs g Hl Hf. eapply filter_none; [exact Hf |].
    eapply loop_run_calls. exact Hl. }
  pose proof (filter_length_le is_geocode_call evsA) as HgA.
  pose proof (filter_length_le is_geocode_call evsB) as HgB.
  rewrite Hevs, !filter_app, !length_app.
  destruct (Hother is_route_call) as [-> ->];
    [intros []; (discriminate || reflexivity) |].
  destruct (Hother (fun e => match e with ImportLeaflet _ => true | _ => false end))
    as [-> ->]; [intros []; (discriminate || reflexivity) |].
  destruct (Hother (fun e => match e with SetRouteGeo _ => true | _ => false end))
    as [-> ->]; [intros []; (discriminate || reflexivity) |].
  destruct (Hother is_setChecking) as [-> ->];
    [intros []; (discriminate || reflexivity) |].
  destruct Hcases as [(-> & msg & El)
                     | [(from & to & r & msg & -> & _ & El)
                       | [(from & to & r & g & msg & -> & _ & El)
                         | (from & to & r & g & levs & c & -> & _ & Hl & El)]]];
    rewrite ?filter_app, ?length_app;
    try (rewrite (Hloop is_geocode_call _ _ _ Hl)
          by (intros []; (discriminate || reflexivity)));
    try (rewrite (Hloop is_route_call _ _ _ Hl)
          by (intros []; (discriminate || reflexivity)));
    try (rewrite (Hloop is_setChecking _ _ _ Hl)
          by (intros []; (discriminate || reflexivity)));
    try (rewrite (Hloop (fun e => match e with ImportLeaflet _ => true | _ => false end)
                    _ _ _ Hl)
          by (intros []; (discriminate || reflexivity)));
    try (rewrite (Hloop (fun e => match e with SetRouteGeo _ => true | _ => false end)
                    _ _ _ Hl)
          by (intros []; (discriminate || reflexivity)));
    cbn [filter is_geocode_call is_route_call is_setChecking length app];
    repeat split; try lia; reflexivity.
Qed.

(** ** A water check that fails hard *)

(** As [run_reaches_loop], keeping track of what comes before the loop:
    no sample call, and the geometry stored is the one sampled. *)
Lemma run_reaches_loop_quiet (env : Env) (props : Props) (map : bool)
    (evs : list event) :
  handler_run props map evs ->
  Forall (from_env env) evs ->
  endpoint_resolves env (origin props) (originAddr props) ->
  endpoint_resolves env (dest props) (destAddr props) ->
  route_succeeds env ->
  (forall h, leaflet env h = None) ->
  exists pre g cl levs h from to,
    first_route (osrm env h from to) = Some g /\
    loop_run map (sampleLineString g spacingMeters_default) false 0 cl levs /\
    Forall (from_env env) levs /\
    sample_requests pre = [] /\
    In (SetRouteGeo g) pre /\
    evs = pre ++ levs ++
          [SetStatus
             match cl with
             | Normal acc =>
                 finalStatus (riskLevel (fst acc) (snd acc)) (fst acc) (snd acc)
             | Throw msg => ("Error: " ++ msg)%string
             end;
           SetChecking false].
Proof.
  intros Hrun Hfrom Horigin Hdest Hroute Hleaflet.
  assert (Hcases :
            exists c evs0 from to evsA evsB evsR,
              evs = evs0 ++
                    match c with
                    | Normal _ => [SetChecking false]
                    | Throw msg =>
                        [SetStatus ("Error: " ++ msg)%string; SetChecking false]
                    end /\
              evs0 = [SetStatus ""; SetChecking true] ++ evsA ++ evsB ++
                     SetStatus "Getting route..." :: evsR /\
              Forall (fun e => is_geocode_call e = true) evsA /\
              Forall (fun e => is_geocode_call e = true) evsB /\
              route_run map from to c evsR).
  { inversion Hrun as [evs0 Htry | msg evs0 Htry]; subst;
      split_from;
      inversion Htry; subst; split_from;
      repeat match goal with
             | HA : resolved (origin props) _ _ ?e, HF : Forall _ ?e |- _ =>
                 destruct (resolved_must env _ _ _ _ HA HF Horigin) as [? ?];
                 apply resolved_calls in HA; clear HF
             | HB : resolved (dest props) _ _ ?e, HF : Forall _ ?e |- _ =>
                 destruct (resolved_must env _ _ _ _ HB HF Hdest) as [? ?];
                 apply resolved_calls in HB; clear HF
             end;
      try discriminate;
      try (match goal with H : _ = None \/ _ = None |- _ => destruct H end;
           congruence).
    - exists (Normal tt). eauto 12.
    - exists (Throw msg). eauto 12. }
  destruct Hcases
    as (c & evs0 & from & to & evsA & evsB & evsR & -> & -> & HA & HB & HR).
  split_from.
  destruct (route_must env _ _ _ _ _ HR)
    as (g & cl & levs & h & Hg & Hloop & Hl & Hshape); auto.
  destruct (geocode_calls_silent _ HA) as [_ HrA].
  destruct (geocode_calls_silent _ HB) as [_ HrB].
  exists ([SetStatus ""; SetChecking true] ++ evsA ++ evsB ++
          [SetStatus "Getting route...";
           FetchOsrm from to (osrm env h from to); SetRouteGeo g;
           SetStatus "Checking water and rainfall..."; ImportLeaflet None]),
    g, cl, levs, h, from, to.
  split; [exact Hg |]. split; [exact Hloop |]. split; [exact Hl |].
  split; [rewrite !sample_requests_app, HrA, HrB; reflexivity |].
  split; [repeat (rewrite in_app_iff || (progress cbn [In])); tauto |].
  destruct cl as [acc | msg]; destruct Hshape as [-> ->];
    repeat (rewrite <- app_assoc; cbn [app]); reflexivity.
Qed.

Lemma sampleLineString_for_prefix (coords : list Position) (fuel : nat) :
  forall i acc, exists more,
    sampleLineString_for coords i fuel acc = acc ++ more.
Proof.
  induction fuel as [| fuel IH]; intros i acc; cbn [sampleLineString_for].
  - exists []. now rewrite app_nil_r.
  - destruct (nth_error coords i) as [c |].
    + destruct (IH (i + 10)%nat (acc ++ [{| lat := snd c; lon := fst c |}]))
        as [more ->].
      eexists. rewrite <- app_assoc. reflexivity.
    + exists []. now rewrite app_nil_r.
Qed.

(** The first vertex of a path is its first sample. *)
Lemma sampleLineString_head (g : Geometry) (spacing : Q) (first : Position)
    (rest : list Position) :
  coordinates g = first :: rest ->
  exists more, sampleLineString g spacing = sample_of first :: more.
Proof.
  intros Hg. unfold sampleLineString. rewrite Hg.
  cbn [length sampleLineString_for nth_error app].
  destruct (sampleLineString_for_prefix (first :: rest) (length rest) (0 + 10)
              [{| lat := snd first; lon := fst first |}]) as [more ->].
  exists more. reflexivity.
Qed.

(** X8. Only a non-success response makes the water check fail soft.  When
    the Overpass request is rejected, or a success response does not
    parse, the check throws, and the run (endpoints resolved, route
    obtained, surface available, path not empty) is aborted at its first
    sample: it ends in [Error] having made that one water request and no
    rain request. *)
Theorem water_hard_failure_aborts (props : Props) (env : Env) (w : World)
    (g : Geometry) (first : Position) (rest : list Position) :
  endpoint_resolves env (origin props) (originAddr props) ->
  endpoint_resolves env (dest props) (destAddr props) ->
  route_is env g ->
  coordinates g = first :: rest ->
  surface_ready env w ->
  (forall h la lo ra, water_hard_failure (overpass env h la lo ra) = true) ->
  let w' := exec (handleCheckRoute props) env w in
  runState w' = Error /\
  exists evs,
    trace w' = trace w ++ evs /\
    sample_requests evs =
    [WaterRequest (snd first) (fst first) radiusMeters_default].
Proof.
  intros Horigin Hdest Hroute Hg [Hmap Hleaflet] Hhard w'.
  destruct (handleCheckRoute_exec props env w)
    as (evs & _ & (Htrace & _ & Hstatus & _) & Hfrom & Hrun).
  fold w' in Htrace, Hstatus.
  assert (Hsucc : route_succeeds env)
    by (intros h from to; rewrite Hroute; discriminate).
  destruct (run_reaches_loop_quiet env props _ evs Hrun Hfrom Horigin Hdest
              Hsucc Hleaflet)
    as (pre & g' & cl & levs & h & from & to & Hg' & Hloop & Hl & Hpre & _ & Hevs).
  rewrite Hroute in Hg'. injection Hg' as <-.
  destruct (sampleLineString_head g spacingMeters_default first rest Hg)
    as [more Hsamples].
  rewrite Hsamples, Hmap in Hloop.
  inversion Hloop as [| | p0 rest0 wd mr r msg _ Hr
                     | p0 rest0 wd mr r r' c evs0 _ Hr _]; subst;
    try discriminate.
  - split.
    + eapply runState_Error. rewrite Hstatus, app_assoc.
      apply replay_status_last.
    + eexists. split; [exact Htrace |].
      rewrite !sample_requests_app, Hpre. reflexivity.
  - exfalso. split_from. cbn [from_env] in *.
    match goal with H : exists h, r = _ |- _ => destruct H as [h0 ->] end.
    rewrite Hhard in Hr. discriminate.
Qed.

(** The demonstration run with the Overpass service unreachable. *)
Lemma water_hard_failure_aborts_witness :
  let offline :=
    {| nominatim := nominatim demo_env; osrm := osrm demo_env;
       overpass := fun _ _ _ _ => Rejected "Failed to fetch";
       openMeteo := openMeteo demo_env; leaflet := leaflet demo_env;
       effectRuns := effectRuns demo_env |} in
  runState (exec (handleCheckRoute demo_props) offline demo_world) = Error.
Proof.
  intros offline.
  refine (proj1 (water_hard_failure_aborts demo_props offline demo_world
                   demo_path (77, 28) [(78, 28); (78, 29); (79, 29); (79, 30)]
                   _ _ _ eq_refl _ _)).
  - right. intros h. cbn. discriminate.
  - right. intros h. cbn. discriminate.
  - intros h from to. reflexivity.
  - split; [reflexivity | intros h; reflexivity].
  - intros h la lo ra. reflexivity.
Defined.

(** ** Locations that are not found *)

Lemma resolved_completes (env : Env) (pinned : option LatLon)
    (address : string) (c : Completion (option LatLon)) (evs : list event) :
  resolved pinned address c evs ->
  Forall (from_env env) evs ->
  endpoint_completes env pinned address ->
  exists v, c = Normal v.
Proof.
  intros Hres Hfrom Hcomp.
  destruct Hres as [p Hp | r p _ Hfirst | r _ Hz | r msg Hp Hz Hfirst]; eauto.
  exfalso. destruct Hcomp as [Hpin | Hgeo]; [congruence |].
  split_from. cbn [from_env] in *.
  match goal with H : exists h, r = _ |- _ => destruct H as [h ->] end.
  destruct (Hgeo h); congruence.
Qed.

(** X9. When the resolution of both endpoints completes (each is pinned or
    its geocoding answer parses) and at least one of them is unpinned with
    no candidate, the run ends with the status "Error: Invalid locations"
    and has asked neither the routing service nor any later one. *)
Theorem invalid_locations (props : Props) (env : Env) (w : World) :
  endpoint_completes env (origin props) (originAddr props) ->
  endpoint_completes env (dest props) (destAddr props) ->
  endpoint_not_found env (origin props) (originAddr props) \/
  endpoint_not_found env (dest props) (destAddr props) ->
  let w' := exec (handleCheckRoute props) env w in
  status w' = "Error: Invalid locations"%string /\
  exists evs,
    trace w' = trace w ++ evs /\
    filter is_route_call evs = [] /\
    sample_requests evs = [].
Proof.
  intros Horigin Hdest Hnot w'.
  destruct (handleCheckRoute_exec props env w)
    as (evs & _ & (Htrace & _ & Hstatus & _) & Hfrom & Hrun).
  fold w' in Htrace, Hstatus.
  assert (Hshape : exists evsA evsB,
             evs = [SetStatus ""; SetChecking true] ++ evsA ++ evsB ++
                   [SetStatus "Error: Invalid locations"; SetChecking false] /\
             Forall (fun e => is_geocode_call e = true) evsA /\
             Forall (fun e => is_geocode_call e = true) evsB).
  { inversion Hrun as [evs0 Htry | msg evs0 Htry]; subst; split_from;
      inversion Htry as [ m evsA HA | from m evsA evsB HA HB
                        | from to evsA evsB HA HB Hnone
                        | from to evsA evsB evsR c HA HB HR ]; subst;
      split_from;
      try (match goal with
           | HA : resolved (origin props) _ (Throw _) ?l, HF : Forall _ ?l |- _ =>
               destruct (resolved_completes env _ _ _ _ HA HF Horigin);
               discriminate
           | HB : resolved (dest props) _ (Throw _) ?l, HF : Forall _ ?l |- _ =>
               destruct (resolved_completes env _ _ _ _ HB HF Hdest);
               discriminate
           end);
      try (destruct Hnot as [[Hp Hz] | [Hp Hz]];
           [ match goal with
             | HA : resolved (origin props) _ _ ?l, HF : Forall _ ?l |- _ =>
                 destruct (resolved_zero env _ _ _ _ HA HF Hp Hz) as [? _];
                 discriminate
             end
           | match goal with
             | HB : resolved (dest props) _ _ ?l, HF : Forall _ ?l |- _ =>
                 destruct (resolved_zero env _ _ _ _ HB HF Hp Hz) as [? _];
                 discriminate
             end ]).
    exists evsA, evsB.
    split; [repeat (rewrite <- app_assoc; cbn [app]); reflexivity |].
    eauto using resolved_calls. }
  destruct Hshape as (evsA & evsB & Hevs & HA & HB).
  split.
  - rewrite Hstatus, Hevs, !app_assoc. apply replay_status_last.
  - exists evs. split; [exact Htrace |].
    destruct (geocode_calls_silent _ HA) as [_ HrA].
    destruct (geocode_calls_silent _ HB) as [_ HrB].
    rewrite Hevs, !filter_app, !sample_requests_app, HrA, HrB.
    rewrite (filter_none is_route_call is_geocode_call evsA),
            (filter_none is_route_call is_geocode_call evsB);
      auto; intros []; (discriminate || reflexivity).
Qed.

(** The demonstration run against a geocoder that finds nothing. *)
Lemma invalid_locations_witness :
  status (exec (handleCheckRoute demo_props) nowhere_env demo_world) =
  "Error: Invalid locations"%string.
Proof.
  refine (proj1 (invalid_locations demo_props nowhere_env demo_world _ _ _)).
  - right. intros h. left. reflexivity.
  - right. intros h. left. reflexivity.
  - left. split; [reflexivity | intros h; reflexivity].
Defined.

(** ** A route that is not found *)

(** X10. When both endpoints resolve and the routing service gives no
    route (rejected request, unparsable body, a code other than "Ok", or
    no route listed), the run ends in [Error] right after the routing
    exchange: the status does not stay at "Getting route...", no geometry
    is stored, Leaflet is not imported and no sample is checked. *)
Theorem no_route_stops_run (props : Props) (env : Env) (w : World) :
  endpoint_resolves env (origin props) (originAddr props) ->
  endpoint_resolves env (dest props) (destAddr props) ->
  (forall h from to, first_route (osrm env h from to) = None) ->
  let w' := exec (handleCheckRoute props) env w in
  runState w' = Error /\
  exists pre from to r msg,
    trace w' =
    trace w ++ pre ++
    [SetStatus "Getting route..."; FetchOsrm from to r;
     SetStatus ("Error: " ++ msg)%string; SetChecking false] /\
    status w' = ("Error: " ++ msg)%string /\
    Forall (fun e => e = SetStatus ""%string \/ e = SetChecking true \/
                     is_geocode_call e = true) pre.
Proof.
  intros Horigin Hdest Hnone w'.
  destruct (handleCheckRoute_exec props env w)
    as (evs & _ & (Htrace & _ & Hstatus & _) & Hfrom & Hrun).
  fold w' in Htrace, Hstatus.
  assert (Hshape : exists evsA evsB from to r msg,
             evs = ([SetStatus ""; SetChecking true] ++ evsA ++ evsB) ++
                   [SetStatus "Getting route..."; FetchOsrm from to r;
                    SetStatus ("Error: " ++ msg)%string; SetChecking false] /\
             Forall (fun e => is_geocode_call e = true) evsA /\
             Forall (fun e => is_geocode_call e = true) evsB).
  { inversion Hrun as [evs0 Htry | msg evs0 Htry]; subst; split_from;
      inversion Htry as [ m evsA HA | from m evsA evsB HA HB
                        | from to evsA evsB HA HB Hno
                        | from to evsA evsB evsR c HA HB HR ]; subst;
      split_from;
      repeat match goal with
             | HA : resolved (origin props) _ _ ?e, HF : Forall _ ?e |- _ =>
                 destruct (resolved_must env _ _ _ _ HA HF Horigin) as [? ?];
                 apply resolved_calls in HA; clear HF
             | HB : resolved (dest props) _ _ ?e, HF : Forall _ ?e |- _ =>
                 destruct (resolved_must env _ _ _ _ HB HF Hdest) as [? ?];
                 apply resolved_calls in HB; clear HF
             end;
      try discriminate;
      try (match goal with H : _ = None \/ _ = None |- _ => destruct H end;
           congruence);
      inversion HR as [ r m Hr | r g m Hr | r g m levs Hr Hloop
                      | r g wd mr levs Hr Hloop ]; subst;
      split_from; cbn [from_env] in *;
      match goal with H : exists h, r = _ |- _ => destruct H as [h ->] end;
      try (rewrite Hnone in Hr; discriminate).
    exists evsA, evsB, from, to, (osrm env h from to), msg.
    split; [repeat (rewrite <- app_assoc; cbn [app]); reflexivity | auto]. }
  destruct Hshape as (evsA & evsB & from & to & r & msg & Hevs & HA & HB).
  assert (Hs : status w' = ("Error: " ++ msg)%string).
  { rewrite Hstatus, Hevs.
    change [SetStatus "Getting route..."; FetchOsrm from to r;
            SetStatus ("Error: " ++ msg)%string; SetChecking false]
      with ([SetStatus "Getting route..."; FetchOsrm from to r] ++
            [SetStatus ("Error: " ++ msg)%string; SetChecking false]).
    rewrite app_assoc. apply replay_status_last. }
  split; [eapply runState_Error; exact Hs |].
  exists ([SetStatus ""; SetChecking true] ++ evsA ++ evsB), from, to, r, msg.
  split; [rewrite Htrace, Hevs; reflexivity |]. split; [exact Hs |].
  repeat (apply Forall_app; split); repeat constructor; auto;
    eapply Forall_impl; try eassumption; cbn; auto.
Qed.

(** The demonstration run against a router that knows no route. *)
Lemma no_route_stops_run_witness :
  let noroute :=
    {| nominatim := nominatim demo_env;
       osrm := fun _ _ _ =>
         Resolved {| ok := true;
                     body := Json {| code := "NoRoute"; routes := [] |} |};
       overpass := overpass demo_env;
       openMeteo := openMeteo demo_env; leaflet := leaflet demo_env;
       effectRuns := effectRuns demo_env |} in
  runState (exec (handleCheckRoute demo_props) noroute demo_world) = Error.
Proof.
  intros noroute.
  refine (proj1 (no_route_stops_run demo_props noroute demo_world _ _ _)).
  - right. intros h. cbn. discriminate.
  - right. intros h. cbn. discriminate.
  - intros h from to. reflexivity.
Defined.

(** ** Pinning an endpoint on the map *)

Lemma ui_step_keeps_pins (props : Props) (e : UiEvent) :
  (origin props <> None -> origin (ui_step props e) <> None) /\
  (dest props <> None -> dest (ui_step props e) <> None).
Proof.
  destruct e as [[|] la ln | v | v]; cbn; split; auto; discriminate.
Qed.

(** X11. A pin is for good: once an endpoint has a pinned coordinate, no
    sequence of map clicks and edits of the two address fields leaves it
    without one (a later click on the map for that endpoint replaces the
    coordinate, nothing removes it).  A map click pins exactly the chosen
    endpoint at the clicked coordinate, writes its label, and leaves the
    other endpoint as it was. *)
Theorem pins_are_permanent (props : Props) (es : list UiEvent) :
  (origin props <> None -> origin (ui_steps props es) <> None) /\
  (dest props <> None -> dest (ui_steps props es) <> None) /\
  (forall la ln,
      let clicked := onMapClick true la ln props in
      origin clicked = Some {| lat := la; lon := ln |} /\
      originAddr clicked = latLonLabel la ln /\
      dest clicked = dest props /\ destAddr clicked = destAddr props) /\
  (forall la ln,
      let clicked := onMapClick false la ln props in
      dest clicked = Some {| lat := la; lon := ln |} /\
      destAddr clicked = latLonLabel la ln /\
      origin clicked = origin props /\ originAddr clicked = originAddr props).
Proof.
  split; [| split; [| split; intros; cbn; auto]].
  - revert props. induction es as [| e es IH]; intros props Hp; [exact Hp |].
    apply IH. now apply ui_step_keeps_pins.
  - revert props. induction es as [| e es IH]; intros props Hp; [exact Hp |].
    apply IH. now apply ui_step_keeps_pins.
Qed.

(** Pinned origin, then the field is retyped and the destination pinned:
    the origin is still pinned. *)
Lemma pins_are_permanent_witness :
  origin (ui_steps (onMapClick true 28 77 demo_props)
            [OriginInput "Delhi"; MapClick false 30 79; OriginInput ""])
  <> None.
Proof.
  apply (proj1 (pins_are_permanent (onMapClick true 28 77 demo_props)
                  [OriginInput "Delhi"; MapClick false 30 79; OriginInput ""])).
  discriminate.
Defined.

(** X12. The address text of a pinned endpoint has no influence on a run:
    two states of the component that agree on the pins, and on the
    address text of every endpoint that is not pinned, give the same run
    (same completion, same final state, same trace).  So editing the
    address field of a pinned endpoint changes nothing. *)
Theorem pinned_address_is_dead_text (props props' : Props) (env : Env)
    (w : World) :
  origin props = origin props' ->
  dest props = dest props' ->
  (origin props = None -> originAddr props = originAddr props') ->
  (dest props = None -> destAddr props = destAddr props') ->
  handleCheckRoute props env w = handleCheckRoute props' env w.
Proof.
  destruct props as [oa da o d], props' as [oa' da' o' d']. cbn.
  intros <- <- Ho Hd.
  unfold handleCheckRoute, handleCheckRoute_try. cbn [origin dest originAddr destAddr].
  destruct o as [po |], d as [pd |];
    try rewrite (Ho eq_refl); try rewrite (Hd eq_refl); reflexivity.
Qed.

(** After pinning the origin, retyping its address does not change the
    demonstration run. *)
Lemma pinned_address_is_dead_text_witness :
  handleCheckRoute
    (onChangeOriginAddr "somewhere else" (onMapClick true 28 77 demo_props))
    demo_env demo_world =
  handleCheckRoute (onMapClick true 28 77 demo_props) demo_env demo_world.
Proof.
  apply pinned_address_is_dead_text;
    [reflexivity | reflexivity | discriminate | reflexivity].
Defined.

(** ** The markers of the samples *)

Lemma restyle_snoc (color : string) (ms : list Marker) (m : Marker) :
  restyle color (ms ++ [m]) =
  ms ++ [{| m_lat := m_lat m; m_lon := m_lon m; m_color := color |}].
Proof.
  unfold restyle. rewrite rev_app_distr. cbn [rev app].
  now rewrite rev_involutive.
Qed.

Lemma checkWaterAroundPoint_eq (env : Env) (w : World) (la lo ra : Q) :
  let r := overpass env (trace w) la lo ra in
  water_hard_failure r = false ->
  exists v,
    truthy v = water_of r /\
    checkWaterAroundPoint la lo ra env w =
    (Normal v, record (FetchOverpass la lo ra r) w).
Proof.
  intros r. unfold checkWaterAroundPoint, bind, awaitFetch, json. fold r.
  destruct r as [msg | [[|] [msg | [[[| e els] |]]]]]; cbn;
    intros H; try discriminate; eexists; (split; [| reflexivity]); reflexivity.
Qed.

Lemma fetchPrecipitationLastHours_eq (env : Env) (w : World) (la lo : Q) :
  let r := openMeteo env (trace w) la lo in
  fetchPrecipitationLastHours la lo env w =
  (Normal (rain_of r), record (FetchOpenMeteo la lo r) w).
Proof.
  intros r.
  unfold fetchPrecipitationLastHours, tryCatch, bind, awaitFetch, json. fold r.
  destruct r as [msg | [okb [msg | [[[[series |]] |]]]]]; reflexivity.
Qed.

Lemma mark_water_eq (env : Env) (t wd : bool) (w0 : World) :
  (if t then setStyle "#1e88e5" ;; ret true else ret wd) env w0 =
  (Normal (t || wd),
   {| status := status w0; checking := checking w0; routeGeo := routeGeo w0;
      mapRef := mapRef w0;
      samplesMarkers := if t then restyle "#1e88e5" (samplesMarkers w0)
                        else samplesMarkers w0;
      trace := trace w0 |}).
Proof. destruct t, w0; reflexivity. Qed.

Lemma mark_rain_eq (env : Env) (rain : Q) (w0 : World) :
  (if Qgtb rain 10 then setStyle "#d32f2f"
   else if Qgtb rain 5 then setStyle "#f57c00"
   else ret tt) env w0 =
  (Normal tt,
   {| status := status w0; checking := checking w0; routeGeo := routeGeo w0;
      mapRef := mapRef w0;
      samplesMarkers :=
        if Qgtb rain 10 then restyle "#d32f2f" (samplesMarkers w0)
        else if Qgtb rain 5 then restyle "#f57c00" (samplesMarkers w0)
        else samplesMarkers w0;
      trace := trace w0 |}).
Proof.
  destruct (Qgtb rain 10); [destruct w0; reflexivity |].
  destruct (Qgtb rain 5); destruct w0; reflexivity.
Qed.

(** One iteration of the loop whose water check does not throw: the two
    exchanges are recorded and the loop goes on with the updated
    accumulators; the marker of the sample is appended with its final
    colour, unless the callback of the route effect ran at one of the two
    awaits, which leaves the array empty. *)
Lemma forSamples_cons (env : Env) (p : LatLon) (rest : list LatLon)
    (wd : bool) (mr : Q) (w : World) :
  let r := overpass env (trace w) (lat p) (lon p) radiusMeters_default in
  let h' := trace w ++ [FetchOverpass (lat p) (lon p) radiusMeters_default r] in
  let r' := openMeteo env h' (lat p) (lon p) in
  water_hard_failure r = false ->
  forSamples true (p :: rest) wd mr env w =
  forSamples true rest (water_of r || wd) (Math_max mr (rain_of r')) env
    {| status := status w; checking := checking w; routeGeo := routeGeo w;
       mapRef := mapRef w;
       samplesMarkers :=
         if effectRuns env (trace w) || effectRuns env h' then []
         else samplesMarkers w ++
              [{| m_lat := lat p; m_lon := lon p;
                  m_color := marker_color (water_of r) (rain_of r') |}];
       trace := h' ++ [FetchOpenMeteo (lat p) (lon p) r'] |}.
Proof.
  intros r h' r' Hhard.
  cbn [forSamples]. unfold bind at 1. cbn [addMarker].
  unfold bind at 1. cbn [getMarkers setMarkers].
  unfold bind at 1. unfold awaitPending at 1. cbn [trace].
  match goal with
  | |- context [checkWaterAroundPoint _ _ _ env ?w1] =>
      destruct (checkWaterAroundPoint_eq env w1 (lat p) (lon p)
                  radiusMeters_default) as (v & Hv & ->)
  end.
  { destruct (effectRuns env (trace w)); exact Hhard. }
  assert (Hv' : truthy v = water_of r)
    by (destruct (effectRuns env (trace w)); exact Hv).
  clear Hv.
  unfold bind at 1. rewrite mark_water_eq. rewrite Hv'.
  unfold bind at 1. unfold awaitPending at 1.
  rewrite fetchPrecipitationLastHours_eq.
  unfold bind at 1. rewrite mark_rain_eq.
  unfold record, emit.
  destruct (effectRuns env (trace w)) eqn:B1;
    cbn [routeEffect trace status checking routeGeo mapRef samplesMarkers orb];
    fold r; fold h';
    destruct (effectRuns env h') eqn:B2;
    cbn [routeEffect trace status checking routeGeo mapRef samplesMarkers orb];
    fold r'; unfold marker_color;
    destruct (water_of r); destruct (Qgtb (rain_of r') 10);
    destruct (Qgtb (rain_of r') 5);
    cbn [restyle rev]; rewrite ?restyle_snoc; cbn [m_lat m_lon m_color];
    rewrite ?restyle_snoc; cbn [m_lat m_lon m_color]; reflexivity.
Qed.

Lemma forSamples_cons_throw (env : Env) (p : LatLon) (rest : list LatLon)
    (wd : bool) (mr : Q) (w : World) :
  water_hard_failure
    (overpass env (trace w) (lat p) (lon p) radiusMeters_default) = true ->
  exists msg, fst (forSamples true (p :: rest) wd mr env w) = Throw msg.
Proof.
  intros Hhard.
  cbn [forSamples]. unfold bind at 1. cbn [addMarker].
  unfold bind at 1. cbn [getMarkers setMarkers].
  unfold bind at 1. unfold awaitPending at 1.
  unfold checkWaterAroundPoint, bind at 1, awaitFetch.
  destruct (effectRuns env _); cbn [routeEffect trace];
    destruct (overpass env (trace w) (lat p) (lon p) radiusMeters_default)
      as [msg | [[|] [msg | data]]]; try discriminate; cbn; eauto.
Qed.

Lemma skipn_past {A} (k : nat) (xs ys : list A) :
  skipn (length xs + k) (xs ++ ys) = skipn k ys.
Proof.
  rewrite skipn_app, skipn_all2 by lia.
  now replace (length xs + k - length xs)%nat with k by lia.
Qed.

(** The markers a completed loop leaves. *)
Lemma forSamples_markers (env : Env) (samples : list LatLon) :
  forall (wd : bool) (mr : Q) (w w' : World) (acc : bool * Q),
    forSamples true samples wd mr env w = (Normal acc, w') ->
    exists levs,
      trace w' = trace w ++ levs /\
      map marker_position (markers_of levs) =
      map (fun p => (lat p, lon p)) samples /\
      (exists k,
          samplesMarkers w' = skipn k (samplesMarkers w ++ markers_of levs)) /\
      ((forall h, effectRuns env h = false) ->
       samplesMarkers w' = samplesMarkers w ++ markers_of levs) /\
      status w' = status w /\ checking w' = checking w /\
      routeGeo w' = routeGeo w.
Proof.
  induction samples as [| p rest IH]; intros wd mr w w' acc Hrun.
  - cbn in Hrun. injection Hrun as _ <-. exists [].
    rewrite !app_nil_r. repeat split; try reflexivity.
    exists 0%nat. reflexivity.
  - destruct (water_hard_failure
                (overpass env (trace w) (lat p) (lon p) radiusMeters_default))
      eqn:Hhard.
    + destruct (forSamples_cons_throw env p rest wd mr w Hhard) as [msg Hthrow].
      rewrite Hrun in Hthrow. discriminate.
    + rewrite (forSamples_cons env p rest wd mr w Hhard) in Hrun.
      destruct (IH _ _ _ _ _ Hrun)
        as (levs & Htrace & Hpos & [k Hmarkers] & Hquiet & Hs & Hc & Hg).
      cbn [trace samplesMarkers status checking routeGeo] in *.
      eexists (_ :: _ :: levs).
      split; [rewrite Htrace, <- !app_assoc; reflexivity |].
      cbn [markers_of map marker_position m_lat m_lon].
      split; [now rewrite Hpos |].
      split; [| split; [| repeat split; assumption]].
      * destruct (effectRuns env (trace w) || effectRuns env _).
        -- exists (length (samplesMarkers w) + S k)%nat.
           rewrite skipn_past. exact Hmarkers.
        -- exists k. rewrite Hmarkers, <- app_assoc. reflexivity.
      * intros Hnever. rewrite (Hquiet Hnever), !Hnever.
        cbn [orb]. now rewrite <- app_assoc.
Qed.

Lemma marker_color_cases (water : bool) (rain : Q) :
  (10 < rain -> marker_color water rain = "#d32f2f"%string) /\
  (5 < rain <= 10 -> marker_color water rain = "#f57c00"%string) /\
  (rain <= 5 ->
   marker_color water rain = if water then "#1e88e5"%string else "#3388ff"%string).
Proof.
  unfold marker_color. repeat split.
  - intros H. now rewrite (proj2 (Qgtb_true rain 10) H).
  - intros [H5 H10].
    now rewrite (proj2 (Qgtb_false rain 10) H10), (proj2 (Qgtb_true rain 5) H5).
  - intros H5.
    assert (H10 : rain <= 10) by lra.
    now rewrite (proj2 (Qgtb_false rain 10) H10), (proj2 (Qgtb_false rain 5) H5).
Qed.

(** X13. A loop that completes has made one marker per sample, in path
    order, at the coordinates of the sample.  When the callback of the
    route effect does not run during the loop, the array of markers ends
    up as it was followed by all of them; in general it holds a final part
    of that list, since the callback empties the array and the markers
    made after it are appended again.  The colour of a marker that stays
    tells the findings at its sample, the rain taking precedence: red
    above 10 mm, orange above 5 mm, otherwise blue when water is nearby,
    otherwise the colour Leaflet gives a marker by default.  Nothing else
    but the trace changes. *)
Theorem sample_markers (env : Env) (samples : list LatLon)
    (wd : bool) (mr : Q) (w w' : World) (acc : bool * Q) :
  forSamples true samples wd mr env w = (Normal acc, w') ->
  exists levs,
    trace w' = trace w ++ levs /\
    map marker_position (markers_of levs) =
    map (fun p => (lat p, lon p)) samples /\
    (exists k,
        samplesMarkers w' = skipn k (samplesMarkers w ++ markers_of levs)) /\
    ((forall h, effectRuns env h = false) ->
     samplesMarkers w' = samplesMarkers w ++ markers_of levs) /\
    (forall la lo ra r r' rest,
        markers_of (FetchOverpass la lo ra r :: FetchOpenMeteo la lo r' :: rest) =
        {| m_lat := la; m_lon := lo;
           m_color := marker_color (water_of r) (rain_of r') |} ::
        markers_of rest) /\
    (forall water rain,
        (10 < rain -> marker_color water rain = "#d32f2f"%string) /\
        (5 < rain <= 10 -> marker_color water rain = "#f57c00"%string) /\
        (rain <= 5 ->
         marker_color water rain =
         if water then "#1e88e5"%string else "#3388ff"%string)) /\
    status w' = status w /\ checking w' = checking w /\
    routeGeo w' = routeGeo w.
Proof.
  intros Hrun.
  destruct (forSamples_markers env samples wd mr w w' acc Hrun)
    as (levs & Htrace & Hpos & Hk & Hquiet & Hrest).
  exists levs. split; [exact Htrace |]. split; [exact Hpos |].
  split; [exact Hk |]. split; [exact Hquiet |].
  split; [reflexivity |]. split; [apply marker_color_cases | exact Hrest].
Qed.

(** Two samples: with a scheduler that never runs the callback during the
    loop both markers stay; with one that runs it at the first await only
    the second does. *)
Lemma sample_markers_witness :
  let samples := [{| lat := 28; lon := 77 |}; {| lat := 28; lon := 87 |}] in
  let w0 :=
    {| status := ""; checking := true; routeGeo := Some long_path;
       mapRef := true; samplesMarkers := [];
       trace := [ImportLeaflet None] |} in
  samplesMarkers (snd (forSamples true samples false 0 demo_env w0)) =
  [{| m_lat := 28; m_lon := 77; m_color := "#d32f2f" |};
   {| m_lat := 28; m_lon := 87; m_color := "#d32f2f" |}] /\
  samplesMarkers (snd (forSamples true samples false 0 eager_effect_env w0)) =
  [{| m_lat := 28; m_lon := 87; m_color := "#d32f2f" |}].
Proof.
  intros samples w0. split; [| vm_compute; reflexivity].
  destruct (sample_markers demo_env samples false 0 w0
              (snd (forSamples true samples false 0 demo_env w0))
              (true, 12) ltac:(vm_compute; reflexivity))
    as (levs & Htrace & _ & _ & Hquiet & _).
  rewrite (Hquiet (fun _ => eq_refl)).
  vm_compute in Htrace. injection Htrace as <-.
  vm_compute. reflexivity.
Defined.

(** ** The polyline and the markers *)

(** X14. The route effect and the sampler agree on the order of the two
    coordinates: the polyline has one vertex per vertex of the path, with
    latitude first, and the position [[p.lat, p.lon]] at which the marker
    of the k-th sample is put is the vertex 10k of the polyline. *)
Theorem markers_sit_on_the_polyline (g : Geometry) (spacingMeters : Q) :
  length (polylineCoords g) = length (coordinates g) /\
  (forall i c, nth_error (coordinates g) i = Some c ->
               nth_error (polylineCoords g) i = Some (snd c, fst c)) /\
  (forall k p,
      nth_error (sampleLineString g spacingMeters) k = Some p ->
      nth_error (polylineCoords g) (10 * k) = Some (lat p, lon p)).
Proof.
  unfold polylineCoords. split; [apply length_map |]. split.
  - intros i c Hc.
    exact (map_nth_error (fun c0 : Position => (snd c0, fst c0)) i _ Hc).
  - intros k p Hp. unfold sampleLineString in Hp.
    rewrite sampleLineString_for_nth in Hp by lia.
    cbn [length Nat.ltb Nat.leb] in Hp. rewrite Nat.sub_0_r in Hp.
    cbn [Nat.add] in Hp.
    destruct (nth_error (coordinates g) (10 * k)) as [c |] eqn:Hc;
      [| discriminate].
    cbn in Hp. injection Hp as <-.
    exact (map_nth_error (fun c0 : Position => (snd c0, fst c0)) _ _ Hc).
Qed.

(** The sample of the demonstration path is the first vertex of its
    polyline. *)
Lemma markers_sit_on_the_polyline_witness :
  nth_error (polylineCoords demo_path) 0 = Some (28, 77).
Proof.
  apply (proj2 (proj2 (markers_sit_on_the_polyline demo_path 300))
           0%nat {| lat := 28; lon := 77 |}).
  reflexivity.
Defined.

(** ** The label of a clicked point *)

Lemma string_length_app (a b : string) :
  String.length (a ++ b) = (String.length a + String.length b)%nat.
Proof. induction a as [| c a IH]; cbn; [reflexivity | now rewrite IH]. Qed.

Lemma all_digits_app (a b : string) :
  all_digits (a ++ b) = all_digits a && all_digits b.
Proof.
  induction a as [| c a IH]; cbn; [reflexivity |].
  now rewrite IH, andb_assoc.
Qed.

Lemma frac_digits_shape (f : nat) :
  forall b, String.length (frac_digits f b) = f /\
            all_digits (frac_digits f b) = true.
Proof.
  induction f as [| f IH]; intros b; cbn [frac_digits]; [now split |].
  destruct (IH (b / 10)%Z) as [Hlen Hdig].
  rewrite string_length_app, all_digits_app, Hlen, Hdig. cbn.
  split; [lia |].
  rewrite andb_true_r. apply is_digit_digit. apply Z.mod_pos_bound. lia.
Qed.

(** X15. With at least one fraction digit, [toFixed] renders a whole part,
    a point, and exactly that many decimal digits; so the address text
    written by a map click reads "Lat <a>.<5 digits>, Lon <b>.<5 digits>". *)
Theorem latLonLabel_format (la ln : Q) :
  (forall x f, f <> 0%nat ->
     exists whole frac,
       toFixed x f = (whole ++ "." ++ frac)%string /\
       String.length frac = f /\ all_digits frac = true) /\
  exists a fa b fb,
    latLonLabel la ln =
    ("Lat " ++ a ++ "." ++ fa ++ ", Lon " ++ b ++ "." ++ fb)%string /\
    String.length fa = 5%nat /\ all_digits fa = true /\
    String.length fb = 5%nat /\ all_digits fb = true.
Proof.
  assert (Hfix : forall x f, f <> 0%nat ->
            exists whole frac,
              toFixed x f = (whole ++ "." ++ frac)%string /\
              String.length frac = f /\ all_digits frac = true).
  { intros x f Hf. unfold toFixed. destruct f as [| f]; [contradiction |].
    eexists. eexists. split; [reflexivity |]. apply frac_digits_shape. }
  split; [exact Hfix |].
  destruct (Hfix la 5%nat) as (a & fa & Ha & Hla & Hda); [discriminate |].
  destruct (Hfix ln 5%nat) as (b & fb & Hb & Hlb & Hdb); [discriminate |].
  exists a, fa, b, fb. unfold latLonLabel. rewrite Ha, Hb.
  split; [now rewrite !string_app_assoc | auto].
Qed.

(** The label of the point 28.6139, 77.209. *)
Lemma latLonLabel_format_witness :
  exists whole frac,
    toFixed (286139 # 10000) 5 = (whole ++ "." ++ frac)%string /\
    String.length frac = 5%nat /\ all_digits frac = true.
Proof.
  apply (proj1 (latLonLabel_format 0 0)). discriminate.
Defined.

(** ** What the map shows after a run *)

Lemma same_display_trans (w w1 w2 : World) :
  same_display w w1 -> same_display w1 w2 -> same_display w w2.
Proof. unfold same_display. intros [] []. split; congruence. Qed.

Lemma geocode_display (env : Env) (address : string) (w : World) :
  same_display w (snd (geocode address env w)).
Proof.
  unfold geocode, bind, awaitFetch, json.
  destruct (nominatim env (trace w) address)
    as [msg | [okb [msg | [| [| first rest] |]]]]; now split.
Qed.

Lemma pinnedOr_display (env : Env) (pinned : option LatLon) (address : string)
    (w : World) :
  same_display w (snd (pinnedOr pinned (geocode address) env w)).
Proof.
  destruct pinned; [now split | apply geocode_display].
Qed.

Lemma getRoute_display (env : Env) (from to : LatLon) (w : World) :
  same_display w (snd (getRoute from to env w)) /\
  forall g, fst (getRoute from to env w) = Normal g ->
            first_route (osrm env (trace w) from to) = Some g.
Proof.
  unfold getRoute, bind, awaitFetch, json.
  destruct (osrm env (trace w) from to) as [msg | [okb [msg | [cd rts]]]];
    cbn; try (split; [now split | discriminate]).
  destruct (String.eqb cd "Ok"); [| split; [now split | discriminate]].
  destruct rts as [| [g0] rest]; cbn; (split; [now split |]);
    [discriminate | congruence].
Qed.

(** A loop that completes, whatever the map ref. *)
Lemma forSamples_normal (env : Env) (mounted : bool) (samples : list LatLon)
    (wd : bool) (mr : Q) (w w' : World) (acc : bool * Q) :
  forSamples mounted samples wd mr env w = (Normal acc, w') ->
  exists levs,
    map marker_position (markers_of levs) =
    map (fun p => (lat p, lon p)) samples /\
    (exists k,
        samplesMarkers w' = skipn k (samplesMarkers w ++ markers_of levs)) /\
    ((forall h, effectRuns env h = false) ->
     samplesMarkers w' = samplesMarkers w ++ markers_of levs) /\
    routeGeo w' = routeGeo w.
Proof.
  destruct mounted.
  - intros Hrun.
    destruct (forSamples_markers env samples wd mr w w' acc Hrun)
      as (levs & _ & Hpos & Hk & Hquiet & _ & _ & Hg).
    exists levs. auto.
  - intros Hrun. destruct samples as [| p rest]; [| discriminate].
    cbn in Hrun. injection Hrun as _ <-. exists [].
    rewrite !app_nil_r. repeat split; try reflexivity.
    exists 0%nat. reflexivity.
Qed.

Lemma forSamples_routeGeo (env : Env) (mounted : bool) (samples : list LatLon) :
  forall (wd : bool) (mr : Q) (w : World),
    routeGeo (snd (forSamples mounted samples wd mr env w)) = routeGeo w.
Proof.
  induction samples as [| p rest IH]; intros wd mr w; [reflexivity |].
  destruct mounted; [| reflexivity].
  destruct (water_hard_failure
              (overpass env (trace w) (lat p) (lon p) radiusMeters_default))
    eqn:Hhard.
  - cbn [forSamples]. unfold bind at 1. cbn [addMarker].
    unfold bind at 1. cbn [getMarkers setMarkers].
    unfold bind at 1. unfold awaitPending at 1.
    unfold checkWaterAroundPoint, bind at 1, awaitFetch.
    destruct (effectRuns env _); cbn [routeEffect trace];
      destruct (overpass env (trace w) (lat p) (lon p) radiusMeters_default)
        as [msg | [[|] [msg | data]]]; try discriminate; reflexivity.
  - rewrite (forSamples_cons env p rest wd mr w Hhard). now rewrite IH.
Qed.

(** The [try] block either throws before a route is stored, leaving the
    display as it was, or stores the route the service returned and goes
    on to the markers; when it completes, the markers left are those of
    the last samples of that route, and of all its samples when the
    callback of the route effect did not run in between. *)
Lemma handleCheckRoute_try_display (props : Props) (env : Env) (w w1 : World)
    (c : Completion unit) :
  handleCheckRoute_try props env w = (c, w1) ->
  (exists msg, c = Throw msg /\ same_display w w1) \/
  (exists g from to h,
      first_route (osrm env h from to) = Some g /\
      routeGeo w1 = Some g /\
      (c = Normal tt ->
       (exists k,
           map marker_position (samplesMarkers w1) =
           skipn k (map (fun p => (lat p, lon p))
                      (sampleLineString g spacingMeters_default))) /\
       ((forall h, effectRuns env h = false) ->
        map marker_position (samplesMarkers w1) =
        map (fun p => (lat p, lon p))
          (sampleLineString g spacingMeters_default)))).
Proof.
  intros E. unfold handleCheckRoute_try in E.
  unfold bind at 1 in E. cbn [setStatus] in E.
  unfold bind at 1 in E. cbn [setChecking] in E.
  unfold bind at 1 in E.
  match type of E with
  | context [pinnedOr (origin props) ?m env ?w2] =>
      pose proof (pinnedOr_display env (origin props) (originAddr props) w2) as FA;
      destruct (pinnedOr (origin props) m env w2) as [[from | msg] wA]
  end; cbn [snd] in FA;
    [| injection E as <- <-; left; eexists; split; [reflexivity | exact FA]].
  unfold bind at 1 in E.
  pose proof (pinnedOr_display env (dest props) (destAddr props) wA) as FB.
  destruct (pinnedOr (dest props) (geocode (destAddr props)) env wA)
    as [[to | msg] wB]; cbn [snd] in FB;
    [| injection E as <- <-; left; eexists; split;
       [reflexivity | eapply same_display_trans; eassumption]].
  assert (FAB : same_display w wB)
    by (eapply same_display_trans; eassumption).
  destruct from as [from |], to as [to |];
    try (injection E as <- <-; left; eexists; split; [reflexivity | exact FAB]).
  unfold bind at 1 in E. cbn [setStatus] in E.
  unfold bind at 1 in E.
  match type of E with
  | context [getRoute from to env ?w3] =>
      destruct (getRoute_display env from to w3) as [FR HR];
      destruct (getRoute from to env w3) as [[g | msg] wR]
  end; cbn [fst snd] in FR, HR;
    [| injection E as <- <-; left; eexists; split;
       [reflexivity | eapply same_display_trans; [exact FAB | exact FR]]].
  right. exists g, from, to. eexists. split; [apply HR; reflexivity |].
  clear HR FR FAB FA FB.
  unfold bind at 1 in E. cbn [setRouteGeo] in E.
  unfold bind at 1 in E. cbn [setStatus] in E.
  cbn zeta in E.
  unfold bind at 1 in E. unfold awaitPending at 1, importLeaflet in E.
  cbn [trace] in E.
  match type of E with
  | context [effectRuns env ?h] => destruct (effectRuns env h)
  end; cbn [routeEffect trace] in E;
  (match type of E with
   | context [leaflet env ?h] => destruct (leaflet env h) as [msg |]
   end;
   [ injection E as <- <-; split; [reflexivity | discriminate] |]);
  unfold bind at 1 in E; cbn [getMap record mapRef] in E;
  unfold bind at 1 in E; cbn [setMarkers] in E;
  unfold bind at 1 in E;
  (match type of E with
   | context [forSamples ?m ?s false 0 env ?w7] =>
       pose proof (forSamples_normal env m s false 0 w7) as HF;
       pose proof (forSamples_routeGeo env m s false 0 w7) as Hgeo;
       destruct (forSamples m s false 0 env w7) as [[acc | msg] wF] eqn:EF
   end;
   [ destruct (HF wF acc eq_refl) as (levs & Hpos & [k Hk] & Hquiet & Hg);
     cbn [setStatus] in E; injection E as <- <-;
     cbn [routeGeo samplesMarkers app snd] in *;
     split; [exact Hg |]; intros _; split;
     [ exists k; rewrite Hk, <- skipn_map, Hpos; reflexivity
     | intros Hnever; rewrite (Hquiet Hnever); exact Hpos ]
   | injection E as <- <-; split; [exact Hgeo | discriminate] ]).
Qed.

(** X16. After a run that ends in [Done] the component holds the route the
    routing service returned.  The markers of earlier runs are gone, and
    the array of markers holds markers of this route's samples only, in
    path order and at the samples' coordinates: all of them (one per ten
    vertices, rounded up) when the callback of the route effect did not
    run during the loop, and otherwise those of the samples that came
    after it, which the handler never puts back. *)
Theorem done_run_display (props : Props) (env : Env) (w : World) :
  let w' := exec (handleCheckRoute props) env w in
  runState w' = Done ->
  exists g from to h,
    first_route (osrm env h from to) = Some g /\
    routeGeo w' = Some g /\
    (exists k,
        map marker_position (samplesMarkers w') =
        skipn k (map (fun p => (lat p, lon p))
                   (sampleLineString g spacingMeters_default))) /\
    (length (samplesMarkers w') <= (length (coordinates g) + 9) / 10)%nat /\
    ((forall h, effectRuns env h = false) ->
     map marker_position (samplesMarkers w') =
     map (fun p => (lat p, lon p)) (sampleLineString g spacingMeters_default) /\
     length (samplesMarkers w') = ((length (coordinates g) + 9) / 10)%nat).
Proof.
  intros w'. unfold w', exec, handleCheckRoute, tryFinally, tryCatch.
  destruct (handleCheckRoute_try props env w) as [[[] | msg] w1] eqn:E;
    cbn [setChecking setStatus snd].
  - intros _.
    destruct (handleCheckRoute_try_display props env w w1 _ E)
      as [(msg & Hc & _) | (g & from & to & h & Hg & Hgeo & Hmarkers)];
      [discriminate |].
    exists g, from, to, h. cbn [routeGeo samplesMarkers].
    destruct (Hmarkers eq_refl) as [[k Hk] Hquiet].
    assert (Hlen : length (sampleLineString g spacingMeters_default) =
                   ((length (coordinates g) + 9) / 10)%nat).
    { unfold sampleLineString. rewrite sampleLineString_for_length by lia.
      cbn [length]. now rewrite Nat.sub_0_r. }
    split; [exact Hg |]. split; [exact Hgeo |].
    split; [exists k; exact Hk |]. split.
    + rewrite <- (length_map marker_position), Hk, length_skipn, length_map, Hlen.
      lia.
    + intros Hnever. split; [exact (Hquiet Hnever) |].
      rewrite <- (length_map marker_position), (Hquiet Hnever), length_map.
      exact Hlen.
  - intros Hdone. exfalso.
    erewrite runState_Error in Hdone by reflexivity. discriminate.
Qed.

(** The demonstration run ends with its route stored and one marker; on
    the eleven-vertex path, with the callback run at the first await of
    the loop, only the marker of the second sample is left. *)
Lemma done_run_display_witness :
  routeGeo (exec (handleCheckRoute demo_props) demo_env demo_world) =
  Some demo_path /\
  length (samplesMarkers
            (exec (handleCheckRoute demo_props) demo_env demo_world)) = 1%nat /\
  map marker_position
    (samplesMarkers
       (exec (handleCheckRoute demo_props) eager_effect_env demo_world)) =
  [(28, 87)].
Proof.
  destruct (done_run_display demo_props demo_env demo_world
              ltac:(vm_compute; reflexivity))
    as (g & from & to & h & Hg & Hgeo & _ & _ & Hquiet).
  cbn in Hg. injection Hg as <-.
  split; [exact Hgeo |].
  split; [exact (proj2 (Hquiet (fun _ => eq_refl))) |].
  vm_compute. reflexivity.
Defined.

(** X17. When the routing service returns no route, the run ends in
    [Error] and leaves on the map what was there: the route and the
    markers of an earlier run stay as they are, whether the failure is in
    the geocoding or in the routing. *)
Theorem failed_run_keeps_display (props : Props) (env : Env) (w : World) :
  (forall h from to, first_route (osrm env h from to) = None) ->
  let w' := exec (handleCheckRoute props) env w in
  runState w' = Error /\ same_display w w'.
Proof.
  intros Hnone w'. unfold w', exec, handleCheckRoute, tryFinally, tryCatch.
  destruct (handleCheckRoute_try props env w) as [c w1] eqn:E.
  destruct (handleCheckRoute_try_display props env w w1 _ E)
    as [(msg & -> & Hsame) | (g & from & to & h & Hg & _)].
  - cbn [setChecking setStatus snd]. split; [| exact Hsame].
    eapply runState_Error. reflexivity.
  - rewrite Hnone in Hg. discriminate.
Qed.

(** A failed run after the demonstration run keeps its route on the map. *)
Lemma failed_run_keeps_display_witness :
  let noroute :=
    {| nominatim := nominatim demo_env;
       osrm := fun _ _ _ => Rejected "Failed to fetch";
       overpass := overpass demo_env;
       openMeteo := openMeteo demo_env; leaflet := leaflet demo_env;
       effectRuns := effectRuns demo_env |} in
  let shown := exec (handleCheckRoute demo_props) demo_env demo_world in
  routeGeo (exec (handleCheckRoute demo_props) noroute shown) = Some demo_path.
Proof.
  intros noroute shown.
  destruct (failed_run_keeps_display demo_props noroute shown
              (fun _ _ _ => eq_refl)) as [_ [Hgeo _]].
  rewrite Hgeo. reflexivity.
Defined.

(** ** A run before the map is mounted *)



(** ** The precipitation check and the HTTP status *)

(** X20. [fetchPrecipitationLastHours] never looks at the HTTP status: the
    same body gives the same sum under any status, so an hourly series
    carried by a non-success response is summed like any other (the water
    check, on the contrary, discards the body of such a response).  Its
    only effect, also when it fails, is the one recorded exchange. *)
Theorem precipitation_ignores_status (env : Env) (w : World) (la lo : Q) :
  let r := openMeteo env (trace w) la lo in
  snd (fetchPrecipitationLastHours la lo env w) =
  record (FetchOpenMeteo la lo r) w /\
  (forall b, rain_of (with_ok b r) = rain_of r) /\
  (forall b env',
      openMeteo env' (trace w) la lo = with_ok b r ->
      fst (fetchPrecipitationLastHours la lo env' w) =
      fst (fetchPrecipitationLastHours la lo env w)) /\
  (forall b, water_of (with_ok b (overpass env (trace w) la lo radiusMeters_default))
             = true -> b = true).
Proof.
  intros r. rewrite fetchPrecipitationLastHours_eq. fold r.
  split; [reflexivity |].
  assert (Hrain : forall b, rain_of (with_ok b r) = rain_of r)
    by (intros b; destruct r as [msg | [okb bd]]; reflexivity).
  split; [exact Hrain |]. split.
  - intros b env' Henv. rewrite fetchPrecipitationLastHours_eq, Henv.
    cbn [fst]. now rewrite Hrain.
  - intros b.
    destruct (overpass env (trace w) la lo radiusMeters_default)
      as [msg | [okb bd]]; destruct b; cbn; intros H;
      (discriminate || reflexivity).
Qed.

(** A 500 response carrying the demonstration series still sums to 12. *)
Lemma precipitation_ignores_status_witness :
  let failing :=
    {| nominatim := nominatim demo_env; osrm := osrm demo_env;
       overpass := overpass demo_env;
       openMeteo := fun h la lo => with_ok false (openMeteo demo_env h la lo);
       leaflet := leaflet demo_env; effectRuns := effectRuns demo_env |} in
  fst (fetchPrecipitationLastHours 28 77 failing demo_world) = Normal 12.
Proof.
  intros failing.
  rewrite (proj1 (proj2 (proj2
             (precipitation_ignores_status demo_env demo_world 28 77)))
             false failing eq_refl).
  reflexivity.
Defined.
